(** * ii-client: the local OAuth/PKCE authorization flow

    A shallow embedding of the authorization subsystem of the desktop client
    (oauth-server.ts, oauth-utils.ts, claude-token.ts and the claude-code tRPC
    router) together with the properties its specification states about it.

    Conventions.
    - A byte is a [Z] in [0, 256); a 32-bit word is a [Z] in [0, 2^32).
    - ASCII text (base64 output, verifiers, messages) is a [string].
    - A JavaScript string that is fed to a UTF-8 encoder is a list of code
      points in which an unpaired surrogate may occur ([jsstring]).
    - The module-level [oauthState] and everything the Node runtime owns
      (bound listeners, armed timers, promises) is one explicit [World]. *)

From Stdlib Require Import ZArith List String Ascii Bool Lia.
From Stdlib Require Import DecimalString.
Import ListNotations.

Local Open Scope string_scope.
Local Open Scope Z_scope.

(* ===================================================================== *)
(** ** Runtime primitives: bytes, base64, UTF-8, SHA-256                  *)
(* ===================================================================== *)

Definition byte_ok (b : Z) : Prop := 0 <= b < 256.
Definition bytes_ok (bs : list Z) : Prop := Forall byte_ok bs.

Definition byte_okb (b : Z) : bool := (0 <=? b) && (b <? 256).

(** The bytes of an ASCII string, as [Buffer.from(s)] / [hash.update(s)]
    see them. *)
Fixpoint ascii_bytes (s : string) : list Z :=
  match s with
  | EmptyString => []
  | String c r => Z.of_N (N_of_ascii c) :: ascii_bytes r
  end.

Definition char_of (n : Z) : ascii := ascii_of_N (Z.to_N n).

Fixpoint string_of_chars (l : list ascii) : string :=
  match l with
  | [] => EmptyString
  | c :: r => String c (string_of_chars r)
  end.

(** The [n] consecutive integers [start], [start + 1], ... *)
Fixpoint zrange (start : Z) (n : nat) : list Z :=
  match n with
  | O => []
  | S m => start :: zrange (start + 1) m
  end.

(** Decimal rendering of a number inside a template literal. *)
Definition show_Z (z : Z) : string := NilZero.string_of_int (Z.to_int z).

(** The double nearest to an integer, ties to the even significand: what
    an arithmetic operation on numbers yields when its exact result is that
    integer. Integers up to 2^53 in magnitude are kept; beyond, 53
    significant bits are. (Magnitudes stay below 2^1024, where a double is
    finite.) *)
Definition round53 (z : Z) : Z :=
  let a := Z.abs z in
  if a <=? 2 ^ 53 then z
  else
    let ulp := 2 ^ (Z.log2 a - 52) in
    let q := a / ulp in
    let r := a mod ulp in
    let up := if 2 * r <? ulp then false
              else if ulp <? 2 * r then true
              else Z.odd q in
    Z.sgn z * ((if up then q + 1 else q) * ulp).

Module Base64.

(** The 64-character alphabets of RFC 4648: section 4 ([url = false]) and
    the URL-safe section 5 ([url = true]). *)
Definition b64_char (url : bool) (n : Z) : ascii :=
  if n <? 26 then char_of (65 + n)
  else if n <? 52 then char_of (97 + (n - 26))
  else if n <? 62 then char_of (48 + (n - 52))
  else if n =? 62 then (if url then "-"%char else "+"%char)
  else (if url then "_"%char else "/"%char).

(** Node's decoder accepts both alphabets whatever the encoding name. *)
Definition b64_val (c : ascii) : option Z :=
  let n := Z.of_N (N_of_ascii c) in
  if (65 <=? n) && (n <=? 90) then Some (n - 65)
  else if (97 <=? n) && (n <=? 122) then Some (n - 71)
  else if (48 <=? n) && (n <=? 57) then Some (n + 4)
  else if (n =? 43) || (n =? 45) then Some 62
  else if (n =? 47) || (n =? 95) then Some 63
  else None.

(** Three bytes become four sextets; a tail of one or two bytes becomes two
    or three sextets. *)
Fixpoint encode_sextets (bs : list Z) : list Z :=
  match bs with
  | [] => []
  | [a] => [a / 4; (a mod 4) * 16]
  | [a; b] => [a / 4; (a mod 4) * 16 + b / 16; (b mod 16) * 4]
  | a :: b :: c :: r =>
      a / 4 :: (a mod 4) * 16 + b / 16 :: (b mod 16) * 4 + c / 64
        :: c mod 64 :: encode_sextets r
  end.

Definition padding (n : nat) : list ascii :=
  match Nat.modulo n 3 with
  | 1%nat => ["="%char; "="%char]
  | 2%nat => ["="%char]
  | _ => []
  end.

(** [buf.toString("base64")]: standard alphabet, padded. *)
Definition base64 (bs : list Z) : string :=
  string_of_chars (map (b64_char false) (encode_sextets bs) ++ padding (List.length bs)).

(** [buf.toString("base64url")]: URL-safe alphabet, no padding. *)
Definition base64url (bs : list Z) : string :=
  string_of_chars (map (b64_char true) (encode_sextets bs)).

(** Reading the text: padding ends the data, characters outside both
    alphabets are skipped. *)
Fixpoint sextets_of (s : string) : list Z :=
  match s with
  | EmptyString => []
  | String c r =>
      if Ascii.eqb c "="%char then []
      else match b64_val c with
           | Some v => v :: sextets_of r
           | None => sextets_of r
           end
  end.

Fixpoint decode_sextets (l : list Z) : list Z :=
  match l with
  | a :: b :: c :: d :: r =>
      a * 4 + b / 16 :: (b mod 16) * 16 + c / 4 :: (c mod 4) * 64 + d
        :: decode_sextets r
  | [a; b; c] => [a * 4 + b / 16; (b mod 16) * 16 + c / 4]
  | [a; b] => [a * 4 + b / 16]
  | _ => []
  end.

(** [Buffer.from(s, "base64")] and [Buffer.from(s, "base64url")]. *)
Definition decode (s : string) : list Z := decode_sextets (sextets_of s).

(** The range of a sextet, and the check that a sextet survives the
    alphabet. *)
Definition sextet_ok (n : Z) : Prop := 0 <= n < 64.

Definition char_roundtrips (url : bool) (n : Z) : bool :=
  match b64_val (b64_char url n) with
  | Some m => (m =? n) && negb (Ascii.eqb (b64_char url n) "="%char)
  | None => false
  end.

End Base64.

Module Sha256.

Definition mask32 : Z := 0xFFFFFFFF.
Definition w32 (x : Z) : Z := Z.land x mask32.
Definition add32 (a b : Z) : Z := w32 (a + b).
Definition rotr (n x : Z) : Z := w32 (Z.lor (Z.shiftr x n) (Z.shiftl x (32 - n))).
Definition shr (n x : Z) : Z := Z.shiftr x n.
Definition not32 (x : Z) : Z := Z.lxor x mask32.

Definition Ch (x y z : Z) : Z := Z.lxor (Z.land x y) (Z.land (not32 x) z).
Definition Maj (x y z : Z) : Z :=
  Z.lxor (Z.lxor (Z.land x y) (Z.land x z)) (Z.land y z).
Definition Sigma0 (x : Z) : Z := Z.lxor (Z.lxor (rotr 2 x) (rotr 13 x)) (rotr 22 x).
Definition Sigma1 (x : Z) : Z := Z.lxor (Z.lxor (rotr 6 x) (rotr 11 x)) (rotr 25 x).
Definition sigma0 (x : Z) : Z := Z.lxor (Z.lxor (rotr 7 x) (rotr 18 x)) (shr 3 x).
Definition sigma1 (x : Z) : Z := Z.lxor (Z.lxor (rotr 17 x) (rotr 19 x)) (shr 10 x).

(** The constants of FIPS 180-4 are fractional parts of roots of the first
    primes: the first 32 bits of the cube roots for the round constants, of
    the square roots for the initial hash value. *)
Definition primes : list Z :=
  [ 2; 3; 5; 7; 11; 13; 17; 19; 23; 29; 31; 37; 41; 43; 47; 53; 59; 61; 67; 71;
    73; 79; 83; 89; 97; 101; 103; 107; 109; 113; 127; 131; 137; 139; 149; 151;
    157; 163; 167; 173; 179; 181; 191; 193; 197; 199; 211; 223; 227; 229; 233;
    239; 241; 251; 257; 263; 269; 271; 277; 281; 283; 293; 307; 311 ].

(** The integer cube root of [n], found bit by bit below [2 ^ bits]. *)
Fixpoint cube_root_bits (bits : nat) (n r : Z) : Z :=
  match bits with
  | O => r
  | S b =>
      let r' := r + 2 ^ Z.of_nat b in
      cube_root_bits b n (if r' * r' * r' <=? n then r' else r)
  end.

Definition frac_cube_root (p : Z) : Z := w32 (cube_root_bits 36 (p * 2 ^ 96) 0).
Definition frac_square_root (p : Z) : Z := w32 (Z.sqrt (p * 2 ^ 64)).

Definition K : list Z := Eval vm_compute in map frac_cube_root primes.

Definition H0 : list Z := Eval vm_compute in map frac_square_root (firstn 8 primes).

(** Big-endian rendering of [x] on [n] bytes. *)
Fixpoint be_bytes (n : nat) (x : Z) : list Z :=
  match n with
  | O => []
  | S m => (x / 256 ^ Z.of_nat m) mod 256 :: be_bytes m x
  end.

(** Message padding: a 1 bit, zeros up to 56 mod 64, the bit length on
    eight bytes. *)
Definition pad (msg : list Z) : list Z :=
  let len := Z.of_nat (List.length msg) in
  let zeros := Z.to_nat ((55 - len) mod 64) in
  msg ++ [0x80] ++ repeat 0 zeros ++ be_bytes 8 (8 * len).

Fixpoint words_of (n : nat) (bs : list Z) : list Z :=
  match n with
  | O => []
  | S m =>
      match bs with
      | a :: b :: c :: d :: r =>
          (((a * 256 + b) * 256 + c) * 256 + d) :: words_of m r
      | _ => []
      end
  end.

(** The message schedule, kept newest-first: [rev_w] holds W[t-1], W[t-2],
    ... and the next word is
    sigma1(W[t-2]) + W[t-7] + sigma0(W[t-15]) + W[t-16]. *)
Fixpoint extend (n : nat) (rev_w : list Z) : list Z :=
  match n with
  | O => rev_w
  | S m =>
      let w :=
        add32 (add32 (sigma1 (nth 1 rev_w 0)) (nth 6 rev_w 0))
              (add32 (sigma0 (nth 14 rev_w 0)) (nth 15 rev_w 0)) in
      extend m (w :: rev_w)
  end.

Definition schedule (block : list Z) : list Z :=
  rev (extend 48 (rev (words_of 16 block))).

Record regs := Regs { ra : Z; rb : Z; rc : Z; rd : Z; re : Z; rf : Z; rg : Z; rh : Z }.

Definition round (s : regs) (kw : Z * Z) : regs :=
  let t1 := add32 (add32 (add32 (rh s) (Sigma1 (re s))) (Ch (re s) (rf s) (rg s)))
                  (add32 (fst kw) (snd kw)) in
  let t2 := add32 (Sigma0 (ra s)) (Maj (ra s) (rb s) (rc s)) in
  Regs (add32 t1 t2) (ra s) (rb s) (rc s) (add32 (rd s) t1) (re s) (rf s) (rg s).

Definition regs_of (h : list Z) : regs :=
  Regs (nth 0 h 0) (nth 1 h 0) (nth 2 h 0) (nth 3 h 0)
       (nth 4 h 0) (nth 5 h 0) (nth 6 h 0) (nth 7 h 0).

Definition list_of (s : regs) : list Z :=
  [ra s; rb s; rc s; rd s; re s; rf s; rg s; rh s].

Definition compress (h : list Z) (block : list Z) : list Z :=
  let s := fold_left round (combine K (schedule block)) (regs_of h) in
  map (fun p => add32 (fst p) (snd p)) (combine h (list_of s)).

Fixpoint blocks (n : nat) (h : list Z) (bs : list Z) : list Z :=
  match n with
  | O => h
  | S m => blocks m (compress h (firstn 64 bs)) (skipn 64 bs)
  end.

(** [crypto.createHash("sha256").update(msg).digest()]: 32 bytes. *)
Definition sha256 (msg : list Z) : list Z :=
  let p := pad msg in
  flat_map (be_bytes 4) (blocks (Nat.div (List.length p) 64) H0 p).

Definition hex_digit (n : Z) : ascii :=
  if n <? 10 then char_of (48 + n) else char_of (87 + n).

Definition hex (bs : list Z) : string :=
  string_of_chars (flat_map (fun b => [hex_digit (b / 16); hex_digit (b mod 16)]) bs).

End Sha256.

Module Utf8.

(** A JavaScript string as the UTF-8 encoder reads it: its code points,
    surrogate pairs already combined, unpaired surrogates left in place. *)
Definition jsstring : Type := list Z.

Definition is_surrogate (c : Z) : bool := (0xD800 <=? c) && (c <=? 0xDFFF).

(** A Unicode scalar value. *)
Definition scalarb (c : Z) : bool :=
  (0 <=? c) && (c <? 0x110000) && negb (is_surrogate c).

Definition well_formed (s : jsstring) : Prop := Forall (fun c => scalarb c = true) s.

Definition replacement : Z := 0xFFFD.

(** [Buffer.from(str)] writes an unpaired surrogate as U+FFFD. *)
Definition encode_cp (c : Z) : list Z :=
  if c <? 0x80 then [c]
  else if c <? 0x800 then [0xC0 + c / 64; 0x80 + c mod 64]
  else if c <? 0x10000 then
    if is_surrogate c then [0xEF; 0xBF; 0xBD]
    else [0xE0 + c / 4096; 0x80 + (c / 64) mod 64; 0x80 + c mod 64]
  else [0xF0 + c / 262144; 0x80 + (c / 4096) mod 64;
        0x80 + (c / 64) mod 64; 0x80 + c mod 64].

Definition encode (s : jsstring) : list Z := flat_map encode_cp s.

Definition between (lo hi b : Z) : bool := (lo <=? b) && (b <=? hi).

(** Bounds on the second byte of a three- or four-byte sequence; they rule
    out overlong forms, surrogates and code points above U+10FFFF. *)
Definition lower (b0 : Z) : Z :=
  if b0 =? 0xE0 then 0xA0 else if b0 =? 0xF0 then 0x90 else 0x80.
Definition upper (b0 : Z) : Z :=
  if b0 =? 0xED then 0x9F else if b0 =? 0xF4 then 0x8F else 0xBF.

(** [buf.toString("utf-8")]: every maximal ill-formed prefix yields one
    U+FFFD and decoding resumes at the offending byte. *)
Fixpoint decode (bs : list Z) : jsstring :=
  match bs with
  | [] => []
  | b0 :: r0 =>
      if between 0 0x7F b0 then b0 :: decode r0
      else if between 0xC2 0xDF b0 then
        match r0 with
        | [] => [replacement]
        | b1 :: r1 =>
            if between 0x80 0xBF b1
            then (b0 - 0xC0) * 64 + (b1 - 0x80) :: decode r1
            else replacement :: decode r0
        end
      else if between 0xE0 0xEF b0 then
        match r0 with
        | [] => [replacement]
        | b1 :: r1 =>
            if between (lower b0) (upper b0) b1 then
              match r1 with
              | [] => [replacement]
              | b2 :: r2 =>
                  if between 0x80 0xBF b2
                  then ((b0 - 0xE0) * 64 + (b1 - 0x80)) * 64 + (b2 - 0x80)
                         :: decode r2
                  else replacement :: decode r1
              end
            else replacement :: decode r0
        end
      else if between 0xF0 0xF4 b0 then
        match r0 with
        | [] => [replacement]
        | b1 :: r1 =>
            if between (lower b0) (upper b0) b1 then
              match r1 with
              | [] => [replacement]
              | b2 :: r2 =>
                  if between 0x80 0xBF b2 then
                    match r2 with
                    | [] => [replacement]
                    | b3 :: r3 =>
                        if between 0x80 0xBF b3
                        then (((b0 - 0xF0) * 64 + (b1 - 0x80)) * 64
                              + (b2 - 0x80)) * 64 + (b3 - 0x80) :: decode r3
                        else replacement :: decode r2
                    end
                  else replacement :: decode r1
              end
            else replacement :: decode r0
        end
      else replacement :: decode r0
  end.

End Utf8.

(* ===================================================================== *)
(** ** Exceptions                                                         *)
(* ===================================================================== *)

(** A computation that returns a value or throws [new Error(message)]. *)
Inductive result (A : Type) : Type :=
| Ok (a : A)
| Throw (message : string).
Arguments Ok {A} a.
Arguments Throw {A} message.

Definition bind {A B : Type} (r : result A) (k : A -> result B) : result B :=
  match r with
  | Ok a => k a
  | Throw e => Throw e
  end.

(** [try { body } catch (e) { handler(e) }]. *)
Definition try_catch {A : Type} (body : result A) (handler : string -> result A) : result A :=
  match body with
  | Ok a => Ok a
  | Throw e => handler e
  end.

(** A computation that ran to its end without throwing. *)
Definition returns {A : Type} (r : result A) : Prop := exists a, r = Ok a.

Notation "x <- c ;; k" := (bind c (fun x => k))
  (at level 61, c at next level, right associativity).

(** Truthiness of an optional string: [undefined], [null] and the empty
    string are falsy. *)
Definition truthy (s : option string) : bool :=
  match s with
  | Some v => negb (String.eqb v EmptyString)
  | None => false
  end.

(** [a || b] where [a] is a string or [undefined] and [b] a string. *)
Definition or_else (a : option string) (b : string) : string :=
  match a with
  | Some v => if String.eqb v EmptyString then b else v
  | None => b
  end.

(** Look-up in a [URLSearchParams] or a plain object literal. *)
Fixpoint get_field {A : Type} (k : string) (fs : list (string * A)) : option A :=
  match fs with
  | [] => None
  | (k', v) :: r => if String.eqb k k' then Some v else get_field k r
  end.

(* ===================================================================== *)
(** ** oauth-utils.ts                                                     *)
(* ===================================================================== *)

Module OAuthUtils.

Definition OAUTH_ENDPOINTS_authorization : string :=
  "https://console.anthropic.com/oauth/authorize".
Definition OAUTH_ENDPOINTS_token : string :=
  "https://api.anthropic.com/v1/oauth/token".
Definition OAUTH_CLIENT_ID : string := "9d1c250a-e61b-44d9-88ed-5944d1962f5e".
Definition OAUTH_SCOPES : string := "org:create_api_key user:profile user:inference".

Record TokenResponse := {
  access_token : string;
  refresh_token : option string;
  expires_in : option Z;
  token_type : option string
}.

Record OAuthTokens := {
  accessToken : string;
  refreshToken : option string;
  expiresAt : option Z
}.

(** What is handed to [fetch]: the body is the [URLSearchParams] before
    serialisation, in insertion order. *)
Record Request := {
  req_url : string;
  req_method : string;
  req_headers : list (string * string);
  req_body : list (string * string)
}.

(** What [fetch] yields; [resp_json] throws when the body is not JSON. *)
Record Response := {
  resp_ok : bool;
  resp_status : Z;
  resp_text : string;
  resp_json : result TokenResponse
}.

(** The network: a request is answered or [fetch] throws. *)
Definition Fetch : Type := Request -> result Response.

Record ExchangeParams := {
  code : string;
  redirectUri : string;
  codeVerifier : string
}.

Definition form_post (body : list (string * string)) : Request :=
  {| req_url := OAUTH_ENDPOINTS_token;
     req_method := "POST";
     req_headers := [("Content-Type", "application/x-www-form-urlencoded")];
     req_body := body |}.

(** [data.expires_in ? Date.now() + data.expires_in * 1000 : undefined],
    the product and the sum being those of doubles. *)
Definition expiry (now : Z) (expires_in : option Z) : option Z :=
  match expires_in with
  | Some n => if n =? 0 then None else Some (round53 (now + round53 (n * 1000)))
  | None => None
  end.

Definition exchange_request (params : ExchangeParams) : Request :=
  form_post [ ("grant_type", "authorization_code");
              ("code", code params);
              ("client_id", OAUTH_CLIENT_ID);
              ("redirect_uri", redirectUri params);
              ("code_verifier", codeVerifier params) ].

Definition exchangeAuthorizationCode (fetch : Fetch) (now : Z)
    (params : ExchangeParams) : result OAuthTokens :=
  response <- fetch (exchange_request params) ;;
  if negb (resp_ok response) then
    Throw ("Token exchange failed: " ++ show_Z (resp_status response)
             ++ " - " ++ resp_text response)
  else
    data <- resp_json response ;;
    Ok {| accessToken := access_token data;
          refreshToken := refresh_token data;
          expiresAt := expiry now (expires_in data) |}.

Definition refresh_request (refreshToken : string) : Request :=
  form_post [ ("grant_type", "refresh_token");
              ("refresh_token", refreshToken);
              ("client_id", "claude-desktop") ].

Definition refreshOAuthToken (fetch : Fetch) (now : Z)
    (refreshToken : string) : result OAuthTokens :=
  response <- fetch (refresh_request refreshToken) ;;
  if negb (resp_ok response) then
    Throw ("Failed to refresh token: " ++ resp_text response)
  else
    data <- resp_json response ;;
    Ok {| accessToken := access_token data;
          refreshToken := Some (or_else (refresh_token data) refreshToken);
          expiresAt := expiry now (expires_in data) |}.

Definition bufferMs : Z := 5 * 60 * 1000.

(** [expiresAt] is [undefined] ([None]) or a number; [!expiresAt] holds
    for [undefined] and for the number 0. *)
Definition isTokenExpired (now : Z) (expiresAt : option Z) : bool :=
  match expiresAt with
  | None => false
  | Some e =>
      if e =? 0 then false
      else now + bufferMs >=? e
  end.

End OAuthUtils.

(* ===================================================================== *)
(** ** oauth-server.ts                                                    *)
(* ===================================================================== *)

(** [s.includes(c)] and [s.split(c)[0]] for a one-character separator. *)
Fixpoint includes (c : ascii) (s : string) : bool :=
  match s with
  | EmptyString => false
  | String a r => Ascii.eqb a c || includes c r
  end.

Fixpoint split_head (c : ascii) (s : string) : string :=
  match s with
  | EmptyString => EmptyString
  | String a r => if Ascii.eqb a c then EmptyString else String a (split_head c r)
  end.

Module OAuthServer.
Import OAuthUtils.

Definition portRange_min : Z := 21300.
Definition portRange_max : Z := 21399.

Record PKCEChallenge := { verifier : string; challenge : string }.

(** [randomBytes] stands for the result of [crypto.randomBytes(32)]. *)
Definition generatePKCE (randomBytes : list Z) : PKCEChallenge :=
  let verifier := Base64.base64url randomBytes in
  let hash := Sha256.sha256 (ascii_bytes verifier) in
  let challenge := Base64.base64url hash in
  {| verifier := verifier; challenge := challenge |}.

(** *** Port probing *)

(** What binding a transient listener on a port of the loopback interface
    ends in: the server emits [listening] or [error]. *)
Inductive ListenOutcome := Listening | ListenError.

Definition Loopback : Type := Z -> ListenOutcome.

(** A number [listen] accepts as a port. *)
Definition valid_port (port : Z) : bool := (0 <=? port) && (port <? 65536).

(** The message of the [RangeError] ([ERR_SOCKET_BAD_PORT]) that
    [server.listen] throws, before it binds anything, for any other number. *)
Definition bad_port_message (port : Z) : string :=
  "options.port should be >= 0 and < 65536. Received type number ("
    ++ show_Z port ++ ").".

(** [server.listen] runs inside the promise executor: when it throws, the
    promise is rejected with what it threw. *)
Definition checkPortAvailable (net : Loopback) (port : Z) : result bool :=
  if valid_port port then
    match net port with
    | Listening => Ok true      (* server.close(() => resolve(true)) *)
    | ListenError => Ok false   (* resolve(false) *)
    end
  else Throw (bad_port_message port).

(** The [for] loop with [left] ports still to try, [port] being the next
    one; the first component lists the ports probed, in probing order. The
    loop ends with the port found, with [None] when it has run through, or
    with what a probe threw. *)
Fixpoint probe (net : Loopback) (left : nat) (port : Z) : list Z * result (option Z) :=
  match left with
  | O => ([], Ok None)
  | S n =>
      match checkPortAvailable net port with
      | Throw e => ([port], Throw e)
      | Ok true => ([port], Ok (Some port))
      | Ok false => let (probed, r) := probe net n (port + 1) in (port :: probed, r)
      end
  end.

Definition findAvailablePort_probes (net : Loopback) (min max : Z)
  : list Z * result Z :=
  let (probed, r) := probe net (Z.to_nat (max - min + 1)) min in
  (probed,
   match r with
   | Ok (Some port) => Ok port
   | Ok None => Throw ("No available ports in range " ++ show_Z min ++ "-" ++ show_Z max)
   | Throw e => Throw e
   end).

Definition findAvailablePort (net : Loopback) (min max : Z) : result Z :=
  snd (findAvailablePort_probes net min max).

(** What a call has probed: [min], [min + 1], ... up to the port it returns,
    or up to [max] when it throws. *)
Definition probed_up_to (min max : Z) (r : result Z) : list Z :=
  match r with
  | Ok p => zrange min (Z.to_nat (p - min + 1))
  | Throw _ => zrange min (Z.to_nat (max - min + 1))
  end.

(** *** The process state *)

Inductive Page :=
| SuccessHTML                      (* getSuccessHTML() *)
| ErrorHTML (message : string)     (* getErrorHTML(message) *)
| HealthJSON                       (* {"status":"ok"} *)
| NotFoundText.                    (* "Not Found" *)

Record Reply := { status : Z; contentType : string; page : Page }.

Inductive Settlement :=
| Resolved (tokens : OAuthTokens)
| Rejected (message : string).

(** The module-level [oauthState]. A flow is named by a number; the
    promise, the server and the timer it creates carry that number, and
    [resolveCallback]/[rejectCallback] hold the promise they settle. *)
Record OAuthState := {
  server : option nat;
  port : option Z;
  pkce : option PKCEChallenge;
  state : option string;
  resolveCallback : option nat;
  rejectCallback : option nat;
  timeoutId : option nat
}.

Definition idle : OAuthState :=
  {| server := None; port := None; pkce := None; state := None;
     resolveCallback := None; rejectCallback := None; timeoutId := None |}.

Record World := {
  oauthState : OAuthState;
  listening : list (nat * Z);          (* bound callback servers and their ports *)
  timers : list nat;                   (* armed timeouts *)
  promises : list (nat * Settlement);  (* settled promises *)
  replies : list Reply;                (* HTTP responses written *)
  exchanges : list ExchangeParams;     (* calls of exchangeAuthorizationCode *)
  browser : list (string * list (string * string))  (* URLs opened *)
}.

Definition initial : World :=
  {| oauthState := idle; listening := []; timers := []; promises := [];
     replies := []; exchanges := []; browser := [] |}.

Definition set_oauthState (s : OAuthState) (w : World) : World :=
  {| oauthState := s; listening := listening w; timers := timers w;
     promises := promises w; replies := replies w; exchanges := exchanges w;
     browser := browser w |}.

Definition set_listening (l : list (nat * Z)) (w : World) : World :=
  {| oauthState := oauthState w; listening := l; timers := timers w;
     promises := promises w; replies := replies w; exchanges := exchanges w;
     browser := browser w |}.

Definition set_timers (t : list nat) (w : World) : World :=
  {| oauthState := oauthState w; listening := listening w; timers := t;
     promises := promises w; replies := replies w; exchanges := exchanges w;
     browser := browser w |}.

Definition set_promises (p : list (nat * Settlement)) (w : World) : World :=
  {| oauthState := oauthState w; listening := listening w; timers := timers w;
     promises := p; replies := replies w; exchanges := exchanges w;
     browser := browser w |}.

Definition set_replies (r : list Reply) (w : World) : World :=
  {| oauthState := oauthState w; listening := listening w; timers := timers w;
     promises := promises w; replies := r; exchanges := exchanges w;
     browser := browser w |}.

Definition set_exchanges (e : list ExchangeParams) (w : World) : World :=
  {| oauthState := oauthState w; listening := listening w; timers := timers w;
     promises := promises w; replies := replies w; exchanges := e;
     browser := browser w |}.

Definition set_browser (b : list (string * list (string * string))) (w : World) : World :=
  {| oauthState := oauthState w; listening := listening w; timers := timers w;
     promises := promises w; replies := replies w; exchanges := exchanges w;
     browser := b |}.

(** *** Promises, listeners, timers *)

Fixpoint outcome (p : nat) (l : list (nat * Settlement)) : option Settlement :=
  match l with
  | [] => None
  | (q, s) :: r => if Nat.eqb p q then Some s else outcome p r
  end.

(** Calling a promise's [resolve] or [reject]: the first call settles it,
    later calls do nothing. *)
Definition settle (p : nat) (s : Settlement) (w : World) : World :=
  match outcome p (promises w) with
  | Some _ => w
  | None => set_promises (promises w ++ [(p, s)]) w
  end.

Definition pending (p : nat) (w : World) : Prop := outcome p (promises w) = None.

Definition close_server (srv : nat) (w : World) : World :=
  set_listening (filter (fun e => negb (Nat.eqb (fst e) srv)) (listening w)) w.

Definition listen (srv : nat) (port : Z) (w : World) : World :=
  set_listening (listening w ++ [(srv, port)]) w.

Definition clearTimeout (t : nat) (w : World) : World :=
  set_timers (filter (fun x => negb (Nat.eqb x t)) (timers w)) w.

Definition setTimeout (t : nat) (w : World) : World :=
  set_timers (timers w ++ [t]) w.

Definition respond (code : Z) (ctype : string) (p : Page) (w : World) : World :=
  set_replies (replies w ++ [{| status := code; contentType := ctype; page := p |}]) w.

(** *** cleanup *)

Definition cleanup (w : World) : World :=
  let w1 :=
    match timeoutId (oauthState w) with
    | Some t => clearTimeout t w
    | None => w
    end in
  let w2 :=
    match server (oauthState w1) with
    | Some srv => close_server srv w1
    | None => w1
    end in
  set_oauthState idle w2.

(** [oauthState.rejectCallback?.(new Error(message))] and
    [oauthState.resolveCallback?.(tokens)]: the field is read when the
    statement runs. *)
Definition call_rejectCallback (message : string) (w : World) : World :=
  match rejectCallback (oauthState w) with
  | Some p => settle p (Rejected message) w
  | None => w
  end.

Definition call_resolveCallback (tokens : OAuthTokens) (w : World) : World :=
  match resolveCallback (oauthState w) with
  | Some p => settle p (Resolved tokens) w
  | None => w
  end.

(** *** The callback handler *)

(** [url.searchParams.get(..)] for the four parameters; [None] is [null]. *)
Record Query := {
  q_code : option string;
  q_state : option string;
  q_error : option string;
  q_error_description : option string
}.

Definition text (s : option string) : string :=
  match s with Some v => v | None => EmptyString end.

(** [a !== b] on values that are a string or [null]. *)
Definition differs (a b : option string) : bool :=
  match a, b with
  | Some x, Some y => negb (String.eqb x y)
  | None, None => false
  | _, _ => true
  end.

Definition redirect_uri (port : Z) : string :=
  "http://localhost:" ++ show_Z port ++ "/callback".

(** The synchronous part: the guard, the redirect URI and the call of
    [exchangeAuthorizationCode], which is recorded; the second component is
    what the awaited call ends in. *)
Definition exchangeCodeForTokens (fetch : Fetch) (now : Z) (code : string)
    (w : World) : World * result OAuthTokens :=
  match pkce (oauthState w), port (oauthState w) with
  | Some k, Some p =>
      if p =? 0 then (w, Throw "OAuth state not initialized")
      else
        let params := {| code := code;
                         redirectUri := redirect_uri p;
                         codeVerifier := verifier k |} in
        (set_exchanges (exchanges w ++ [params]) w,
         exchangeAuthorizationCode fetch now params)
  | _, _ => (w, Throw "OAuth state not initialized")
  end.

(** The handler's [error] branches: page, [cleanup()], then the optional
    call of [rejectCallback]. *)
Definition fail_callback (message : string) (w : World) : World :=
  let w1 := respond 200 "text/html" (ErrorHTML message) w in
  let w2 := cleanup w1 in
  call_rejectCallback message w2.

(** What follows [await exchangeCodeForTokens(authCode)]: the [try] body
    on success, the [catch] block otherwise. *)
Definition handleCallback_resume (r : result OAuthTokens) (w : World) : World :=
  match r with
  | Ok tokens =>
      let w1 := respond 200 "text/html" SuccessHTML w in
      let w2 := cleanup w1 in
      call_resolveCallback tokens w2
  | Throw message => fail_callback message w
  end.

Definition csrf_message : string := "Invalid state parameter - possible CSRF attack".
Definition missing_code_message : string := "Missing authorization code".

Definition handleCallback (fetch : Fetch) (now : Z) (q : Query) (w : World) : World :=
  let code := q_code q in
  let state_ := q_state q in
  let error := q_error q in
  let errorDescription := q_error_description q in
  if truthy error then
    let message := or_else errorDescription (text error) in
    fail_callback message w
  else if negb (truthy state_) || differs state_ (state (oauthState w)) then
    fail_callback csrf_message w
  else if negb (truthy code) then
    fail_callback missing_code_message w
  else
    let authCode :=
      if includes "#"%char (text code) then split_head "#"%char (text code)
      else text code in
    let (w1, r) := exchangeCodeForTokens fetch now authCode w in
    handleCallback_resume r w1.

(** *** The request listener of [createOAuthServer] *)

(** What [new URL(req.url || "/", base)] makes of the request target. *)
Record HttpRequest := { pathname : string; query : Query }.

(** The listener parses the target first, outside any [try]: for a target
    that is no URL (as [//]) [new URL] throws, the listener's promise is
    rejected, and the request gets no answer. *)
Definition handleRequest (fetch : Fetch) (now : Z) (url : result HttpRequest) (w : World)
  : World :=
  match url with
  | Throw _ => w
  | Ok req =>
      if String.eqb (pathname req) "/callback" then handleCallback fetch now (query req) w
      else if String.eqb (pathname req) "/health" then
        respond 200 "application/json" HealthJSON w
      else respond 404 "text/plain" NotFoundText w
  end.

(** *** Starting, cancelling, timing out *)

Definition authorization_url (port : Z) (state : string) (k : PKCEChallenge)
  : string * list (string * string) :=
  (OAUTH_ENDPOINTS_authorization,
   [ ("client_id", OAUTH_CLIENT_ID);
     ("response_type", "code");
     ("redirect_uri", redirect_uri port);
     ("scope", OAUTH_SCOPES);
     ("state", state);
     ("code_challenge", challenge k);
     ("code_challenge_method", "S256") ]).

Definition port_bound (port : Z) (w : World) : bool :=
  existsb (fun e => snd e =? port) (listening w).

(** [server.listen(port, "127.0.0.1")]: binds unless the port is held, in
    which case the server will emit [error]. *)
Definition server_listen (srv : nat) (port : Z) (w : World) : World :=
  if port_bound port w then w else listen srv port w.

(** [startOAuthFlow] up to its first suspension: [cleanup()], then the
    promise executor runs until it awaits [findAvailablePort]. *)
Definition startOAuthFlow_begin (w : World) : World := cleanup w.

(** The executor of flow [f] once its port search has ended. [net] is what
    its probes met, [randomVerifier] and [randomState] are the two
    [crypto.randomBytes(32)], [opened] is what [shell.openExternal] ends
    in. [resolve] and [reject] are those of promise [f]. *)
Definition startOAuthFlow_resume (f : nat) (net : Loopback)
    (randomVerifier randomState : list Z) (opened : result unit)
    (w : World) : World :=
  match findAvailablePort net portRange_min portRange_max with
  | Throw e => settle f (Rejected e) (cleanup w)
  | Ok port_ =>
      let pkce_ := generatePKCE randomVerifier in
      let state_ := Base64.base64url randomState in
      let w1 :=
        set_oauthState
          {| server := Some f; port := Some port_; pkce := Some pkce_;
             state := Some state_; resolveCallback := Some f;
             rejectCallback := Some f; timeoutId := None |} w in
      let w2 := server_listen f port_ w1 in
      let w3 := setTimeout f w2 in
      let w4 :=
        set_oauthState
          {| server := server (oauthState w3); port := port (oauthState w3);
             pkce := pkce (oauthState w3); state := state (oauthState w3);
             resolveCallback := resolveCallback (oauthState w3);
             rejectCallback := rejectCallback (oauthState w3);
             timeoutId := Some f |} w3 in
      let w5 := set_browser (browser w4 ++ [authorization_url port_ state_ pkce_]) w4 in
      match opened with
      | Ok _ => w5
      | Throw e => settle f (Rejected e) (cleanup w5)
      end
  end.

(** A call of [startOAuthFlow] during which nothing else runs. *)
Definition startOAuthFlow (f : nat) (net : Loopback)
    (randomVerifier randomState : list Z) (opened : result unit)
    (w : World) : World :=
  startOAuthFlow_resume f net randomVerifier randomState opened
    (startOAuthFlow_begin w).

(** [server.on("error", ..)] of flow [f]. *)
Definition on_server_error (f : nat) (message : string) (w : World) : World :=
  settle f (Rejected ("Failed to start OAuth server: " ++ message)) (cleanup w).

(** The [setTimeout] callback of flow [f]. *)
Definition on_timeout (f : nat) (w : World) : World :=
  settle f (Rejected "OAuth flow timed out after 5 minutes") (cleanup w).

Definition cancelOAuthFlow (w : World) : World :=
  let w1 :=
    match rejectCallback (oauthState w) with
    | Some p => settle p (Rejected "OAuth flow cancelled") w
    | None => w
    end in
  cleanup w1.

Definition isOAuthFlowInProgress (w : World) : bool :=
  match server (oauthState w) with
  | Some _ => true
  | None => false
  end.

(** *** The event loop *)

Definition is_listening (srv : nat) (w : World) : bool :=
  existsb (fun e => Nat.eqb (fst e) srv) (listening w).

Definition armed (t : nat) (w : World) : bool :=
  existsb (Nat.eqb t) (timers w).

(** What the event loop can run next. A request reaches a server only
    while it is bound, a timer fires only while it is armed. *)
Inductive Event :=
| StartCalled
| PortSearchDone (f : nat) (net : Loopback) (randomVerifier randomState : list Z)
    (opened : result unit)
| RequestArrives (srv : nat) (fetch : Fetch) (now : Z) (url : result HttpRequest)
| ServerErrors (f : nat) (message : string)
| TimerFires (f : nat)
| CancelCalled.

Definition step (w : World) (e : Event) : World :=
  match e with
  | StartCalled => startOAuthFlow_begin w
  | PortSearchDone f net rv rs opened => startOAuthFlow_resume f net rv rs opened w
  | RequestArrives srv fetch now url =>
      if is_listening srv w then handleRequest fetch now url w else w
  | ServerErrors f message => on_server_error f message w
  | TimerFires f =>
      if armed f w then on_timeout f (clearTimeout f w) else w
  | CancelCalled => cancelOAuthFlow w
  end.

Definition run (es : list Event) (w : World) : World := fold_left step es w.

(** The page of the CSRF branch. *)
Definition csrf_page : Reply :=
  {| status := 200; contentType := "text/html"; page := ErrorHTML csrf_message |}.

End OAuthServer.

(** *** Runs and their invariant *)

Module Schedule.
Import OAuthUtils OAuthServer.

(** Every bound callback server is the one [oauthState] points to, and there
    is at most one. *)
Definition owned (w : World) : Prop :=
  match listening w with
  | [] => True
  | [(srv, _)] => server (oauthState w) = Some srv
  | _ => False
  end.

Definition quiet (w : World) : Prop := listening w = [] /\ oauthState w = idle.

(** A session that has a CSRF state also has its PKCE pair and a port of
    the configured range. *)
Definition coherent (w : World) : Prop :=
  match state (oauthState w) with
  | None => True
  | Some _ =>
      exists k p, pkce (oauthState w) = Some k
                  /\ port (oauthState w) = Some p
                  /\ portRange_min <= p <= portRange_max
  end.

(** The turns of a run in which no start overlaps anything else. *)
Inductive Turn :=
| WholeStart (f : nat) (net : Loopback) (randomVerifier randomState : list Z)
    (opened : result unit)
| Other (e : Event).

Definition plain (e : Event) : bool :=
  match e with
  | StartCalled => false
  | PortSearchDone _ _ _ _ _ => false
  | _ => true
  end.

Definition events_of (t : Turn) : list Event :=
  match t with
  | WholeStart f net rv rs opened => [StartCalled; PortSearchDone f net rv rs opened]
  | Other e => if plain e then [e] else []
  end.

End Schedule.

(* ===================================================================== *)
(** ** claude-token.ts: credentials already on the machine                *)
(* ===================================================================== *)

(** White space and line terminators of ECMAScript, which [trim()]
    strips. *)
Definition js_space (c : Z) : bool :=
  ((9 <=? c) && (c <=? 13)) || (c =? 0x20) || (c =? 0xA0) || (c =? 0x1680)
  || ((0x2000 <=? c) && (c <=? 0x200A)) || (c =? 0x2028) || (c =? 0x2029)
  || (c =? 0x202F) || (c =? 0x205F) || (c =? 0x3000) || (c =? 0xFEFF).

Fixpoint js_trim_start (s : Utf8.jsstring) : Utf8.jsstring :=
  match s with
  | [] => []
  | c :: r => if js_space c then js_trim_start r else s
  end.

(** [s.trim()] *)
Definition js_trim (s : Utf8.jsstring) : Utf8.jsstring :=
  rev (js_trim_start (rev (js_trim_start s))).

(** The double quote, for command lines that contain one. *)
Definition dq : string := String (ascii_of_N 34) EmptyString.

#[local] Set Warnings "-register-all".

Module ClaudeToken.

(** A value produced by [JSON.parse]. *)
Inductive json :=
| JNull
| JBool (b : bool)
| JNumber (n : Z)
| JString (s : string)
| JArray (l : list json)
| JObject (fields : list (string * json)).

(** The result of reading a property: [None] is [undefined]. *)
Definition json_truthy (v : option json) : bool :=
  match v with
  | None => false
  | Some JNull => false
  | Some (JBool b) => b
  | Some (JNumber n) => negb (n =? 0)
  | Some (JString s) => negb (String.eqb s EmptyString)
  | Some (JArray _) => true
  | Some (JObject _) => true
  end.

(** [v.name]: a TypeError on [null] and [undefined], [undefined] on a
    value without that property. *)
Definition get_prop (v : option json) (name : string) : result (option json) :=
  match v with
  | None => Throw "Cannot read properties of undefined"
  | Some JNull => Throw "Cannot read properties of null"
  | Some (JObject fields) => Ok (get_field name fields)
  | Some _ => Ok None
  end.

Record ClaudeOAuthCredential := {
  accessToken : option json;
  refreshToken : option json;
  expiresAt : option json;
  scopes : option json
}.

(** The machine the process runs on. [execSync] gives the output of a
    command as text and throws when the command fails, [readFileSync]
    throws on an I/O error, [JSON_parse] on malformed text and
    [os.homedir()] when the home directory cannot be determined;
    [existsSync] and [path.join] never throw. *)
Record System := {
  platform : string;
  execSync : string -> result Utf8.jsstring;
  homedir : result string;
  path_join : list string -> string;
  existsSync : string -> bool;
  readFileSync : string -> result Utf8.jsstring;
  JSON_parse : Utf8.jsstring -> result json
}.

(** The statements every reader shares:
    [const credentials = JSON.parse(text);
     if (credentials.claudeAiOauth) return { accessToken: .., .. }].
    [Ok (Some c)] is that [return]; [Ok None] falls through. *)
Definition parse_credentials (sys : System) (text : Utf8.jsstring)
  : result (option ClaudeOAuthCredential) :=
  credentials <- JSON_parse sys text ;;
  oauth <- get_prop (Some credentials) "claudeAiOauth" ;;
  if json_truthy oauth then
    a <- get_prop oauth "accessToken" ;;
    r <- get_prop oauth "refreshToken" ;;
    e <- get_prop oauth "expiresAt" ;;
    sc <- get_prop oauth "scopes" ;;
    Ok (Some {| accessToken := a; refreshToken := r; expiresAt := e; scopes := sc |})
  else Ok None.

(** [execSync(command, ..).trim()], then the parse when it is non-empty. *)
Definition query_secret (sys : System) (command : string)
  : result (option ClaudeOAuthCredential) :=
  out <- execSync sys command ;;
  let result := js_trim out in
  match result with
  | _ :: _ => parse_credentials sys result
  | [] => Ok None
  end.

(** [join(homedir(), '.claude', '.credentials.json')] *)
Definition credentialsPath (sys : System) : result string :=
  home <- homedir sys ;;
  Ok (path_join sys [home; ".claude"; ".credentials.json"]).

Definition read_file (sys : System) (path : string)
  : result (option ClaudeOAuthCredential) :=
  if existsSync sys path then
    content <- readFileSync sys path ;;
    parse_credentials sys content
  else Ok None.

Definition swallow {A : Type} (_ : string) : result (option A) := Ok None.

Definition readFromMacOSKeychain (sys : System) : result (option ClaudeOAuthCredential) :=
  try_catch
    (query_secret sys
       ("security find-generic-password -s " ++ dq ++ "Claude Code-credentials" ++ dq ++ " -w"))
    swallow.

(** The path is computed inside the [try]. *)
Definition readFromWindowsCredentialManager (sys : System)
  : result (option ClaudeOAuthCredential) :=
  try_catch
    (path <- credentialsPath sys ;;
     read_file sys path)
    swallow.

Definition readFromLinuxSecretService (sys : System)
  : result (option ClaudeOAuthCredential) :=
  first <- try_catch
    (query_secret sys
       ("secret-tool lookup service " ++ dq ++ "Claude Code" ++ dq ++ " account "
          ++ dq ++ "credentials" ++ dq ++ " 2>/dev/null"))
    swallow ;;
  match first with
  | Some c => Ok (Some c)
  | None =>
      try_catch (query_secret sys "pass show claude-code/credentials 2>/dev/null") swallow
  end.

(** The path is computed before the [try]: what [homedir()] throws is not
    caught here. *)
Definition readFromCredentialsFile (sys : System) : result (option ClaudeOAuthCredential) :=
  path <- credentialsPath sys ;;
  try_catch (read_file sys path) swallow.

Definition readFromKeychain (sys : System) : result (option ClaudeOAuthCredential) :=
  if String.eqb (platform sys) "darwin" then readFromMacOSKeychain sys
  else if String.eqb (platform sys) "win32" then readFromWindowsCredentialManager sys
  else if String.eqb (platform sys) "linux" then readFromLinuxSecretService sys
  else Ok None.

Definition getExistingClaudeCredentials (sys : System)
  : result (option ClaudeOAuthCredential) :=
  keychainCreds <- readFromKeychain sys ;;
  match keychainCreds with
  | Some c => Ok (Some c)
  | None => readFromCredentialsFile sys
  end.

End ClaudeToken.

(* ===================================================================== *)
(** ** trpc/routers/claude-code.ts: the encrypted credential store        *)
(* ===================================================================== *)

Module ClaudeCode.
Import Utf8.

(** Electron's [safeStorage]. Both string operations throw on failure. *)
Record SafeStorage := {
  isEncryptionAvailable : bool;
  encryptString : jsstring -> result (list Z);
  decryptString : list Z -> result jsstring
}.

Definition encryptToken (ss : SafeStorage) (token : jsstring) : result string :=
  if negb (isEncryptionAvailable ss) then
    Ok (Base64.base64 (Utf8.encode token))
  else
    buffer <- encryptString ss token ;;
    Ok (Base64.base64 buffer).

Definition decryptToken (ss : SafeStorage) (encrypted : string) : result jsstring :=
  if negb (isEncryptionAvailable ss) then
    Ok (Utf8.decode (Base64.decode encrypted))
  else
    let buffer := Base64.decode encrypted in
    decryptString ss buffer.

(** A row of [claudeCodeCredentials]. *)
Record Credential := {
  id : string;
  oauthToken : string;
  connectedAt : Z;
  userId : option string
}.

Definition Table : Type := list Credential.

(** [db.delete(t).where(eq(t.id, key)).run()] *)
Definition db_delete (key : string) (t : Table) : Table :=
  filter (fun r => negb (String.eqb (id r) key)) t.

(** [db.insert(t).values(row).run()] *)
Definition db_insert (row : Credential) (t : Table) : Table :=
  (t ++ [row])%list.

(** [db.select().from(t).where(eq(t.id, key)).get()] *)
Definition db_get (key : string) (t : Table) : option Credential :=
  find (fun r => String.eqb (id r) key) t.

Definition storeOAuthToken (ss : SafeStorage) (now : Z) (oauthToken_ : jsstring)
    (db : Table) : result Table :=
  encryptedToken <- encryptToken ss oauthToken_ ;;
  let db1 := db_delete "default" db in
  Ok (db_insert {| id := "default"; oauthToken := encryptedToken;
                   connectedAt := now; userId := None |} db1).

Record TokenReply := { token : option jsstring; error : option string }.

Definition getToken (ss : SafeStorage) (db : Table) : TokenReply :=
  match db_get "default" db with
  | None => {| token := None; error := Some "Not connected" |}
  | Some cred =>
      if String.eqb (oauthToken cred) EmptyString then
        {| token := None; error := Some "Not connected" |}
      else
        match decryptToken ss (oauthToken cred) with
        | Ok t => {| token := Some t; error := None |}
        | Throw _ => {| token := None; error := Some "Failed to decrypt token" |}
        end
  end.

Definition disconnect (db : Table) : Table := db_delete "default" db.

(** [startLocalAuth] up to the first suspension of [startOAuthFlow]. *)
Definition startLocalAuth_begin (w : OAuthServer.World) : result OAuthServer.World :=
  if OAuthServer.isOAuthFlowInProgress w then Throw "OAuth flow already in progress"
  else Ok (OAuthServer.startOAuthFlow_begin w).

End ClaudeCode.

(* ===================================================================== *)
(** ** Sample runs                                                        *)
(* ===================================================================== *)

Module Scenario.
Import OAuthUtils OAuthServer.

Definition all_free : Loopback := fun _ => Listening.

Definition busy_21300 : Loopback :=
  fun port => if port =? 21300 then ListenError else Listening.

Definition random_a : list Z := zrange 0 32.
Definition random_b : list Z := zrange 100 32.

(** One flow, started on an idle process and now waiting for its redirect. *)
Definition awaiting : World :=
  startOAuthFlow 0 all_free random_a random_b (Ok tt) initial.

Definition session_state : string := "ZGVmZ2hpamtsbW5vcHFyc3R1dnd4eXp7fH1-f4CBgoM".

Definition token_endpoint_up : Fetch :=
  fun _ =>
    Ok {| resp_ok := true; resp_status := 200; resp_text := "{..}";
          resp_json := Ok {| access_token := "sk-ant-oat01"; refresh_token := Some "rt";
                             expires_in := Some 3600; token_type := Some "Bearer" |} |}.

Definition token_endpoint_down : Fetch := fun _ => Throw "fetch failed".

Definition redirect (code state_ error : option string) : Query :=
  {| q_code := code; q_state := state_; q_error := error; q_error_description := None |}.

End Scenario.

Module StoreScenario.
Import Utf8 ClaudeCode.

(** A machine without secure storage. *)
Definition no_safeStorage : SafeStorage :=
  {| isEncryptionAvailable := false;
     encryptString := fun _ => Throw "Error while encrypting the text provided to safeStorage.encryptString.";
     decryptString := fun _ => Throw "Error while decrypting the ciphertext provided to safeStorage.decryptString." |}.

(** A stand-in for a machine with secure storage: a version tag followed by
    the masked UTF-8 bytes. *)
Definition tag : list Z := [118; 49; 48].

Definition masked_safeStorage : SafeStorage :=
  {| isEncryptionAvailable := true;
     encryptString := fun s => Ok (tag ++ map (Z.lxor 90) (Utf8.encode s))%list;
     decryptString := fun buf =>
       match buf with
       | 118 :: 49 :: 48 :: r => Ok (Utf8.decode (map (Z.lxor 90) r))
       | _ => Throw "Error while decrypting the ciphertext provided to safeStorage.decryptString."
       end |}.

(** The code points of "sk-ant-oat01". *)
Definition sample_token : jsstring :=
  [115; 107; 45; 97; 110; 116; 45; 111; 97; 116; 48; 49].

Definition old_row : Credential :=
  {| id := "default"; oauthToken := "b2xk"; connectedAt := 5; userId := None |}.

End StoreScenario.

(* ===================================================================== *)
(** ** oauth-server.ts: the pages                                         *)
(* ===================================================================== *)

Module Pages.

(** [map[m]] for the five characters the pattern matches (ampersand, less
    than, greater than, double quote, apostrophe); any other character
    stays. *)
Definition escape_char (c : ascii) : string :=
  if Ascii.eqb c "&"%char then "&amp;"
  else if Ascii.eqb c "<"%char then "&lt;"
  else if Ascii.eqb c ">"%char then "&gt;"
  else if Ascii.eqb c (ascii_of_N 34) then "&quot;"
  else if Ascii.eqb c "'"%char then "&#039;"
  else String c EmptyString.

Fixpoint escapeHtml (text : string) : string :=
  match text with
  | EmptyString => EmptyString
  | String c r => escape_char c ++ escapeHtml r
  end.

(** The template of [getErrorHTML] before and after the interpolated
    message. *)
Definition error_head : string :=
  "<!DOCTYPE html>
<html>
<head>
  <meta charset=" ++ dq ++
  "UTF-8" ++ dq ++
  ">
  <title>ii - Authentication Error</title>
  <style>
    * { margin: 0; padding: 0; box-sizing: border-box; }
    :root { --bg: #09090b; --text: #fafafa; --text-muted: #71717a; --error: #ef4444; }
    @media (prefers-color-scheme: light) {
      :root { --bg: #ffffff; --text: #09090b; --text-muted: #71717a; }
    }
    body {
      font-family: -apple-system, BlinkMacSystemFont, 'Segoe UI', Roboto, sans-serif;
      display: flex; flex-direction: column; align-items: center; justify-content: center;
      min-height: 100vh; background: var(--bg); color: var(--text);
    }
    .container { display: flex; flex-direction: column; align-items: center; gap: 8px; max-width: 400px; text-align: center; }
    h1 { font-size: 18px; font-weight: 600; color: var(--error); }
    p { font-size: 14px; color: var(--text-muted); }
  </style>
</head>
<body>
  <div class=" ++ dq ++
  "container" ++ dq ++
  ">
    <h1>Authentication Failed</h1>
    <p>".

Definition error_tail : string :=
  "</p>
    <p style=" ++ dq ++
  "margin-top: 8px;" ++ dq ++
  ">Please close this tab and try again in the app.</p>
  </div>
</body>
</html>".

Definition getErrorHTML (message : string) : string :=
  error_head ++ escapeHtml message ++ error_tail.

(** How often [c] occurs in [s]. *)
Fixpoint occurrences (c : ascii) (s : string) : nat :=
  match s with
  | EmptyString => O
  | String a r => (if Ascii.eqb a c then 1 else 0) + occurrences c r
  end.

(** The characters that open or close a tag or an attribute value. *)
Definition markup (c : ascii) : bool :=
  Ascii.eqb c "<"%char || Ascii.eqb c ">"%char
  || Ascii.eqb c (ascii_of_N 34) || Ascii.eqb c "'"%char.

Fixpoint starts_with (prefix s : string) : bool :=
  match prefix, s with
  | EmptyString, _ => true
  | String a p, String b r => Ascii.eqb a b && starts_with p r
  | String _ _, EmptyString => false
  end.

Definition entity_here (s : string) : bool :=
  starts_with "&amp;" s || starts_with "&lt;" s || starts_with "&gt;" s
  || starts_with "&quot;" s || starts_with "&#039;" s.

(** Text that is safe inside an element or an attribute value: no markup
    character, and every ampersand opens one of the five entities. *)
Fixpoint inert (s : string) : bool :=
  match s with
  | EmptyString => true
  | String c r =>
      negb (markup c)
      && (if Ascii.eqb c "&"%char then entity_here s else true)
      && inert r
  end.

(** The five characters [escapeHtml] rewrites. *)
Definition special (c : ascii) : bool := markup c || Ascii.eqb c "&"%char.

Fixpoint plain_text (s : string) : bool :=
  match s with
  | EmptyString => true
  | String c r => negb (special c) && plain_text r
  end.

End Pages.

(* ===================================================================== *)
(** ** oauth-server.ts: the shape of the session record                   *)
(* ===================================================================== *)

Module Session.
Import OAuthUtils OAuthServer.

(** The record of a flow that waits for its redirect. *)
Definition waiting (f : nat) (p : Z) (k : PKCEChallenge) (s : string) : OAuthState :=
  {| server := Some f; port := Some p; pkce := Some k; state := Some s;
     resolveCallback := Some f; rejectCallback := Some f; timeoutId := Some f |}.

(** Either no field of [oauthState] is set, or all of them are, for one and
    the same flow and with a port of the configured range. *)
Definition all_or_nothing (w : World) : Prop :=
  oauthState w = idle
  \/ exists f p k s, oauthState w = waiting f p k s
                     /\ portRange_min <= p <= portRange_max.

(** The code as the handler passes it on: cut at its first number sign. *)
Definition authCode_of (c : string) : string :=
  if includes "#"%char c then split_head "#"%char c else c.

(** [sent] is [c] cut at its first [sep]: it has no [sep] in it, and [c]
    is [sent] alone or [sent] followed by a [sep] and a rest. *)
Definition cut_at (sep : ascii) (c sent : string) : Prop :=
  Pages.occurrences sep sent = 0%nat
  /\ (c = sent \/ exists rest, c = sent ++ String sep rest).

Definition html (pg : Page) : Reply :=
  {| status := 200; contentType := "text/html"; page := pg |}.

(** A request for a path other than [/callback]. *)
Definition elsewhere (e : Event) : bool :=
  match e with
  | RequestArrives _ _ _ (Ok req) => negb (String.eqb (pathname req) "/callback")
  | RequestArrives _ _ _ (Throw _) => true
  | _ => false
  end.

(** What a bound listener answers to a request for another path: the
    health JSON on [/health], 404 on any other path, nothing when the
    target is no URL. *)
Definition answer (url : result HttpRequest) : list Reply :=
  match url with
  | Throw _ => []
  | Ok req =>
      if String.eqb (pathname req) "/health" then
        [{| status := 200; contentType := "application/json"; page := HealthJSON |}]
      else [{| status := 404; contentType := "text/plain"; page := NotFoundText |}]
  end.

(** The answers to a sequence of requests, in order, given which servers
    are bound in [w]; a request to a server that is not bound reaches
    nothing. *)
Definition answers (w : World) (es : list Event) : list Reply :=
  flat_map (fun e =>
              match e with
              | RequestArrives srv _ _ url => if is_listening srv w then answer url else []
              | _ => []
              end) es.

End Session.

(* ===================================================================== *)
(** ** claude-token.ts: the token, the search path, the CLI set-up        *)
(* ===================================================================== *)

(** [s.split(sep)] and [l.join(sep)] for a one-character separator. *)
Fixpoint split (sep : ascii) (s : string) : list string :=
  match s with
  | EmptyString => [EmptyString]
  | String c r =>
      if Ascii.eqb c sep then EmptyString :: split sep r
      else match split sep r with
           | h :: t => String c h :: t
           | [] => [String c EmptyString]
           end
  end.

Fixpoint join (sep : ascii) (l : list string) : string :=
  match l with
  | [] => EmptyString
  | [x] => x
  | x :: r => x ++ String sep (join sep r)
  end.

Module ClaudeCli.
Import ClaudeToken.

(** [creds?.accessToken || null] *)
Definition getExistingClaudeToken (sys : System) : result (option json) :=
  creds <- getExistingClaudeCredentials sys ;;
  match creds with
  | Some c => if json_truthy (accessToken c) then Ok (accessToken c) else Ok None
  | None => Ok None
  end.

(** *** The order of the look-ups, said in one place *)

Definition security_command : string :=
  "security find-generic-password -s " ++ dq ++ "Claude Code-credentials" ++ dq ++ " -w".

Definition secret_tool_command : string :=
  "secret-tool lookup service " ++ dq ++ "Claude Code" ++ dq ++ " account "
    ++ dq ++ "credentials" ++ dq ++ " 2>/dev/null".

Definition pass_command : string := "pass show claude-code/credentials 2>/dev/null".

(** The credential a parsed text holds: the four fields of its
    [claudeAiOauth] member, provided the text is an object and that member
    is neither absent nor [null], [false], 0 or the empty string. A member
    that is no object has none of the four fields. *)
Definition no_fields : ClaudeOAuthCredential :=
  {| accessToken := None; refreshToken := None; expiresAt := None; scopes := None |}.

Definition credential_of (v : json) : option ClaudeOAuthCredential :=
  match v with
  | JObject fields =>
      match get_field "claudeAiOauth" fields with
      | Some (JObject o) =>
          Some {| accessToken := get_field "accessToken" o;
                  refreshToken := get_field "refreshToken" o;
                  expiresAt := get_field "expiresAt" o;
                  scopes := get_field "scopes" o |}
      | Some (JArray _) | Some (JBool true) => Some no_fields
      | Some (JNumber n) => if n =? 0 then None else Some no_fields
      | Some (JString t) => if String.eqb t EmptyString then None else Some no_fields
      | Some JNull | Some (JBool false) | None => None
      end
  | _ => None
  end.

(** What a text holds; text that is not JSON holds nothing. *)
Definition stored_in (sys : System) (text : Utf8.jsstring) : option ClaudeOAuthCredential :=
  match JSON_parse sys text with
  | Ok v => credential_of v
  | Throw _ => None
  end.

(** What a secret store holds: what the output of its command holds once
    trimmed; nothing when the command fails or prints only white space. *)
Definition keyring_entry (sys : System) (command : string) : option ClaudeOAuthCredential :=
  match execSync sys command with
  | Ok out =>
      match js_trim out with
      | [] => None
      | c :: r => stored_in sys (c :: r)
      end
  | Throw _ => None
  end.

(** What a file holds; nothing when it does not exist or cannot be read. *)
Definition file_entry (sys : System) (path : string) : option ClaudeOAuthCredential :=
  if existsSync sys path then
    match readFileSync sys path with
    | Ok content => stored_in sys content
    | Throw _ => None
    end
  else None.

Definition credentials_file (sys : System) (home : string) : string :=
  path_join sys [home; ".claude"; ".credentials.json"].

(** The places the platform's own reader asks, in order. On Windows that
    is the credentials file, which yields nothing when the home directory
    cannot be determined. *)
Definition keychain_places (sys : System) : list (option ClaudeOAuthCredential) :=
  if String.eqb (platform sys) "darwin" then [keyring_entry sys security_command]
  else if String.eqb (platform sys) "win32" then
    [match homedir sys with
     | Ok home => file_entry sys (credentials_file sys home)
     | Throw _ => None
     end]
  else if String.eqb (platform sys) "linux" then
    [keyring_entry sys secret_tool_command; keyring_entry sys pass_command]
  else [].

(** The first place that yields a credential decides. *)
Fixpoint first_found (l : list (option ClaudeOAuthCredential))
  : option ClaudeOAuthCredential :=
  match l with
  | [] => None
  | Some c :: _ => Some c
  | None :: r => first_found r
  end.

(** The whole look-up: the platform's places, then the credentials file
    under the home directory; only the failure to determine that directory
    is not passed over. *)
Definition lookup (sys : System) : result (option ClaudeOAuthCredential) :=
  match first_found (keychain_places sys) with
  | Some c => Ok (Some c)
  | None =>
      match homedir sys with
      | Ok home => Ok (file_entry sys (credentials_file sys home))
      | Throw e => Throw e
      end
  end.

(** [home] is [homedir()], [envPATH] is [process.env.PATH]. *)
Definition getExtendedPath (home : string) (envPATH : option string) : string :=
  let extendedPaths :=
    filter (fun p => negb (String.eqb p EmptyString))
      [ "/opt/homebrew/bin";
        "/usr/local/bin";
        home ++ "/.local/bin";
        home ++ "/.bun/bin";
        home ++ "/.cargo/bin";
        "/opt/local/bin";
        home ++ "/.nvm/versions/node/*/bin" ] in
  let currentPath := or_else envPATH EmptyString in
  join ":"%char (extendedPaths ++ split ":"%char currentPath).

(** *** [runClaudeSetupToken]: the promise and the polling interval *)

Record SetupResult := {
  success : bool;
  token : option string;
  error : option string
}.

(** [attempts] and the interval are the closure's variables; [resolved] is
    what the promise was resolved with, if it was; [statuses] lists the
    calls of [onStatus]. *)
Record Setup := {
  attempts : nat;
  polling : bool;
  resolved : option SetupResult;
  statuses : list string
}.

Definition maxAttempts : nat := 60.

Definition timed_out_message : string :=
  "Authentication timed out. Please run " ++ dq ++ "claude setup-token" ++ dq
    ++ " in your terminal manually.".

(** The state once the executor has run: both status lines sent, the
    terminal spawned, the interval set. *)
Definition started : Setup :=
  {| attempts := 0; polling := true; resolved := None;
     statuses := [ "Opening terminal for authentication...";
                   "Waiting for authentication to complete..." ] |}.

(** [resolve(r)]: only the first call counts. *)
Definition resolve (r : SetupResult) (s : Setup) : Setup :=
  match resolved s with
  | Some _ => s
  | None => {| attempts := attempts s; polling := polling s; resolved := Some r;
               statuses := statuses s |}
  end.

(** [child.on('error', ..)] *)
Definition on_child_error (message : string) (s : Setup) : Setup :=
  resolve {| success := false; token := None;
             error := Some ("Failed to open terminal: " ++ message) |} s.

(** One run of the interval callback; [found] is what
    [getExistingClaudeToken()] returns at that moment. A cleared interval
    runs no more. *)
Definition on_interval (found : option string) (s : Setup) : Setup :=
  if negb (polling s) then s
  else
    let n := S (attempts s) in
    if truthy found then
      resolve {| success := true; token := found; error := None |}
        {| attempts := n; polling := false; resolved := resolved s;
           statuses := (statuses s ++ ["Authentication complete!"])%list |}
    else if Nat.leb maxAttempts n then
      resolve {| success := false; token := None; error := Some timed_out_message |}
        {| attempts := n; polling := false; resolved := resolved s;
           statuses := statuses s |}
    else
      {| attempts := n; polling := polling s; resolved := resolved s;
         statuses := statuses s |}.

Inductive SetupEvent :=
| IntervalFires (found : option string)
| ChildErrors (message : string).

Definition setup_step (s : Setup) (e : SetupEvent) : Setup :=
  match e with
  | IntervalFires found => on_interval found s
  | ChildErrors message => on_child_error message s
  end.

Definition setup_run (es : list SetupEvent) (s : Setup) : Setup :=
  fold_left setup_step es s.

(** The first token seen within the [n] first observations. *)
Fixpoint first_token (n : nat) (obs : list (option string)) : option string :=
  match n, obs with
  | S m, o :: r => if truthy o then o else first_token m r
  | _, _ => None
  end.

(** The two results the polling can give. *)
Definition succeeded (t : string) : SetupResult :=
  {| success := true; token := Some t; error := None |}.

Definition timed_out : SetupResult :=
  {| success := false; token := None; error := Some timed_out_message |}.

Definition ticks (obs : list (option string)) : list SetupEvent := map IntervalFires obs.


End ClaudeCli.

(* ===================================================================== *)
(** ** trpc/routers/claude-code.ts: the other procedures                  *)
(* ===================================================================== *)

Module Router.
Import Utf8 ClaudeCode.

Record Integration := { isConnected : bool; connectedSince : option Z }.

(** [connectedSince] is [cred.connectedAt], the date before
    [toISOString()]. *)
Definition getIntegration (db : Table) : Integration :=
  match db_get "default" db with
  | Some cred =>
      {| isConnected := negb (String.eqb (oauthToken cred) EmptyString);
         connectedSince := Some (connectedAt cred) |}
  | None => {| isConnected := false; connectedSince := None |}
  end.

(** [importToken]: the input passes [z.string().min(1)] or the procedure
    fails before its body runs; the body trims and stores. *)
Definition importToken (ss : SafeStorage) (now : Z) (input : jsstring) (db : Table)
  : result Table :=
  match input with
  | [] => Throw "String must contain at least 1 character(s)"
  | _ :: _ =>
      let oauthToken_ := js_trim input in
      storeOAuthToken ss now oauthToken_ db
  end.

(** The row the router works on. *)
Definition is_default (r : Credential) : bool := String.eqb (id r) "default".

(** The answer of [getToken] when nothing is stored. *)
Definition not_connected : TokenReply :=
  {| token := None; error := Some "Not connected" |}.

End Router.

(* ===================================================================== *)
(** ** More sample data                                                   *)
(* ===================================================================== *)

Module Fixtures.

(** A machine on which no port of the range binds. *)
Definition all_busy : OAuthServer.Loopback := fun _ => OAuthServer.ListenError.

(** A token endpoint that refuses the grant. *)
Definition token_endpoint_refuses : OAuthUtils.Fetch :=
  fun _ =>
    Ok {| OAuthUtils.resp_ok := false; OAuthUtils.resp_status := 400;
          OAuthUtils.resp_text := "{error: invalid_grant}";
          OAuthUtils.resp_json := Throw "not read" |}.

(** A Linux machine without secret store and on which the home directory
    cannot be determined (no [HOME], no entry for the user). *)
Definition homeless : ClaudeToken.System :=
  {| ClaudeToken.platform := "linux";
     ClaudeToken.execSync := fun _ => Throw "Command failed";
     ClaudeToken.homedir :=
       Throw "A system error occurred: uv_os_homedir returned ENOENT (no such file or directory)";
     ClaudeToken.path_join := fun _ => EmptyString;
     ClaudeToken.existsSync := fun _ => false;
     ClaudeToken.readFileSync := fun _ => Throw "ENOENT";
     ClaudeToken.JSON_parse := fun _ => Throw "Unexpected end of JSON input" |}.

End Fixtures.

(* ===================================================================== *)
(** * Properties                                                          *)
(* ===================================================================== *)

(** ** Runtime primitives: test vectors, base64 and UTF-8 round trips     *)

Example sha256_abc :
  Sha256.hex (Sha256.sha256 (ascii_bytes "abc"))
  = "ba7816bf8f01cfea414140de5dae2223b00361a396177a9cb410ff61f20015ad".
Proof. vm_compute. reflexivity. Qed.

Example sha256_empty :
  Sha256.hex (Sha256.sha256 [])
  = "e3b0c44298fc1c149afbf4c8996fb92427ae41e4649b934ca495991b7852b855".
Proof. vm_compute. reflexivity. Qed.

Example sha256_two_blocks :
  Sha256.hex (Sha256.sha256
    (ascii_bytes "abcdbcdecdefdefgefghfghighijhijkijkljklmklmnlmnomnopnopq"))
  = "248d6a61d20638b8e5c026930c3e6039a33ce45964ff2167f6ecedd419db06c1".
Proof. vm_compute. reflexivity. Qed.

Example base64_samples :
  Base64.base64 (ascii_bytes "hello") = "aGVsbG8="
  /\ Base64.base64url (ascii_bytes "hello!?") = "aGVsbG8hPw"
  /\ Base64.base64 (ascii_bytes "any carnal pleas") = "YW55IGNhcm5hbCBwbGVhcw=="
  /\ Base64.decode "aGVsbG8hPw==" = ascii_bytes "hello!?".
Proof. vm_compute. auto. Qed.

Example utf8_samples :
  Utf8.encode [0x41; 0xE9; 0x20AC; 0x1F600]
  = [65; 195; 169; 226; 130; 172; 240; 159; 152; 128]
  /\ Utf8.decode [65; 195; 169; 226; 130; 172; 240; 159; 152; 128]
     = [0x41; 0xE9; 0x20AC; 0x1F600]
  /\ Utf8.encode [0xD800] = [0xEF; 0xBF; 0xBD]
  /\ Utf8.decode [0xE2; 0x82; 0x41; 0xC0; 0x80] = [0xFFFD; 0x41; 0xFFFD; 0xFFFD].
Proof. vm_compute. auto. Qed.

Lemma bytes_ok_check (bs : list Z) : forallb byte_okb bs = true -> bytes_ok bs.
Proof.
  intros H. apply Forall_forall. intros b Hb.
  rewrite forallb_forall in H. specialize (H b Hb).
  unfold byte_okb in H. apply andb_prop in H. destruct H as [H1 H2].
  apply Z.leb_le in H1. apply Z.ltb_lt in H2. split; assumption.
Qed.

Section Base64Facts.
Import Base64.

Lemma In_zrange : forall (len : nat) (start n : Z),
  start <= n < start + Z.of_nat len -> In n (zrange start len).
Proof.
  induction len as [|len IH]; intros start n H; simpl.
  - lia.
  - destruct (Z.eq_dec start n) as [->|Hne]; [now left|].
    right. apply IH. lia.
Qed.

Lemma b64_val_char (url : bool) (n : Z) :
  sextet_ok n ->
  b64_val (b64_char url n) = Some n /\ Ascii.eqb (b64_char url n) "="%char = false.
Proof.
  intros H.
  assert (forallb (char_roundtrips url) (zrange 0 64) = true) as Hall
    by (destruct url; vm_compute; reflexivity).
  rewrite forallb_forall in Hall.
  specialize (Hall n (In_zrange 64 0 n H)). unfold char_roundtrips in Hall.
  destruct (b64_val (b64_char url n)) as [m|]; [|discriminate].
  apply andb_prop in Hall. destruct Hall as [Hm Hne].
  apply Z.eqb_eq in Hm. subst m. split; trivial.
  now apply negb_true_iff in Hne.
Qed.

Lemma list_ind3 {A : Type} (P : list A -> Prop) :
  P [] -> (forall a, P [a]) -> (forall a b, P [a; b]) ->
  (forall a b c r, P r -> P (a :: b :: c :: r)) ->
  forall l, P l.
Proof.
  intros H0 H1 H2 H3.
  fix IH 1. intros [|a [|b [|c r]]]; [apply H0 | apply H1 | apply H2 | apply H3, IH].
Qed.

Lemma encode_sextets_ok (bs : list Z) :
  bytes_ok bs -> Forall sextet_ok (encode_sextets bs).
Proof.
  unfold bytes_ok, byte_ok, sextet_ok.
  induction bs as [|a|a b|a b c r IH] using list_ind3; intros H; simpl.
  - constructor.
  - inversion_clear H. repeat constructor; Z.div_mod_to_equations; lia.
  - inversion_clear H as [|? ? Ha H']. inversion_clear H' as [|? ? Hb _].
    repeat constructor; Z.div_mod_to_equations; lia.
  - inversion_clear H as [|? ? Ha H']. inversion_clear H' as [|? ? Hb H''].
    inversion_clear H'' as [|? ? Hc Hr].
    repeat (constructor; [Z.div_mod_to_equations; lia|]). auto.
Qed.

Lemma decode_encode_sextets (bs : list Z) :
  bytes_ok bs -> decode_sextets (encode_sextets bs) = bs.
Proof.
  unfold bytes_ok, byte_ok.
  induction bs as [|a|a b|a b c r IH] using list_ind3; intros H.
  - reflexivity.
  - inversion_clear H. simpl. f_equal. Z.div_mod_to_equations. lia.
  - inversion_clear H as [|? ? Ha H']. inversion_clear H' as [|? ? Hb _].
    simpl. repeat f_equal; Z.div_mod_to_equations; lia.
  - inversion_clear H as [|? ? Ha H']. inversion_clear H' as [|? ? Hb H''].
    inversion_clear H'' as [|? ? Hc Hr].
    cbn [encode_sextets decode_sextets]. rewrite (IH Hr).
    repeat f_equal; Z.div_mod_to_equations; lia.
Qed.

Lemma sextets_of_chars (url : bool) (l : list Z) (tail : list ascii) :
  Forall sextet_ok l ->
  sextets_of (string_of_chars (map (b64_char url) l ++ tail))
  = (l ++ sextets_of (string_of_chars tail))%list.
Proof.
  induction 1 as [|n l Hn _ IH]; simpl; [reflexivity|].
  destruct (b64_val_char url n Hn) as [-> ->]. now rewrite IH.
Qed.

Lemma sextets_of_padding (n : nat) : sextets_of (string_of_chars (padding n)) = [].
Proof. unfold padding. destruct (Nat.modulo n 3) as [|[|[|k]]]; reflexivity. Qed.

Lemma decode_base64 (bs : list Z) : bytes_ok bs -> decode (base64 bs) = bs.
Proof.
  intros H. unfold decode, base64.
  rewrite sextets_of_chars by now apply encode_sextets_ok.
  rewrite sextets_of_padding, app_nil_r. now apply decode_encode_sextets.
Qed.

Lemma decode_base64url (bs : list Z) : bytes_ok bs -> decode (base64url bs) = bs.
Proof.
  intros H. unfold decode, base64url.
  rewrite <- (app_nil_r (map _ _)).
  rewrite sextets_of_chars by now apply encode_sextets_ok.
  simpl. rewrite app_nil_r. now apply decode_encode_sextets.
Qed.

Lemma string_of_chars_length (l : list ascii) :
  String.length (string_of_chars l) = List.length l.
Proof. induction l; simpl; congruence. Qed.

Lemma encode_sextets_length (bs : list Z) :
  (3 * List.length (encode_sextets bs) = 4 * List.length bs + Nat.modulo (3 - Nat.modulo (List.length bs) 3) 3)%nat.
Proof.
  induction bs as [|a|a b|a b c r IH] using list_ind3; try reflexivity.
  cbn [encode_sextets List.length].
  replace (S (S (S (List.length r)))) with (List.length r + 1 * 3)%nat by lia.
  rewrite Nat.Div0.mod_add. lia.
Qed.

Lemma base64url_length_32 (bs : list Z) :
  List.length bs = 32%nat -> String.length (base64url bs) = 43%nat.
Proof.
  intros H. unfold base64url. rewrite string_of_chars_length, length_map.
  pose proof (encode_sextets_length bs) as E. rewrite H in E.
  change (Nat.modulo (3 - Nat.modulo 32 3) 3) with 1%nat in E. lia.
Qed.

Lemma base64_empty (bs : list Z) : base64 bs = EmptyString -> bs = [].
Proof.
  destruct bs as [|a [|b [|c r]]]; trivial; discriminate.
Qed.
End Base64Facts.

Section Utf8Facts.
Import Utf8.

Lemma between_true (lo hi b : Z) : lo <= b <= hi -> between lo hi b = true.
Proof. intros H. unfold between. apply andb_true_intro. split; apply Z.leb_le; lia. Qed.

Lemma between_false (lo hi b : Z) : b < lo \/ hi < b -> between lo hi b = false.
Proof.
  intros H. unfold between. apply andb_false_iff.
  destruct H; [left|right]; apply Z.leb_gt; lia.
Qed.

Lemma scalarb_spec (c : Z) :
  scalarb c = true <-> 0 <= c < 0x110000 /\ (c < 0xD800 \/ 0xDFFF < c).
Proof.
  unfold scalarb, is_surrogate.
  rewrite !andb_true_iff, negb_true_iff, andb_false_iff.
  rewrite Z.leb_le, Z.ltb_lt, !Z.leb_gt. tauto.
Qed.

Lemma decode_encode_cp (c : Z) (rest : list Z) :
  scalarb c = true -> decode (encode_cp c ++ rest) = c :: decode rest.
Proof.
  intros H. apply scalarb_spec in H. destruct H as [Hr Hs].
  unfold encode_cp.
  destruct (Z.ltb_spec c 0x80).
  { cbn [app decode]. rewrite between_true by lia. reflexivity. }
  destruct (Z.ltb_spec c 0x800).
  { cbn [app decode].
    rewrite (between_false 0 0x7F) by (Z.div_mod_to_equations; lia).
    rewrite (between_true 0xC2 0xDF) by (Z.div_mod_to_equations; lia).
    rewrite (between_true 0x80 0xBF) by (Z.div_mod_to_equations; lia).
    f_equal. Z.div_mod_to_equations. lia. }
  destruct (Z.ltb_spec c 0x10000).
  { assert (is_surrogate c = false) as ->.
    { unfold is_surrogate. apply andb_false_iff.
      destruct Hs; [left|right]; apply Z.leb_gt; lia. }
    cbn [app decode].
    rewrite (between_false 0 0x7F) by (Z.div_mod_to_equations; lia).
    rewrite (between_false 0xC2 0xDF) by (Z.div_mod_to_equations; lia).
    rewrite (between_true 0xE0 0xEF) by (Z.div_mod_to_equations; lia).
    rewrite (between_true (lower _) (upper _)).
    2:{ unfold lower, upper.
        repeat match goal with
               | |- context [?x =? ?y] => destruct (Z.eqb_spec x y)
               end; Z.div_mod_to_equations; lia. }
    rewrite (between_true 0x80 0xBF) by (Z.div_mod_to_equations; lia).
    f_equal. Z.div_mod_to_equations. lia. }
  cbn [app decode].
  rewrite (between_false 0 0x7F) by (Z.div_mod_to_equations; lia).
  rewrite (between_false 0xC2 0xDF) by (Z.div_mod_to_equations; lia).
  rewrite (between_false 0xE0 0xEF) by (Z.div_mod_to_equations; lia).
  rewrite (between_true 0xF0 0xF4) by (Z.div_mod_to_equations; lia).
  rewrite (between_true (lower _) (upper _)).
  2:{ unfold lower, upper.
      repeat match goal with
             | |- context [?x =? ?y] => destruct (Z.eqb_spec x y)
             end; Z.div_mod_to_equations; lia. }
  rewrite !(between_true 0x80 0xBF) by (Z.div_mod_to_equations; lia).
  f_equal. Z.div_mod_to_equations. lia.
Qed.

Lemma decode_encode (s : jsstring) : well_formed s -> decode (encode s) = s.
Proof.
  induction 1 as [|c s Hc _ IH]; [reflexivity|].
  unfold encode. cbn [flat_map]. rewrite decode_encode_cp by exact Hc.
  f_equal. exact IH.
Qed.

Lemma encode_cp_bytes (c : Z) : scalarb c = true -> bytes_ok (encode_cp c).
Proof.
  intros H. apply scalarb_spec in H. destruct H as [Hr Hs].
  unfold encode_cp, bytes_ok, byte_ok.
  repeat match goal with
         | |- context [if ?b then _ else _] => destruct b eqn:?
         end;
  repeat match goal with
         | H : (_ <? _) = true |- _ => apply Z.ltb_lt in H
         | H : (_ <? _) = false |- _ => apply Z.ltb_ge in H
         end;
  repeat constructor; Z.div_mod_to_equations; lia.
Qed.

Lemma encode_bytes (s : jsstring) : well_formed s -> bytes_ok (encode s).
Proof.
  induction 1 as [|c s Hc _ IH]; [constructor|].
  unfold encode. cbn [flat_map]. apply Forall_app. split; [now apply encode_cp_bytes|exact IH].
Qed.

Lemma encode_empty (s : jsstring) : encode s = [] -> s = [].
Proof.
  destruct s as [|c s]; trivial. unfold encode. cbn [flat_map]. unfold encode_cp.
  repeat match goal with
         | |- context [if ?b then _ else _] => destruct b
         end; discriminate.
Qed.

End Utf8Facts.

(** ** Token expiry and the token-endpoint requests (oauth-utils.ts)      *)

Section TokenLifecycle.
Import OAuthUtils.

Variable now : Z.

Lemma isTokenExpired_absent : isTokenExpired now None = false.
Proof. reflexivity. Qed.

Lemma isTokenExpired_zero : isTokenExpired now (Some 0) = false.
Proof. reflexivity. Qed.

Lemma isTokenExpired_nonzero (e : Z) :
  e <> 0 -> isTokenExpired now (Some e) = (now + bufferMs >=? e).
Proof.
  intros He. unfold isTokenExpired.
  destruct (Z.eqb_spec e 0); [contradiction | reflexivity].
Qed.

(** C6, as the code has it. [isTokenExpired] answers [true] exactly when
    an expiry is recorded, that expiry is not the number 0, and the current
    time plus the five-minute buffer is at or past it. So it answers
    [false] for an absent expiry and also for the expiry 0. *)
Theorem isTokenExpired_spec (expiresAt : option Z) :
  isTokenExpired now expiresAt = true
  <-> exists e, expiresAt = Some e /\ e <> 0 /\ now + 5 * 60 * 1000 >= e.
Proof.
  split.
  - destruct expiresAt as [e|]; [|discriminate].
    destruct (Z.eq_dec e 0) as [->|He]; [discriminate|].
    rewrite (isTokenExpired_nonzero e He). unfold bufferMs.
    intros H. exists e. repeat split; trivial.
    apply Z.geb_le in H. lia.
  - intros (e & -> & He & Hge).
    rewrite (isTokenExpired_nonzero e He). unfold bufferMs.
    apply Z.geb_le. lia.
Qed.

Lemma isTokenExpired_past (e : Z) :
  e <> 0 -> e <= now -> isTokenExpired now (Some e) = true.
Proof.
  intros He Hle. rewrite (isTokenExpired_nonzero e He).
  apply Z.geb_le. unfold bufferMs. lia.
Qed.

Lemma isTokenExpired_far_future (e : Z) :
  now + 5 * 60 * 1000 < e -> isTokenExpired now (Some e) = false.
Proof.
  intros Hlt. destruct (Z.eq_dec e 0) as [->|He]; [reflexivity|].
  rewrite (isTokenExpired_nonzero e He), Z.geb_leb.
  apply Z.leb_gt. unfold bufferMs. lia.
Qed.

End TokenLifecycle.

(** C6, as stated, fails: the expiry 0 is a recorded timestamp in the past,
    the current time plus the buffer is past it, and the answer is [false]. *)
Lemma isTokenExpired_zero_counterexample :
  OAuthUtils.isTokenExpired 1700000000000 (Some 0) = false
  /\ 1700000000000 + 5 * 60 * 1000 >= 0
  /\ 0 < 1700000000000.
Proof. repeat split; try reflexivity; lia. Qed.

Section TokenRequests.
Import OAuthUtils.

Lemma exchange_client_id (params : ExchangeParams) :
  get_field "client_id" (req_body (exchange_request params)) = Some OAUTH_CLIENT_ID.
Proof. reflexivity. Qed.

Lemma refresh_client_id (refreshToken : string) :
  get_field "client_id" (req_body (refresh_request refreshToken)) = Some "claude-desktop".
Proof. reflexivity. Qed.

(** Each function issues one request, the one built above: its result
    depends on the network only through the answer to that request. *)
Lemma exchange_posts_request (fetch fetch' : Fetch) (now : Z) (params : ExchangeParams) :
  fetch (exchange_request params) = fetch' (exchange_request params) ->
  exchangeAuthorizationCode fetch now params = exchangeAuthorizationCode fetch' now params.
Proof. intros H. unfold exchangeAuthorizationCode. rewrite H. reflexivity. Qed.

Lemma refresh_posts_request (fetch fetch' : Fetch) (now : Z) (refreshToken : string) :
  fetch (refresh_request refreshToken) = fetch' (refresh_request refreshToken) ->
  refreshOAuthToken fetch now refreshToken = refreshOAuthToken fetch' now refreshToken.
Proof. intros H. unfold refreshOAuthToken. rewrite H. reflexivity. Qed.

(** C8 does not hold of the code. Both requests go to the token endpoint
    as form posts, and the authorization-code exchange sends
    [OAUTH_CLIENT_ID]; the refresh request sends the literal
    [claude-desktop] as its [client_id], which is a different string. *)
Theorem refresh_sends_other_client_id (params : ExchangeParams) (refreshToken : string) :
  req_url (exchange_request params) = req_url (refresh_request refreshToken)
  /\ get_field "client_id" (req_body (exchange_request params)) = Some OAUTH_CLIENT_ID
  /\ get_field "client_id" (req_body (refresh_request refreshToken)) = Some "claude-desktop"
  /\ get_field "client_id" (req_body (refresh_request refreshToken))
     <> get_field "client_id" (req_body (exchange_request params)).
Proof.
  repeat split; try reflexivity.
  rewrite exchange_client_id, refresh_client_id. discriminate.
Qed.

End TokenRequests.

(** ** Port allocation (oauth-server.ts)                                  *)

Section PortAllocation.
Import OAuthServer.

Variable net : Loopback.

Lemma valid_port_spec (port : Z) : valid_port port = true <-> 0 <= port <= 65535.
Proof. unfold valid_port. rewrite andb_true_iff, Z.leb_le, Z.ltb_lt. lia. Qed.

(** On a port, a probe says what the bind attempt ended in. *)
Lemma checkPortAvailable_port (port : Z) (b : bool) :
  0 <= port <= 65535 ->
  (checkPortAvailable net port = Ok b
   <-> net port = if b then Listening else ListenError).
Proof.
  intros H. apply valid_port_spec in H. unfold checkPortAvailable. rewrite H.
  destruct (net port), b; split; congruence.
Qed.

(** On any other number it throws, whatever the interface would do. *)
Lemma checkPortAvailable_bad_port (port : Z) :
  ~ 0 <= port <= 65535 ->
  checkPortAvailable net port = Throw (bad_port_message port).
Proof.
  intros H. unfold checkPortAvailable.
  destruct (valid_port port) eqn:E; [apply valid_port_spec in E; contradiction | reflexivity].
Qed.

Lemma probe_outcome : forall (left : nat) (port : Z) (probed : list Z)
    (r : result (option Z)),
  probe net left port = (probed, r) ->
  match r with
  | Ok (Some p) =>
      port <= p < port + Z.of_nat left
      /\ checkPortAvailable net p = Ok true
      /\ (forall q, port <= q < p -> checkPortAvailable net q = Ok false)
      /\ probed = zrange port (Z.to_nat (p - port + 1))
  | Ok None =>
      (forall q, port <= q < port + Z.of_nat left -> checkPortAvailable net q = Ok false)
      /\ probed = zrange port left
  | Throw e =>
      exists p,
        port <= p < port + Z.of_nat left
        /\ checkPortAvailable net p = Throw e
        /\ (forall q, port <= q < p -> checkPortAvailable net q = Ok false)
        /\ probed = zrange port (Z.to_nat (p - port + 1))
  end.
Proof.
  induction left as [|n IH]; intros port probed r H; simpl in H.
  - injection H as <- <-. split; [intros q Hq; lia | reflexivity].
  - destruct (checkPortAvailable net port) as [[|]|e] eqn:Hav.
    + injection H as <- <-.
      replace (port - port + 1) with 1 by lia.
      repeat split; try lia; trivial.
    + destruct (probe net n (port + 1)) as [log r'] eqn:Hrec.
      injection H as <- <-. specialize (IH _ _ _ Hrec).
      assert (forall p, port + 1 <= p ->
                zrange port (Z.to_nat (p - port + 1))
                = port :: zrange (port + 1) (Z.to_nat (p - (port + 1) + 1))) as Hz.
      { intros p Hp.
        replace (Z.to_nat (p - port + 1)) with (S (Z.to_nat (p - (port + 1) + 1))) by lia.
        reflexivity. }
      assert (forall p, (forall q, port + 1 <= q < p -> checkPortAvailable net q = Ok false) ->
                forall q, port <= q < p -> checkPortAvailable net q = Ok false) as Hb.
      { intros p Hall q Hq. destruct (Z.eq_dec q port) as [->|Hne]; trivial.
        apply Hall. lia. }
      destruct r' as [[p|]|e].
      * destruct IH as (Hrange & Hp & Hbefore & ->).
        split; [lia|]. split; [exact Hp|]. split; [exact (Hb p Hbefore)|].
        now rewrite Hz by lia.
      * destruct IH as (Hall & ->). split; [|reflexivity].
        apply Hb. intros q Hq. apply Hall. lia.
      * destruct IH as (p & Hrange & Hp & Hbefore & ->).
        exists p. split; [lia|]. split; [exact Hp|]. split; [exact (Hb p Hbefore)|].
        now rewrite Hz by lia.
    + injection H as <- <-. exists port.
      replace (port - port + 1) with 1 by lia.
      repeat split; try lia; trivial.
Qed.

(** What a call ends in, and what it has probed by then. It throws either
    when it has run through the range or when a probe throws. *)
Lemma findAvailablePort_outcome (min max : Z) :
  let '(probed, r) := findAvailablePort_probes net min max in
  r = findAvailablePort net min max
  /\ match r with
     | Ok p =>
         min <= p <= max
         /\ checkPortAvailable net p = Ok true
         /\ (forall q, min <= q < p -> checkPortAvailable net q = Ok false)
         /\ probed = zrange min (Z.to_nat (p - min + 1))
     | Throw message =>
         ((forall q, min <= q <= max -> checkPortAvailable net q = Ok false)
          /\ probed = zrange min (Z.to_nat (max - min + 1))
          /\ message = "No available ports in range " ++ show_Z min ++ "-" ++ show_Z max)
         \/ (exists p,
               min <= p <= max
               /\ checkPortAvailable net p = Throw message
               /\ (forall q, min <= q < p -> checkPortAvailable net q = Ok false)
               /\ probed = zrange min (Z.to_nat (p - min + 1)))
     end.
Proof.
  unfold findAvailablePort, findAvailablePort_probes.
  destruct (probe net (Z.to_nat (max - min + 1)) min) as [probed r] eqn:H; simpl.
  split; trivial. apply probe_outcome in H. destruct r as [[p|]|e].
  - destruct H as (Hr & Hp & Hb & Hl). repeat split; trivial; lia.
  - destruct H as (Hall & Hl). left. repeat split; trivial.
    intros q Hq. apply Hall. lia.
  - destruct H as (p & Hr & Hp & Hb & Hl). right. exists p. repeat split; trivial; lia.
Qed.

Lemma findAvailablePort_returns_iff (min max p : Z) :
  findAvailablePort net min max = Ok p
  <-> (min <= p <= max
       /\ checkPortAvailable net p = Ok true
       /\ (forall q, min <= q < p -> checkPortAvailable net q = Ok false)).
Proof.
  pose proof (findAvailablePort_outcome min max) as H.
  destruct (findAvailablePort_probes net min max) as [probed r].
  destruct H as [<- H]. destruct r as [p'|message].
  - destruct H as (Hr & Hp & Hb & _). split.
    + intros [= <-]. auto.
    + intros (Hr' & Hp' & Hb'). f_equal.
      destruct (Z.lt_trichotomy p p') as [Hlt|[Heq|Hgt]]; [ | congruence | ].
      * rewrite (Hb p) in Hp' by lia. discriminate.
      * rewrite (Hb' p') in Hp by lia. discriminate.
  - split; [discriminate|]. intros (Hr' & Hp' & Hb').
    destruct H as [(Hall & _) | (p' & Hr & Hp & Hb & _)].
    + rewrite (Hall p Hr') in Hp'. discriminate.
    + destruct (Z.lt_trichotomy p p') as [Hlt|[Heq|Hgt]].
      * rewrite (Hb p) in Hp' by lia. discriminate.
      * subst p'. rewrite Hp in Hp'. discriminate.
      * rewrite (Hb' p') in Hp by lia. discriminate.
Qed.

(** A port found is a port: the caller never binds anything else. *)
Lemma findAvailablePort_valid (min max p : Z) :
  findAvailablePort net min max = Ok p -> 0 <= p <= 65535.
Proof.
  intros H. apply findAvailablePort_returns_iff in H. destruct H as (_ & H & _).
  unfold checkPortAvailable in H. destruct (valid_port p) eqn:E; [|discriminate].
  now apply valid_port_spec.
Qed.

(** Outside the ports nothing is probed further: the first number of the
    range that is no port ends the search with the range error, unless a
    port before it has bound. *)
Lemma findAvailablePort_bad_port (min max p : Z) :
  min <= p <= max ->
  ~ 0 <= p <= 65535 ->
  (forall q, min <= q < p -> 0 <= q <= 65535 /\ net q = ListenError) ->
  findAvailablePort_probes net min max
  = (zrange min (Z.to_nat (p - min + 1)), Throw (bad_port_message p)).
Proof.
  intros Hr Hbad Hbefore.
  pose proof (findAvailablePort_outcome min max) as H.
  destruct (findAvailablePort_probes net min max) as [probed r].
  destruct H as [_ H].
  assert (forall q, min <= q < p -> checkPortAvailable net q = Ok false) as Hb'.
  { intros q Hq. destruct (Hbefore q Hq) as [Hv Hn].
    now apply (checkPortAvailable_port q false Hv). }
  pose proof (checkPortAvailable_bad_port p Hbad) as Hp.
  destruct r as [p'|message].
  - destruct H as (Hr' & Hp' & Hb & _).
    destruct (Z.lt_trichotomy p p') as [Hlt|[Heq|Hgt]].
    + rewrite (Hb p) in Hp by lia. discriminate.
    + subst p'. rewrite Hp in Hp'. discriminate.
    + rewrite (Hb' p') in Hp' by lia. discriminate.
  - destruct H as [(Hall & _) | (p' & Hr' & Hp' & Hb & ->)].
    + rewrite (Hall p Hr) in Hp. discriminate.
    + destruct (Z.lt_trichotomy p p') as [Hlt|[Heq|Hgt]].
      * rewrite (Hb p) in Hp by lia. discriminate.
      * subst p'. rewrite Hp in Hp'. now injection Hp' as <-.
      * rewrite (Hb' p') in Hp' by lia. discriminate.
Qed.

(** C5. On a range of ports (every number of [min .. max] lies in
    0..65535) [findAvailablePort min max] probes [min], [min + 1], ... in
    this order and stops at the first port that binds. It returns [p]
    exactly when [p] is the least port of [min .. max] on which the
    transient listener binds, and it throws, with the no-available-ports
    message, exactly when no port of [min .. max] binds. *)
Theorem findAvailablePort_first_free (min max : Z) :
  (forall q, min <= q <= max -> 0 <= q <= 65535) ->
  (forall p, findAvailablePort net min max = Ok p
             <-> (min <= p <= max
                  /\ net p = Listening
                  /\ (forall q, min <= q < p -> net q = ListenError)))
  /\ ((exists message, findAvailablePort net min max = Throw message)
      <-> (forall q, min <= q <= max -> net q = ListenError))
  /\ (forall message, findAvailablePort net min max = Throw message ->
        message = "No available ports in range " ++ show_Z min ++ "-" ++ show_Z max)
  /\ findAvailablePort_probes net min max
     = (probed_up_to min max (findAvailablePort net min max),
        findAvailablePort net min max).
Proof.
  intros Hports.
  assert (forall q b, min <= q <= max ->
            (checkPortAvailable net q = Ok b
             <-> net q = if b then Listening else ListenError)) as Hprobe
    by (intros q b Hq; apply checkPortAvailable_port, Hports, Hq).
  assert (forall q, min <= q <= max -> forall e, checkPortAvailable net q <> Throw e) as Hno.
  { intros q Hq e He. destruct (net q) eqn:Hn.
    - rewrite (proj2 (Hprobe q true Hq) Hn) in He. discriminate.
    - rewrite (proj2 (Hprobe q false Hq) Hn) in He. discriminate. }
  pose proof (findAvailablePort_outcome min max) as H.
  destruct (findAvailablePort_probes net min max) as [probed r].
  destruct H as [<- H]. destruct r as [p'|message].
  - destruct H as (Hr & Hp & Hb & ->).
    apply (Hprobe p' true Hr) in Hp.
    assert (forall q, min <= q < p' -> net q = ListenError) as Hb'
      by (intros q Hq; apply (Hprobe q false); [lia | apply Hb, Hq]).
    split; [|split; [|split; [discriminate | reflexivity]]].
    + intros p. split.
      * intros [= <-]. auto.
      * intros (Hr' & Hp' & Hb''). f_equal.
        destruct (Z.lt_trichotomy p p') as [Hlt|[Heq|Hgt]]; [ | congruence | ].
        -- rewrite (Hb' p) in Hp' by lia. discriminate.
        -- rewrite (Hb'' p') in Hp by lia. discriminate.
    + split; [intros [m Hm]; discriminate|].
      intros Hall. rewrite (Hall p' Hr) in Hp. discriminate.
  - destruct H as [(Hall & -> & ->) | (p' & Hr & Hp & _)];
      [|exfalso; exact (Hno p' Hr _ Hp)].
    assert (forall q, min <= q <= max -> net q = ListenError) as Hall'
      by (intros q Hq; apply (Hprobe q false Hq), Hall, Hq).
    split; [|split; [|split; [now intros m [= <-] | reflexivity]]].
    + intros p. split; [discriminate|].
      intros (Hr' & Hp' & _). rewrite (Hall' p Hr') in Hp'. discriminate.
    + split; eauto.
Qed.

End PortAllocation.

Lemma findAvailablePort_witness :
  OAuthServer.findAvailablePort_probes Scenario.busy_21300 21300 21399
  = ([21300; 21301], Ok 21301).
Proof.
  assert (forall q, 21300 <= q <= 21399 -> 0 <= q <= 65535) as Hports by lia.
  destruct (findAvailablePort_first_free Scenario.busy_21300 21300 21399 Hports)
    as (Hfound & _ & _ & Hprobed).
  assert (OAuthServer.findAvailablePort Scenario.busy_21300 21300 21399 = Ok 21301) as E.
  { apply Hfound. split; [lia|]. split; [reflexivity|].
    intros q Hq. assert (q = 21300) as -> by lia. reflexivity. }
  rewrite Hprobed, E. reflexivity.
Defined.

(** Beyond the ports the search ends with the range error of [listen],
    not with the no-available-ports error. *)
Lemma findAvailablePort_beyond_ports :
  OAuthServer.findAvailablePort Fixtures.all_busy 65535 65540
  = Throw "options.port should be >= 0 and < 65536. Received type number (65536)."
  /\ OAuthServer.findAvailablePort Scenario.all_free 65536 65537
     = Throw "options.port should be >= 0 and < 65536. Received type number (65536).".
Proof. split; reflexivity. Qed.

(** ** Credential resolution (claude-token.ts)                            *)

Section CredentialResolution.
Import ClaudeToken ClaudeCli.

Variable sys : System.

Lemma swallowed {A : Type} (body : result (option A)) :
  returns (try_catch body swallow).
Proof. destruct body as [a|e]; simpl; [exists a | exists None]; reflexivity. Qed.

(** The bodies of the [try] blocks do throw: on a failing command, on
    malformed JSON and on JSON that is [null]. *)
Lemma query_secret_throws_on_failure (command e : string) :
  execSync sys command = Throw e -> query_secret sys command = Throw e.
Proof. intros H. unfold query_secret. now rewrite H. Qed.

Lemma parse_credentials_throws_on_syntax (content : Utf8.jsstring) (e : string) :
  JSON_parse sys content = Throw e -> parse_credentials sys content = Throw e.
Proof. intros H. unfold parse_credentials. now rewrite H. Qed.

Lemma parse_credentials_throws_on_null (content : Utf8.jsstring) :
  JSON_parse sys content = Ok JNull ->
  parse_credentials sys content = Throw "Cannot read properties of null".
Proof. intros H. unfold parse_credentials. now rewrite H. Qed.

Lemma read_file_throws_on_io (path e : string) :
  existsSync sys path = true -> readFileSync sys path = Throw e ->
  read_file sys path = Throw e.
Proof. intros Hex H. unfold read_file. now rewrite Hex, H. Qed.

(** Inside its [try], each reader yields what the place holds. *)
Lemma parse_credentials_outcome (text : Utf8.jsstring) :
  try_catch (parse_credentials sys text) swallow = Ok (stored_in sys text).
Proof.
  unfold parse_credentials, stored_in.
  destruct (JSON_parse sys text) as [v|e]; [|reflexivity].
  destruct v as [|b|n|t|l|fields]; try reflexivity.
  cbn [bind get_prop credential_of].
  destruct (get_field "claudeAiOauth" fields) as [o|]; [|reflexivity].
  destruct o as [|b|n|t|l|o]; try reflexivity.
  - destruct b; reflexivity.
  - cbn [json_truthy]. destruct (n =? 0); reflexivity.
  - cbn [json_truthy]. destruct (String.eqb t EmptyString); reflexivity.
Qed.

Lemma query_secret_outcome (command : string) :
  try_catch (query_secret sys command) swallow = Ok (keyring_entry sys command).
Proof.
  unfold query_secret, keyring_entry.
  destruct (execSync sys command) as [out|e]; [|reflexivity].
  cbn [bind]. cbv zeta. destruct (js_trim out) as [|c r]; [reflexivity|].
  apply parse_credentials_outcome.
Qed.

Lemma read_file_outcome (path : string) :
  try_catch (read_file sys path) swallow = Ok (file_entry sys path).
Proof.
  unfold read_file, file_entry. destruct (existsSync sys path); [|reflexivity].
  destruct (readFileSync sys path) as [content|e]; [|reflexivity].
  apply parse_credentials_outcome.
Qed.

Lemma readFromMacOSKeychain_returns : returns (readFromMacOSKeychain sys).
Proof. apply swallowed. Qed.

Lemma readFromWindowsCredentialManager_returns :
  returns (readFromWindowsCredentialManager sys).
Proof. apply swallowed. Qed.

Lemma readFromLinuxSecretService_returns : returns (readFromLinuxSecretService sys).
Proof.
  unfold readFromLinuxSecretService.
  match goal with
  | |- returns (bind (try_catch ?b swallow) _) =>
      destruct (swallowed b) as [[c|] ->]; simpl
  end.
  - now exists (Some c).
  - apply swallowed.
Qed.

(** The platform's reader never throws ... *)
Lemma readFromKeychain_outcome :
  readFromKeychain sys = Ok (first_found (keychain_places sys)).
Proof.
  unfold readFromKeychain, keychain_places.
  destruct (String.eqb (platform sys) "darwin").
  { unfold readFromMacOSKeychain. fold security_command.
    rewrite query_secret_outcome. cbn [first_found].
    now destruct (keyring_entry sys security_command). }
  destruct (String.eqb (platform sys) "win32").
  { unfold readFromWindowsCredentialManager, credentialsPath, credentials_file.
    destruct (homedir sys) as [home|e]; cbn [bind first_found]; [|reflexivity].
    rewrite read_file_outcome.
    now destruct (file_entry sys (path_join sys [home; ".claude"; ".credentials.json"])). }
  destruct (String.eqb (platform sys) "linux"); [|reflexivity].
  unfold readFromLinuxSecretService. fold secret_tool_command. fold pass_command.
  rewrite query_secret_outcome. cbn [bind first_found].
  destruct (keyring_entry sys secret_tool_command) as [c|]; [reflexivity|].
  rewrite query_secret_outcome.
  now destruct (keyring_entry sys pass_command).
Qed.

Lemma readFromKeychain_returns : returns (readFromKeychain sys).
Proof. rewrite readFromKeychain_outcome. now eexists. Qed.

(** ... but the reader of the credentials file does, when [homedir()]
    does: the path is computed before the [try]. *)
Lemma readFromCredentialsFile_outcome :
  readFromCredentialsFile sys
  = match homedir sys with
    | Ok home => Ok (file_entry sys (credentials_file sys home))
    | Throw e => Throw e
    end.
Proof.
  unfold readFromCredentialsFile, credentialsPath, credentials_file.
  destruct (homedir sys) as [home|e]; cbn [bind]; [|reflexivity].
  apply read_file_outcome.
Qed.

Lemma getExistingClaudeCredentials_lookup :
  getExistingClaudeCredentials sys = lookup sys.
Proof.
  unfold getExistingClaudeCredentials, lookup.
  rewrite readFromKeychain_outcome. cbn [bind].
  destruct (first_found (keychain_places sys)) as [c|]; [reflexivity|].
  apply readFromCredentialsFile_outcome.
Qed.

(** With a home directory the look-up returns, whatever else fails. *)
Lemma getExistingClaudeCredentials_returns_at_home (home : string) :
  homedir sys = Ok home -> returns (getExistingClaudeCredentials sys).
Proof.
  intros H. rewrite getExistingClaudeCredentials_lookup. unfold lookup. rewrite H.
  destruct (first_found (keychain_places sys)); now eexists.
Qed.

(** C9 does not hold of the code. [getExistingClaudeCredentials] throws,
    and throws exactly what [os.homedir()] throws, whenever the home
    directory cannot be determined and the platform's own places yield no
    credential: [readFromCredentialsFile] computes the path of the
    credentials file before it enters its [try]. In every other case it
    returns a credential or [null], whatever the secret-store commands, the
    credentials file and the JSON parser do. *)
Theorem getExistingClaudeCredentials_throws_without_home :
  (forall e, getExistingClaudeCredentials sys = Throw e
             <-> homedir sys = Throw e /\ first_found (keychain_places sys) = None)
  /\ ((exists home, homedir sys = Ok home) \/ first_found (keychain_places sys) <> None ->
      returns (getExistingClaudeCredentials sys)).
Proof.
  rewrite getExistingClaudeCredentials_lookup. unfold lookup, returns. split.
  - intros e. destruct (first_found (keychain_places sys)) as [c|].
    + split; [discriminate | intros [_ H]; discriminate].
    + destruct (homedir sys) as [home|e']; split;
        first [discriminate | intros [H _]; discriminate | idtac].
      * intros [= ->]. now split.
      * intros [[= ->] _]. reflexivity.
  - intros [[home H] | H].
    + rewrite H. destruct (first_found (keychain_places sys)); now eexists.
    + destruct (first_found (keychain_places sys)); [now eexists | contradiction].
Qed.

End CredentialResolution.

(** On a Linux machine without secret store, on which the home directory
    cannot be determined, the look-up throws. *)
Lemma homeless_lookup_throws :
  ClaudeToken.getExistingClaudeCredentials Fixtures.homeless
  = Throw "A system error occurred: uv_os_homedir returned ENOENT (no such file or directory)".
Proof. reflexivity. Qed.

(** ** The callback handler (oauth-server.ts)                             *)

Section CallbackHandler.
Import OAuthUtils OAuthServer.

Ltac open_cleanup :=
  unfold cleanup, clearTimeout, close_server;
  repeat match goal with
         | |- context [match ?x with Some _ => _ | None => _ end] => destruct x; simpl
         end.

Lemma cleanup_oauthState (w : World) : oauthState (cleanup w) = idle.
Proof. reflexivity. Qed.

Lemma cleanup_promises (w : World) : promises (cleanup w) = promises w.
Proof. open_cleanup; reflexivity. Qed.

Lemma cleanup_exchanges (w : World) : exchanges (cleanup w) = exchanges w.
Proof. open_cleanup; reflexivity. Qed.

Lemma cleanup_replies (w : World) : replies (cleanup w) = replies w.
Proof. open_cleanup; reflexivity. Qed.

(** Once [cleanup()] has run, both callbacks are [null], so the optional
    calls that follow it call nothing. *)
Lemma call_rejectCallback_after_cleanup (message : string) (w : World) :
  call_rejectCallback message (cleanup w) = cleanup w.
Proof. reflexivity. Qed.

Lemma call_resolveCallback_after_cleanup (tokens : OAuthTokens) (w : World) :
  call_resolveCallback tokens (cleanup w) = cleanup w.
Proof. reflexivity. Qed.

Lemma fail_callback_eq (message : string) (w : World) :
  fail_callback message w = cleanup (respond 200 "text/html" (ErrorHTML message) w).
Proof. reflexivity. Qed.

Lemma fail_callback_promises (message : string) (w : World) :
  promises (fail_callback message w) = promises w.
Proof. rewrite fail_callback_eq, cleanup_promises. reflexivity. Qed.

Lemma fail_callback_exchanges (message : string) (w : World) :
  exchanges (fail_callback message w) = exchanges w.
Proof. rewrite fail_callback_eq, cleanup_exchanges. reflexivity. Qed.

Lemma fail_callback_replies (message : string) (w : World) :
  replies (fail_callback message w)
  = (replies w ++ [{| status := 200; contentType := "text/html";
                      page := ErrorHTML message |}])%list.
Proof. rewrite fail_callback_eq, cleanup_replies. reflexivity. Qed.

Lemma handleCallback_resume_promises (r : result OAuthTokens) (w : World) :
  promises (handleCallback_resume r w) = promises w.
Proof.
  destruct r as [tokens|message]; unfold handleCallback_resume; cbv zeta.
  - rewrite call_resolveCallback_after_cleanup, cleanup_promises. reflexivity.
  - apply fail_callback_promises.
Qed.

Lemma exchangeCodeForTokens_promises (fetch : Fetch) (now : Z) (c : string) (w : World) :
  promises (fst (exchangeCodeForTokens fetch now c w)) = promises w.
Proof.
  unfold exchangeCodeForTokens.
  destruct (pkce (oauthState w)) as [k|]; [|reflexivity].
  destruct (port (oauthState w)) as [pt|]; [|reflexivity].
  destruct (pt =? 0); reflexivity.
Qed.

(** C1 does not hold of the code. Whatever the callback carries and whatever
    the token exchange ends in, [handleCallback] settles no promise: each
    branch runs [cleanup()], which sets [resolveCallback] and
    [rejectCallback] to [null], before it reads them for the optional call.
    The set of settled promises is the same before and after. *)
Theorem handleCallback_settles_nothing (fetch : Fetch) (now : Z) (q : Query) (w : World) :
  promises (handleCallback fetch now q w) = promises w.
Proof.
  unfold handleCallback.
  destruct (truthy (q_error q)); [apply fail_callback_promises|].
  destruct (negb (truthy (q_state q)) || differs (q_state q) (state (oauthState w)));
    [apply fail_callback_promises|].
  destruct (negb (truthy (q_code q))); [apply fail_callback_promises|].
  match goal with
  | |- context [exchangeCodeForTokens fetch now ?c w] =>
      pose proof (exchangeCodeForTokens_promises fetch now c w) as H;
      destruct (exchangeCodeForTokens fetch now c w) as [w1 r]
  end.
  simpl in H. rewrite handleCallback_resume_promises. exact H.
Qed.

Lemma differs_spec (a b : option string) : differs a b = true <-> a <> b.
Proof.
  destruct a as [x|], b as [y|]; simpl; split; try congruence;
    try discriminate.
  - intros H Heq. injection Heq as ->. rewrite String.eqb_refl in H. discriminate.
  - intros H. destruct (String.eqb_spec x y); [congruence | reflexivity].
Qed.

(** C2, the part the code keeps and the part it misses. For a callback
    with no (or an empty) [error] whose [state] is missing, empty or
    different from the session's, the handler answers with the CSRF failure
    page, tears the session down and never calls the token exchange; but it
    does not reject the session's promise, which stays as it was. *)
Theorem csrf_mismatch_no_exchange_no_rejection
    (fetch : Fetch) (now : Z) (q : Query) (w : World) :
  truthy (q_error q) = false ->
  truthy (q_state q) = false \/ q_state q <> state (oauthState w) ->
  let w' := handleCallback fetch now q w in
  exchanges w' = exchanges w
  /\ replies w' = (replies w ++ [csrf_page])%list
  /\ oauthState w' = idle
  /\ promises w' = promises w.
Proof.
  intros Herr Hstate w'. subst w'. unfold handleCallback. rewrite Herr.
  assert (negb (truthy (q_state q)) || differs (q_state q) (state (oauthState w)) = true)
    as ->.
  { destruct Hstate as [->|Hne]; [reflexivity|].
    apply (proj2 (differs_spec _ _)) in Hne. rewrite Hne. apply orb_true_r. }
  repeat split.
  - apply fail_callback_exchanges.
  - apply fail_callback_replies.
  - apply fail_callback_promises.
Qed.

(** In a session that has its PKCE pair and a port, a callback that passes
    the error and state checks with a code that starts with [#] reaches the
    exchange with the empty code. *)
Lemma hash_code_in_session
    (fetch : Fetch) (now : Z) (q : Query) (w : World)
    (rest : string) (k : PKCEChallenge) (p : Z) :
  truthy (q_error q) = false ->
  truthy (q_state q) = true ->
  q_state q = state (oauthState w) ->
  q_code q = Some (String "#"%char rest) ->
  pkce (oauthState w) = Some k ->
  port (oauthState w) = Some p ->
  p <> 0 ->
  let params := {| code := EmptyString; redirectUri := redirect_uri p;
                   codeVerifier := verifier k |} in
  handleCallback fetch now q w
  = handleCallback_resume (exchangeAuthorizationCode fetch now params)
      (set_exchanges (exchanges w ++ [params]) w).
Proof.
  intros Herr Htruthy Hstate Hcode Hpkce Hport Hp params. subst params.
  unfold handleCallback. rewrite Herr, Htruthy.
  assert (differs (q_state q) (state (oauthState w)) = false) as ->.
  { destruct (differs _ _) eqn:E; trivial.
    apply differs_spec in E. contradiction. }
  rewrite Hcode. simpl.
  unfold exchangeCodeForTokens. rewrite Hpkce, Hport.
  destruct (Z.eqb_spec p 0); [contradiction|]. reflexivity.
Qed.

Lemma handleCallback_resume_idle (r : result OAuthTokens) (w : World) :
  oauthState (handleCallback_resume r w) = idle.
Proof. destruct r; reflexivity. Qed.

Lemma handleCallback_idle (fetch : Fetch) (now : Z) (q : Query) (w : World) :
  oauthState (handleCallback fetch now q w) = idle.
Proof.
  unfold handleCallback.
  destruct (truthy (q_error q)); [reflexivity|].
  destruct (negb (truthy (q_state q)) || differs (q_state q) (state (oauthState w)));
    [reflexivity|].
  destruct (negb (truthy (q_code q))); [reflexivity|].
  destruct (exchangeCodeForTokens fetch now _ w) as [w1 r].
  apply handleCallback_resume_idle.
Qed.

End CallbackHandler.

(** ** Scenarios                                                          *)

Section ScenarioFacts.
Import OAuthUtils OAuthServer Scenario.

Example awaiting_session :
  oauthState awaiting
  = {| server := Some 0%nat; port := Some 21300;
       pkce := Some {| verifier := "AAECAwQFBgcICQoLDA0ODxAREhMUFRYXGBkaGxwdHh8";
                       challenge := "6oZqdX5MOLq_qBJ8vppAnT4fk6AP8UiP9zX8-Rev_9A" |};
       state := Some session_state;
       resolveCallback := Some 0%nat; rejectCallback := Some 0%nat;
       timeoutId := Some 0%nat |}
  /\ listening awaiting = [(0%nat, 21300)]
  /\ timers awaiting = [0%nat]
  /\ pending 0 awaiting.
Proof. vm_compute. auto. Qed.

(** The failing inputs of C1: a granted redirect whose exchange succeeds, and
    a denied one. The page is written, the session is torn down, the timer
    is cleared, and promise 0 is still pending with nothing left to settle
    it. *)
Example granted_redirect_leaves_promise_pending :
  let w := handleCallback token_endpoint_up 1700000000000
             (redirect (Some "code-1") (Some session_state) None) awaiting in
  page (last (replies w) {| status := 0; contentType := EmptyString; page := NotFoundText |})
  = SuccessHTML
  /\ List.length (exchanges w) = 1%nat
  /\ pending 0 w
  /\ oauthState w = idle /\ timers w = [] /\ listening w = [].
Proof. vm_compute. auto 10. Qed.

Example denied_redirect_leaves_promise_pending :
  let w := handleCallback token_endpoint_up 1700000000000
             (redirect None None (Some "access_denied")) awaiting in
  replies w = [{| status := 200; contentType := "text/html";
                  page := ErrorHTML "access_denied" |}]
  /\ pending 0 w
  /\ oauthState w = idle /\ timers w = [] /\ listening w = [].
Proof. vm_compute. auto 10. Qed.

Example failed_exchange_leaves_promise_pending :
  let w := handleCallback token_endpoint_down 1700000000000
             (redirect (Some "code-1") (Some session_state) None) awaiting in
  replies w = [{| status := 200; contentType := "text/html";
                  page := ErrorHTML "fetch failed" |}]
  /\ List.length (exchanges w) = 1%nat
  /\ pending 0 w
  /\ oauthState w = idle /\ timers w = [] /\ listening w = [].
Proof. vm_compute. auto 10. Qed.

(** The sibling paths do settle it: [cancelOAuthFlow] calls [rejectCallback]
    before [cleanup()], the timer callback calls its own [reject]. *)
Example cancel_rejects :
  outcome 0 (promises (cancelOAuthFlow awaiting)) = Some (Rejected "OAuth flow cancelled").
Proof. vm_compute. reflexivity. Qed.

Example timeout_rejects :
  outcome 0 (promises (step awaiting (TimerFires 0)))
  = Some (Rejected "OAuth flow timed out after 5 minutes")
  /\ isOAuthFlowInProgress (step awaiting (TimerFires 0)) = false.
Proof. vm_compute. auto. Qed.

End ScenarioFacts.

Lemma csrf_mismatch_witness :
  let q := Scenario.redirect (Some "code-1") (Some "wrong-value") None in
  let w := Scenario.awaiting in
  let w' := OAuthServer.handleCallback Scenario.token_endpoint_up 1700000000000 q w in
  truthy (OAuthServer.q_error q) = false
  /\ OAuthServer.q_state q <> OAuthServer.state (OAuthServer.oauthState w)
  /\ OAuthServer.exchanges w' = OAuthServer.exchanges w
  /\ OAuthServer.replies w' = (OAuthServer.replies w ++ [OAuthServer.csrf_page])%list
  /\ OAuthServer.oauthState w' = OAuthServer.idle
  /\ OAuthServer.promises w' = OAuthServer.promises w.
Proof.
  assert (OAuthServer.q_state (Scenario.redirect (Some "code-1") (Some "wrong-value") None)
          <> OAuthServer.state (OAuthServer.oauthState Scenario.awaiting)) as Hstate
    by (vm_compute; discriminate).
  split; [reflexivity|]. split; [exact Hstate|].
  exact (csrf_mismatch_no_exchange_no_rejection Scenario.token_endpoint_up 1700000000000
           (Scenario.redirect (Some "code-1") (Some "wrong-value") None) Scenario.awaiting
           eq_refl (or_intror Hstate)).
Defined.

(** ** One listener at a time (oauth-server.ts, claude-code.ts)           *)

Create HintDb listener discriminated.

Section SingleListener.
Import OAuthUtils OAuthServer Schedule.

Lemma quiet_owned (w : World) : quiet w -> owned w.
Proof. intros [H _]. unfold owned. now rewrite H. Qed.

Lemma cleanup_quiet (w : World) : owned w -> quiet (cleanup w).
Proof.
  unfold owned, quiet. intros H. split; [|reflexivity].
  unfold cleanup.
  destruct (timeoutId (oauthState w)); simpl;
    (destruct (listening w) as [|[srv pt] [|e l]] eqn:L; [ | |contradiction]);
    try rewrite H; simpl; rewrite ?L; simpl; rewrite ?Nat.eqb_refl; trivial;
    destruct (server (oauthState w)); simpl; rewrite ?L; reflexivity.
Qed.

Lemma settle_listening (p : nat) (s : Settlement) (w : World) :
  listening (settle p s w) = listening w /\ oauthState (settle p s w) = oauthState w.
Proof. unfold settle. destruct (outcome p (promises w)); split; reflexivity. Qed.

Lemma settle_quiet (p : nat) (s : Settlement) (w : World) :
  quiet w -> quiet (settle p s w).
Proof.
  unfold quiet. destruct (settle_listening p s w) as [-> ->]. trivial.
Qed.

Lemma settle_owned (p : nat) (s : Settlement) (w : World) :
  owned w -> owned (settle p s w).
Proof.
  unfold owned. destruct (settle_listening p s w) as [-> ->]. trivial.
Qed.

Lemma respond_owned (c : Z) (t : string) (pg : Page) (w : World) :
  owned w -> owned (respond c t pg w).
Proof. trivial. Qed.

#[local] Hint Resolve quiet_owned cleanup_quiet settle_owned respond_owned : listener.

Lemma fail_callback_quiet (message : string) (w : World) :
  owned w -> quiet (fail_callback message w).
Proof.
  intros H. rewrite fail_callback_eq. auto with listener.
Qed.

Lemma handleCallback_resume_quiet (r : result OAuthTokens) (w : World) :
  owned w -> quiet (handleCallback_resume r w).
Proof.
  intros H. destruct r as [tokens|message]; unfold handleCallback_resume; cbv zeta.
  - rewrite call_resolveCallback_after_cleanup. apply cleanup_quiet, respond_owned, H.
  - apply fail_callback_quiet, H.
Qed.

Lemma exchangeCodeForTokens_owned (fetch : Fetch) (now : Z) (c : string) (w : World) :
  owned w -> owned (fst (exchangeCodeForTokens fetch now c w)).
Proof.
  unfold exchangeCodeForTokens.
  destruct (pkce (oauthState w)) as [k|]; [|trivial].
  destruct (port (oauthState w)) as [pt|]; [|trivial].
  destruct (pt =? 0); trivial.
Qed.

Lemma handleCallback_quiet (fetch : Fetch) (now : Z) (q : Query) (w : World) :
  owned w -> quiet (handleCallback fetch now q w).
Proof.
  intros H. unfold handleCallback.
  destruct (truthy (q_error q)); [apply fail_callback_quiet, H|].
  destruct (negb (truthy (q_state q)) || differs (q_state q) (state (oauthState w)));
    [apply fail_callback_quiet, H|].
  destruct (negb (truthy (q_code q))); [apply fail_callback_quiet, H|].
  match goal with
  | |- context [exchangeCodeForTokens fetch now ?c w] =>
      pose proof (exchangeCodeForTokens_owned fetch now c w H) as H1;
      destruct (exchangeCodeForTokens fetch now c w) as [w1 r]
  end.
  apply handleCallback_resume_quiet, H1.
Qed.

Lemma handleRequest_owned (fetch : Fetch) (now : Z) (url : result HttpRequest)
    (w : World) :
  owned w -> owned (handleRequest fetch now url w).
Proof.
  intros H. unfold handleRequest. destruct url as [req|e]; [|exact H].
  destruct (String.eqb (pathname req) "/callback");
    [apply quiet_owned, handleCallback_quiet, H|].
  destruct (String.eqb (pathname req) "/health"); apply respond_owned, H.
Qed.

(** A start that runs to its suspension on the browser without any other
    event in between leaves at most the listener it has just bound. *)
Lemma startOAuthFlow_owned (f : nat) (net : Loopback) (rv rs : list Z)
    (opened : result unit) (w : World) :
  owned w -> owned (startOAuthFlow f net rv rs opened w).
Proof.
  intros H. unfold startOAuthFlow, startOAuthFlow_begin.
  destruct (cleanup_quiet w H) as [Hl Hs].
  generalize dependent (cleanup w). intros c Hl Hs.
  unfold startOAuthFlow_resume.
  destruct (findAvailablePort net portRange_min portRange_max) as [pt|e].
  - cbv zeta.
    match goal with
    | |- owned (match opened with Ok _ => ?w5 | Throw e => _ end) =>
        assert (owned w5) as H5
    end.
    { unfold owned, server_listen, port_bound. simpl.
      repeat (rewrite Hl; simpl). reflexivity. }
    destruct opened as [u|e]; [exact H5|].
    apply settle_owned, quiet_owned, cleanup_quiet, H5.
  - apply settle_owned, quiet_owned, cleanup_quiet, quiet_owned. now split.
Qed.

Lemma turn_owned (t : Turn) (w : World) : owned w -> owned (run (events_of t) w).
Proof.
  intros H. destruct t as [f net rv rs opened|e]; simpl.
  - apply (startOAuthFlow_owned f net rv rs opened w H).
  - destruct e; simpl; trivial.
    + destruct (is_listening srv w); [apply handleRequest_owned, H | exact H].
    + unfold on_server_error. auto with listener.
    + destruct (armed f w); [|exact H].
      unfold on_timeout. assert (owned (clearTimeout f w)) by exact H.
      auto with listener.
    + unfold cancelOAuthFlow.
      destruct (rejectCallback (oauthState w)); auto with listener.
Qed.

Lemma run_app (es1 es2 : list Event) (w : World) :
  run (es1 ++ es2) w = run es2 (run es1 w).
Proof. apply fold_left_app. Qed.

(** As long as every call of [startOAuthFlow] reaches its listener before
    anything else runs, the process never holds two callback listeners. *)
Lemma sequential_starts_single_listener (ts : list Turn) :
  (List.length (listening (run (flat_map events_of ts) initial)) <= 1)%nat.
Proof.
  assert (forall w, owned w -> owned (run (flat_map events_of ts) w)) as H.
  { induction ts as [|t ts IH]; intros w Hw; simpl; [exact Hw|].
    rewrite run_app. apply IH, turn_owned, Hw. }
  specialize (H initial I). unfold owned in H.
  destruct (listening _) as [|[srv pt] [|e l]]; simpl; first [lia | contradiction].
Qed.

(** C3 does not hold of the code. Two calls of [startLocalAuth] made one
    after the other, the second while the first still searches for its port:
    both pass the in-progress guard, both run [cleanup()] on an idle state,
    and each then binds its own listener. The first listener is never closed:
    [oauthState] no longer points to it. *)
Theorem overlapping_starts_bind_two_listeners :
  exists w1 w2 : World,
    ClaudeCode.startLocalAuth_begin initial = Ok w1
    /\ ClaudeCode.startLocalAuth_begin w1 = Ok w2
    /\ let w3 := run [PortSearchDone 0 Scenario.all_free Scenario.random_a
                        Scenario.random_b (Ok tt)] w2 in
       let w4 := run [PortSearchDone 1 Scenario.busy_21300 Scenario.random_b
                        Scenario.random_a (Ok tt)] w3 in
       listening w3 = [(0%nat, 21300)]
       /\ listening w4 = [(0%nat, 21300); (1%nat, 21301)]
       /\ server (oauthState w4) = Some 1%nat
       /\ listening (cancelOAuthFlow w4) = [(0%nat, 21300)].
Proof.
  exists initial, initial. vm_compute. auto 10.
Qed.

End SingleListener.

(** ** Reachable states                                                   *)

Section Reachable.
Import OAuthUtils OAuthServer Schedule.

Lemma idle_coherent (w : World) : oauthState w = idle -> coherent w.
Proof. intros H. unfold coherent. now rewrite H. Qed.

Lemma settle_coherent (p : nat) (s : Settlement) (w : World) :
  coherent w -> coherent (settle p s w).
Proof.
  unfold coherent. destruct (settle_listening p s w) as [_ ->]. trivial.
Qed.

Lemma startOAuthFlow_resume_coherent (f : nat) (net : Loopback) (rv rs : list Z)
    (opened : result unit) (w : World) :
  coherent w -> coherent (startOAuthFlow_resume f net rv rs opened w).
Proof.
  intros H. unfold startOAuthFlow_resume.
  destruct (findAvailablePort net portRange_min portRange_max) as [pt|e] eqn:Hfound.
  - apply (findAvailablePort_returns_iff net) in Hfound. destruct Hfound as [Hrange _].
    cbv zeta. destruct opened as [u|e].
    + unfold coherent, server_listen. simpl.
      destruct (port_bound pt _); simpl; eauto.
    + apply settle_coherent, idle_coherent, cleanup_oauthState.
  - apply settle_coherent, idle_coherent, cleanup_oauthState.
Qed.

Lemma step_coherent (w : World) (e : Event) : coherent w -> coherent (step w e).
Proof.
  intros H. destruct e; simpl.
  - apply idle_coherent, cleanup_oauthState.
  - apply startOAuthFlow_resume_coherent, H.
  - destruct (is_listening srv w); [|exact H]. unfold handleRequest.
    destruct url as [req|e]; [|exact H].
    destruct (String.eqb (pathname req) "/callback");
      [apply idle_coherent, handleCallback_idle|].
    destruct (String.eqb (pathname req) "/health"); exact H.
  - apply settle_coherent, idle_coherent, cleanup_oauthState.
  - destruct (armed f w); [|exact H].
    apply settle_coherent, idle_coherent, cleanup_oauthState.
  - apply idle_coherent, cleanup_oauthState.
Qed.

Lemma run_coherent (es : list Event) (w : World) : coherent w -> coherent (run es w).
Proof.
  revert w. induction es as [|e es IH]; intros w H; simpl; [exact H|].
  apply IH, step_coherent, H.
Qed.

(** C10. In every state the process can reach, a callback that passes the
    error and state checks and whose [code] is [#] followed by anything is
    not taken for a missing code: the handler cuts the code at the [#],
    which leaves the empty string, calls [exchangeAuthorizationCode] with
    that empty code (and the session's redirect URI and verifier), and goes
    on with whatever the exchange ends in. *)
Theorem hash_code_exchanged_as_empty
    (es : list Event) (fetch : Fetch) (now : Z) (q : Query) (rest : string) :
  let w := run es initial in
  truthy (q_error q) = false ->
  truthy (q_state q) = true ->
  q_state q = state (oauthState w) ->
  q_code q = Some (String "#"%char rest) ->
  exists params,
    code params = EmptyString
    /\ Some (codeVerifier params) = option_map verifier (pkce (oauthState w))
    /\ Some (redirectUri params) = option_map redirect_uri (port (oauthState w))
    /\ handleCallback fetch now q w
       = handleCallback_resume (exchangeAuthorizationCode fetch now params)
           (set_exchanges (exchanges w ++ [params]) w).
Proof.
  intros w Herr Htruthy Hstate Hcode.
  assert (coherent w) as Hw by (apply run_coherent; exact I).
  unfold coherent in Hw. rewrite <- Hstate in Hw.
  destruct (q_state q) as [st|] eqn:Hq; [|discriminate].
  destruct Hw as (k & p & Hpkce & Hport & Hrange).
  exists {| code := EmptyString; redirectUri := redirect_uri p; codeVerifier := verifier k |}.
  rewrite Hpkce, Hport.
  split; [reflexivity|]. split; [reflexivity|]. split; [reflexivity|].
  apply (hash_code_in_session fetch now q w rest k p); rewrite ?Hq; trivial.
  unfold portRange_min in Hrange. lia.
Qed.

End Reachable.

Lemma hash_code_witness :
  let es := [OAuthServer.StartCalled;
             OAuthServer.PortSearchDone 0 Scenario.all_free Scenario.random_a
               Scenario.random_b (Ok tt)] in
  let q := Scenario.redirect (Some "#state=xyz") (Some Scenario.session_state) None in
  let w := OAuthServer.run es OAuthServer.initial in
  (truthy (OAuthServer.q_error q) = false
   /\ truthy (OAuthServer.q_state q) = true
   /\ OAuthServer.q_state q = OAuthServer.state (OAuthServer.oauthState w)
   /\ OAuthServer.q_code q = Some "#state=xyz")
  /\ exists params,
       OAuthUtils.code params = EmptyString
       /\ Some (OAuthUtils.codeVerifier params)
          = option_map OAuthServer.verifier (OAuthServer.pkce (OAuthServer.oauthState w))
       /\ Some (OAuthUtils.redirectUri params)
          = option_map OAuthServer.redirect_uri (OAuthServer.port (OAuthServer.oauthState w))
       /\ OAuthServer.handleCallback Scenario.token_endpoint_up 1700000000000 q w
          = OAuthServer.handleCallback_resume
              (OAuthUtils.exchangeAuthorizationCode Scenario.token_endpoint_up
                 1700000000000 params)
              (OAuthServer.set_exchanges (OAuthServer.exchanges w ++ [params]) w).
Proof.
  assert (OAuthServer.q_state
            (Scenario.redirect (Some "#state=xyz") (Some Scenario.session_state) None)
          = OAuthServer.state (OAuthServer.oauthState
              (OAuthServer.run
                 [OAuthServer.StartCalled;
                  OAuthServer.PortSearchDone 0 Scenario.all_free Scenario.random_a
                    Scenario.random_b (Ok tt)] OAuthServer.initial))) as Hstate
    by (vm_compute; reflexivity).
  split.
  - split; [reflexivity|]. split; [reflexivity|]. split; [exact Hstate | reflexivity].
  - exact (hash_code_exchanged_as_empty
             [OAuthServer.StartCalled;
              OAuthServer.PortSearchDone 0 Scenario.all_free Scenario.random_a
                Scenario.random_b (Ok tt)]
             Scenario.token_endpoint_up 1700000000000
             (Scenario.redirect (Some "#state=xyz") (Some Scenario.session_state) None)
             "state=xyz" eq_refl eq_refl Hstate eq_refl).
Defined.

(** ** PKCE (oauth-server.ts)                                             *)

Section PKCE.
Import OAuthServer.

Lemma compress_length (h block : list Z) :
  List.length h = 8%nat -> List.length (Sha256.compress h block) = 8%nat.
Proof.
  intros H. unfold Sha256.compress.
  rewrite length_map, length_combine, H. reflexivity.
Qed.

Lemma blocks_length : forall (n : nat) (h bs : list Z),
  List.length h = 8%nat -> List.length (Sha256.blocks n h bs) = 8%nat.
Proof.
  induction n as [|n IH]; intros h bs H; simpl; [exact H|].
  apply IH, compress_length, H.
Qed.

Lemma flat_map_length_const {A B : Type} (f : A -> list B) (k : nat) (l : list A) :
  (forall a, List.length (f a) = k) ->
  List.length (flat_map f l) = (k * List.length l)%nat.
Proof.
  intros Hf. induction l as [|a l IH]; simpl; [lia|].
  rewrite length_app, Hf, IH. lia.
Qed.

(** A SHA-256 digest has 32 bytes, whatever was hashed. *)
Lemma sha256_length (msg : list Z) : List.length (Sha256.sha256 msg) = 32%nat.
Proof.
  unfold Sha256.sha256. cbv zeta.
  rewrite (flat_map_length_const _ 4) by reflexivity.
  rewrite blocks_length by reflexivity. reflexivity.
Qed.

(** C4, as the code has it. For the 32 random bytes it draws,
    [generatePKCE] returns as verifier their base64url encoding, 43
    characters that decode to those bytes, and as challenge the base64url
    encoding (43 characters) of the SHA-256 digest of the verifier string
    itself, that is of its 43 ASCII characters. *)
Theorem generatePKCE_spec (randomBytes : list Z) :
  List.length randomBytes = 32%nat ->
  bytes_ok randomBytes ->
  let p := generatePKCE randomBytes in
  verifier p = Base64.base64url randomBytes
  /\ String.length (verifier p) = 43%nat
  /\ Base64.decode (verifier p) = randomBytes
  /\ challenge p = Base64.base64url (Sha256.sha256 (ascii_bytes (verifier p)))
  /\ String.length (challenge p) = 43%nat.
Proof.
  intros Hlen Hbytes p. subst p. unfold generatePKCE. cbn [verifier challenge].
  repeat split.
  - now apply base64url_length_32.
  - now apply decode_base64url.
  - apply base64url_length_32, sha256_length.
Qed.

End PKCE.

Lemma generatePKCE_witness :
  List.length Scenario.random_a = 32%nat
  /\ bytes_ok Scenario.random_a
  /\ let p := OAuthServer.generatePKCE Scenario.random_a in
     OAuthServer.verifier p = Base64.base64url Scenario.random_a
     /\ String.length (OAuthServer.verifier p) = 43%nat
     /\ Base64.decode (OAuthServer.verifier p) = Scenario.random_a
     /\ OAuthServer.challenge p
        = Base64.base64url (Sha256.sha256 (ascii_bytes (OAuthServer.verifier p)))
     /\ String.length (OAuthServer.challenge p) = 43%nat.
Proof.
  assert (List.length Scenario.random_a = 32%nat) as Hlen by reflexivity.
  assert (bytes_ok Scenario.random_a) as Hbytes
    by (apply bytes_ok_check; reflexivity).
  split; [exact Hlen|]. split; [exact Hbytes|].
  exact (generatePKCE_spec Scenario.random_a Hlen Hbytes).
Defined.

(** C4, as stated, fails: for the random bytes 0, 1, ..., 31 the verifier
    decodes to those bytes, and the challenge is not the base64url encoding
    of their SHA-256 digest. *)
Lemma challenge_not_digest_of_raw_bytes :
  let p := OAuthServer.generatePKCE Scenario.random_a in
  OAuthServer.verifier p = Base64.base64url Scenario.random_a
  /\ Base64.decode (OAuthServer.verifier p) = Scenario.random_a
  /\ OAuthServer.challenge p = "6oZqdX5MOLq_qBJ8vppAnT4fk6AP8UiP9zX8-Rev_9A"
  /\ Base64.base64url (Sha256.sha256 (Base64.decode (OAuthServer.verifier p)))
     = "Yw3NKWbEM2aRElRIu7JbT_QSpJxzLbLIq8G4WBvXEN0"
  /\ OAuthServer.challenge p
     <> Base64.base64url (Sha256.sha256 (Base64.decode (OAuthServer.verifier p))).
Proof.
  vm_compute. repeat split. discriminate.
Qed.

(** ** The credential store (claude-code.ts)                              *)

Section CredentialStore.
Import Utf8 ClaudeCode.

Lemma find_after_delete (key : string) (row : Credential) (db : Table) :
  id row = key -> db_get key (db_insert row (db_delete key db)) = Some row.
Proof.
  intros Hid. unfold db_get, db_insert, db_delete.
  induction db as [|r db IH]; simpl.
  - now rewrite Hid, String.eqb_refl.
  - destruct (String.eqb (id r) key) eqn:E; simpl; [exact IH|].
    rewrite E. exact IH.
Qed.

Lemma getToken_after_store (ss : SafeStorage) (now : Z) (db : Table) (encrypted : string) :
  getToken ss
    (db_insert {| id := "default"; oauthToken := encrypted; connectedAt := now;
                  userId := None |} (db_delete "default" db))
  = if String.eqb encrypted EmptyString
    then {| token := None; error := Some "Not connected" |}
    else match decryptToken ss encrypted with
         | Ok t => {| token := Some t; error := None |}
         | Throw _ => {| token := None; error := Some "Failed to decrypt token" |}
         end.
Proof. unfold getToken. rewrite find_after_delete by reflexivity. reflexivity. Qed.

Lemma getToken_after_disconnect (ss : SafeStorage) (db : Table) :
  getToken ss (disconnect db) = {| token := None; error := Some "Not connected" |}.
Proof.
  unfold getToken, disconnect, db_get, db_delete.
  assert (find (fun r => String.eqb (id r) "default")
            (filter (fun r => negb (String.eqb (id r) "default")) db) = None) as ->;
    [|reflexivity].
  induction db as [|r db IH]; simpl; [reflexivity|].
  destruct (String.eqb (id r) "default") eqn:E; simpl; [exact IH|].
  now rewrite E.
Qed.

Lemma nonempty_base64 (bs : list Z) : bs <> [] -> String.eqb (Base64.base64 bs) EmptyString = false.
Proof.
  intros H. destruct (String.eqb_spec (Base64.base64 bs) EmptyString) as [E|]; trivial.
  apply base64_empty in E. contradiction.
Qed.


End CredentialStore.

Section StoreScenarioFacts.
Import Utf8 ClaudeCode StoreScenario.

Example fallback_roundtrip :
  storeOAuthToken no_safeStorage 7 sample_token [old_row]
  = Ok [{| id := "default"; oauthToken := "c2stYW50LW9hdDAx"; connectedAt := 7;
           userId := None |}]
  /\ getToken no_safeStorage
       [{| id := "default"; oauthToken := "c2stYW50LW9hdDAx"; connectedAt := 7;
           userId := None |}]
     = {| token := Some sample_token; error := None |}.
Proof. vm_compute. auto. Qed.

End StoreScenarioFacts.



(* ===================================================================== *)
(** * Further properties of the same files                                *)
(* ===================================================================== *)

(** ** The pages (oauth-server.ts)                                        *)

Section PageFacts.
Import Pages.

Lemma occurrences_app (c : ascii) (a b : string) :
  occurrences c (a ++ b) = (occurrences c a + occurrences c b)%nat.
Proof. induction a as [|x a IH]; simpl; [reflexivity|]. rewrite IH. lia. Qed.

Lemma inert_char (c : ascii) (rest : string) :
  inert (escape_char c ++ rest) = inert rest.
Proof.
  unfold escape_char.
  destruct (Ascii.eqb c "&"%char) eqn:Eamp; [reflexivity|].
  destruct (Ascii.eqb c "<"%char) eqn:Elt; [reflexivity|].
  destruct (Ascii.eqb c ">"%char) eqn:Egt; [reflexivity|].
  destruct (Ascii.eqb c (ascii_of_N 34)) eqn:Equot; [reflexivity|].
  destruct (Ascii.eqb c "'"%char) eqn:Eapos; [reflexivity|].
  cbn [append inert]. unfold markup. rewrite Eamp, Elt, Egt, Equot, Eapos. reflexivity.
Qed.

Lemma escapeHtml_is_inert (text : string) : inert (escapeHtml text) = true.
Proof.
  induction text as [|c r IH]; [reflexivity|].
  cbn [escapeHtml]. rewrite inert_char. exact IH.
Qed.

Lemma inert_no_markup (c : ascii) (s : string) :
  markup c = true -> inert s = true -> occurrences c s = 0%nat.
Proof.
  intros Hc. induction s as [|a s IH]; [reflexivity|].
  cbn [inert occurrences]. intros H.
  apply andb_prop in H. destruct H as [H Hs].
  apply andb_prop in H. destruct H as [Ha _].
  destruct (Ascii.eqb_spec a c) as [->|_].
  - rewrite Hc in Ha. discriminate.
  - now rewrite (IH Hs).
Qed.

Lemma escapeHtml_plain (text : string) : plain_text text = true -> escapeHtml text = text.
Proof.
  induction text as [|c r IH]; [reflexivity|].
  cbn [plain_text escapeHtml]. intros H. apply andb_prop in H. destruct H as [Hc Hr].
  rewrite (IH Hr). unfold special, markup in Hc.
  apply negb_true_iff in Hc. repeat (apply orb_false_elim in Hc; destruct Hc as [Hc ?]).
  unfold escape_char.
  repeat match goal with H : Ascii.eqb c _ = false |- _ => rewrite H; clear H end.
  reflexivity.
Qed.

(** X1. Whatever the text is, [escapeHtml] returns text with none of the
    characters that open or close a tag or an attribute value, in which
    every ampersand opens one of the five entities it writes; and it returns
    a text that has none of the five characters as it is. *)
Theorem escapeHtml_inert (text : string) :
  inert (escapeHtml text) = true
  /\ (plain_text text = true -> escapeHtml text = text).
Proof. split; [apply escapeHtml_is_inert | apply escapeHtml_plain]. Qed.

(** X2. The message of an error page adds no markup to it: whatever the
    message is, the page has the 20 opening and 20 closing angle brackets, the
    6 double quotes and the 2 apostrophes of the template, and it is the
    template with the escaped message in its one slot. *)
Theorem getErrorHTML_markup_fixed (message : string) :
  getErrorHTML message = error_head ++ escapeHtml message ++ error_tail
  /\ occurrences "<"%char (getErrorHTML message) = 20%nat
  /\ occurrences ">"%char (getErrorHTML message) = 20%nat
  /\ occurrences (ascii_of_N 34) (getErrorHTML message) = 6%nat
  /\ occurrences "'"%char (getErrorHTML message) = 2%nat.
Proof.
  split; [reflexivity|]. unfold getErrorHTML.
  repeat split; rewrite !occurrences_app;
    match goal with
    | |- context [occurrences ?c (escapeHtml message)] =>
        rewrite (inert_no_markup c (escapeHtml message) eq_refl
                   (escapeHtml_is_inert message))
    end; reflexivity.
Qed.

End PageFacts.

(** ** Tearing down, cancelling, timing out (oauth-server.ts)             *)

Section Teardown.
Import OAuthUtils OAuthServer Session.

Lemma not_armed_after_clear (t : nat) (l : list nat) :
  existsb (Nat.eqb t) (filter (fun x => negb (Nat.eqb x t)) l) = false.
Proof.
  induction l as [|x l IH]; [reflexivity|]. simpl.
  destruct (Nat.eqb x t) eqn:E; simpl; [exact IH|].
  rewrite Nat.eqb_sym, E. exact IH.
Qed.

Lemma not_listening_after_close (srv : nat) (l : list (nat * Z)) :
  existsb (fun e => Nat.eqb (fst e) srv)
    (filter (fun e => negb (Nat.eqb (fst e) srv)) l) = false.
Proof.
  induction l as [|x l IH]; [reflexivity|]. simpl.
  destruct (Nat.eqb (fst x) srv) eqn:E; simpl; [exact IH|].
  rewrite E. exact IH.
Qed.

Lemma cleanup_twice (w : World) : cleanup (cleanup w) = cleanup w.
Proof. reflexivity. Qed.

Lemma cleanup_closes (w : World) (srv : nat) :
  server (oauthState w) = Some srv -> is_listening srv (cleanup w) = false.
Proof.
  intros H. unfold cleanup.
  destruct (timeoutId (oauthState w)); simpl; rewrite H; simpl;
    apply not_listening_after_close.
Qed.

Lemma cleanup_disarms (w : World) (t : nat) :
  timeoutId (oauthState w) = Some t -> armed t (cleanup w) = false.
Proof.
  intros H. unfold cleanup. rewrite H. simpl.
  destruct (server (oauthState w)); simpl; apply not_armed_after_clear.
Qed.

(** X3. [cleanup()] may be called any number of times: a second call changes
    nothing. After it no field of [oauthState] is set, no flow is in
    progress, the listener the session owned is closed and its timer is
    disarmed; the promises are left as they were. *)
Theorem cleanup_releases (w : World) :
  cleanup (cleanup w) = cleanup w
  /\ oauthState (cleanup w) = idle
  /\ isOAuthFlowInProgress (cleanup w) = false
  /\ (forall srv, server (oauthState w) = Some srv -> is_listening srv (cleanup w) = false)
  /\ (forall t, timeoutId (oauthState w) = Some t -> armed t (cleanup w) = false)
  /\ promises (cleanup w) = promises w.
Proof.
  repeat split.
  - apply cleanup_closes.
  - apply cleanup_disarms.
  - apply cleanup_promises.
Qed.

Lemma outcome_last (p q : nat) (s : Settlement) (l : list (nat * Settlement)) :
  outcome q (l ++ [(p, s)])
  = match outcome q l with
    | Some x => Some x
    | None => if Nat.eqb q p then Some s else None
    end.
Proof.
  induction l as [|[r x] l IH]; simpl; [reflexivity|].
  destruct (Nat.eqb q r); [reflexivity | exact IH].
Qed.

Lemma settle_outcome (p q : nat) (s : Settlement) (w : World) :
  outcome q (promises (settle p s w))
  = match outcome q (promises w) with
    | Some x => Some x
    | None => if Nat.eqb q p then Some s else None
    end.
Proof.
  unfold settle. destruct (outcome p (promises w)) eqn:E; simpl.
  - destruct (outcome q (promises w)) eqn:Eq; [reflexivity|].
    destruct (Nat.eqb_spec q p) as [->|_]; [congruence | reflexivity].
  - apply outcome_last.
Qed.

(** X4. [cancelOAuthFlow()] rejects the promise of the session with the
    cancellation error if that promise is still pending (a promise already
    settled keeps its outcome), settles nothing when no session is recorded,
    and in every case ends with no field of [oauthState] set, the session's
    listener closed and its timer disarmed. A second call changes nothing. *)
Theorem cancelOAuthFlow_rejects_and_releases (w : World) :
  let w' := cancelOAuthFlow w in
  (forall p, rejectCallback (oauthState w) = Some p ->
     outcome p (promises w')
     = Some (match outcome p (promises w) with
             | Some s => s
             | None => Rejected "OAuth flow cancelled"
             end))
  /\ (rejectCallback (oauthState w) = None -> promises w' = promises w)
  /\ oauthState w' = idle
  /\ isOAuthFlowInProgress w' = false
  /\ (forall srv, server (oauthState w) = Some srv -> is_listening srv w' = false)
  /\ (forall t, timeoutId (oauthState w) = Some t -> armed t w' = false)
  /\ cancelOAuthFlow w' = w'.
Proof.
  intros w'. subst w'. unfold cancelOAuthFlow.
  destruct (rejectCallback (oauthState w)) as [p|] eqn:Hp.
  - destruct (settle_listening p (Rejected "OAuth flow cancelled") w) as [Hl Hs].
    repeat split.
    + intros p' [= <-]. rewrite cleanup_promises, settle_outcome, Nat.eqb_refl.
      destruct (outcome p (promises w)); reflexivity.
    + discriminate.
    + intros srv H. apply cleanup_closes. now rewrite Hs.
    + intros t H. apply cleanup_disarms. now rewrite Hs.
  - repeat split.
    + discriminate.
    + intros _. apply cleanup_promises.
    + apply cleanup_closes.
    + apply cleanup_disarms.
Qed.

End Teardown.

(** ** Starting a flow (oauth-server.ts)                                  *)

Section Starting.
Import OAuthUtils OAuthServer Session.

Variables (f : nat) (net : Loopback) (randomVerifier randomState : list Z).

(** The state a start leaves when a port was found and the browser opened. *)
Lemma startOAuthFlow_opened (w : World) (p : Z) :
  findAvailablePort net portRange_min portRange_max = Ok p ->
  let w1 := startOAuthFlow f net randomVerifier randomState (Ok tt) w in
  oauthState w1
  = waiting f p (generatePKCE randomVerifier) (Base64.base64url randomState)
  /\ armed f w1 = true
  /\ promises w1 = promises w
  /\ exchanges w1 = exchanges w
  /\ browser w1
     = (browser w ++ [authorization_url p (Base64.base64url randomState)
                        (generatePKCE randomVerifier)])%list.
Proof.
  intros Hp w1. subst w1.
  unfold startOAuthFlow, startOAuthFlow_begin, startOAuthFlow_resume.
  rewrite Hp. cbv zeta.
  pose proof (cleanup_promises w) as Hpr.
  pose proof (cleanup_exchanges w) as Hex.
  assert (browser (cleanup w) = browser w) as Hbr
    by (unfold cleanup, clearTimeout, close_server;
        destruct (timeoutId (oauthState w)); simpl;
        destruct (server (oauthState w)); reflexivity).
  generalize dependent (cleanup w). intros c Hpr Hex Hbr.
  unfold server_listen. destruct (port_bound p _); simpl.
  - repeat split; trivial.
    + unfold armed. simpl. rewrite existsb_app. simpl.
      rewrite Nat.eqb_refl. apply orb_true_r.
    + now rewrite Hbr.
  - repeat split; trivial.
    + unfold armed. simpl. rewrite existsb_app. simpl.
      rewrite Nat.eqb_refl. apply orb_true_r.
    + now rewrite Hbr.
Qed.

(** X5. A flow that was started (port found, browser opened) and whose timer
    fires before any callback is rejected with the time-out error, provided
    its promise was fresh; afterwards no flow is in progress, the flow's
    listener is closed and its timer is gone. *)
Theorem timeout_rejects_and_releases (w : World) (p : Z) :
  findAvailablePort net portRange_min portRange_max = Ok p ->
  pending f w ->
  let w2 := run [StartCalled;
                 PortSearchDone f net randomVerifier randomState (Ok tt);
                 TimerFires f] w in
  outcome f (promises w2) = Some (Rejected "OAuth flow timed out after 5 minutes")
  /\ oauthState w2 = idle
  /\ isOAuthFlowInProgress w2 = false
  /\ is_listening f w2 = false
  /\ armed f w2 = false.
Proof.
  intros Hp Hfresh w2. subst w2.
  change (run [StartCalled; PortSearchDone f net randomVerifier randomState (Ok tt);
               TimerFires f] w)
    with (step (startOAuthFlow f net randomVerifier randomState (Ok tt) w) (TimerFires f)).
  destruct (startOAuthFlow_opened w p Hp) as (Hs & Harmed & Hpr & _).
  generalize dependent (startOAuthFlow f net randomVerifier randomState (Ok tt) w).
  intros w1 Hs Harmed Hpr. cbn [step]. rewrite Harmed. unfold on_timeout.
  assert (oauthState (clearTimeout f w1) = oauthState w1) as Hc by reflexivity.
  destruct (settle_listening f (Rejected "OAuth flow timed out after 5 minutes")
              (cleanup (clearTimeout f w1))) as [Hl Ho].
  repeat split.
  - rewrite settle_outcome, cleanup_promises. simpl. rewrite Hpr.
    unfold pending in Hfresh. rewrite Hfresh, Nat.eqb_refl. reflexivity.
  - exact Ho.
  - unfold isOAuthFlowInProgress. now rewrite Ho.
  - unfold is_listening. rewrite Hl. apply cleanup_closes. now rewrite Hc, Hs.
  - unfold armed.
    replace (timers (settle f (Rejected "OAuth flow timed out after 5 minutes")
                       (cleanup (clearTimeout f w1))))
      with (timers (cleanup (clearTimeout f w1)))
      by (unfold settle; destruct (outcome f _); reflexivity).
    apply cleanup_disarms. now rewrite Hc, Hs.
Qed.

(** X6. When no port of the range binds, the start rejects its promise (if
    fresh) with the no-available-ports error, binds no listener, arms no
    timer, opens no browser and leaves no field of [oauthState] set. *)
Theorem start_without_port_rejects (w : World) (opened : result unit) :
  (forall q, portRange_min <= q <= portRange_max -> checkPortAvailable net q = Ok false) ->
  pending f w ->
  let w1 := run [StartCalled; PortSearchDone f net randomVerifier randomState opened] w in
  outcome f (promises w1)
  = Some (Rejected "No available ports in range 21300-21399")
  /\ oauthState w1 = idle
  /\ listening w1 = listening (cleanup w)
  /\ timers w1 = timers (cleanup w)
  /\ browser w1 = browser w.
Proof.
  intros Hall Hfresh w1. subst w1.
  change (run [StartCalled; PortSearchDone f net randomVerifier randomState opened] w)
    with (startOAuthFlow_resume f net randomVerifier randomState opened (cleanup w)).
  unfold startOAuthFlow_resume.
  pose proof (findAvailablePort_outcome net portRange_min portRange_max) as H.
  destruct (findAvailablePort_probes net portRange_min portRange_max) as [probed r].
  destruct H as [<- H]. destruct r as [p|message].
  - destruct H as (Hr & Hav & _). rewrite (Hall p Hr) in Hav. discriminate.
  - destruct H as [(_ & _ & ->) | (p & Hr & Hp & _)];
      [|rewrite (Hall p Hr) in Hp; discriminate].
    change ("No available ports in range " ++ show_Z portRange_min ++ "-"
              ++ show_Z portRange_max)
      with "No available ports in range 21300-21399".
    set (e := Rejected "No available ports in range 21300-21399").
    assert (forall x, settle f e x = set_promises (promises x ++ [(f, e)]) x
                      \/ settle f e x = x) as Hcases
      by (intros x; unfold settle; destruct (outcome f (promises x)); auto).
    repeat split.
    + rewrite settle_outcome, cleanup_twice, cleanup_promises.
      unfold pending in Hfresh. rewrite Hfresh, Nat.eqb_refl. reflexivity.
    + destruct (Hcases (cleanup (cleanup w))) as [-> | ->]; reflexivity.
    + destruct (Hcases (cleanup (cleanup w))) as [-> | ->]; reflexivity.
    + destruct (Hcases (cleanup (cleanup w))) as [-> | ->]; reflexivity.
    + destruct (Hcases (cleanup (cleanup w))) as [-> | ->]; simpl;
        unfold cleanup, clearTimeout, close_server;
        destruct (timeoutId (oauthState w)); simpl;
        destruct (server (oauthState w)); reflexivity.
Qed.

(** X7. When the browser cannot be opened, the start rejects its promise (if
    fresh) with the error of [shell.openExternal] and takes back what it had
    set up: the listener it bound is closed, its timer is disarmed, no field
    of [oauthState] stays set. *)
Theorem start_without_browser_rejects (w : World) (p : Z) (e : string) :
  findAvailablePort net portRange_min portRange_max = Ok p ->
  pending f w ->
  let w1 := run [StartCalled;
                 PortSearchDone f net randomVerifier randomState (Throw e)] w in
  outcome f (promises w1) = Some (Rejected e)
  /\ oauthState w1 = idle
  /\ is_listening f w1 = false
  /\ armed f w1 = false.
Proof.
  intros Hp Hfresh w1. subst w1.
  change (run [StartCalled; PortSearchDone f net randomVerifier randomState (Throw e)] w)
    with (startOAuthFlow_resume f net randomVerifier randomState (Throw e) (cleanup w)).
  pose proof (startOAuthFlow_opened w p Hp) as H. cbv zeta in H.
  unfold startOAuthFlow, startOAuthFlow_begin in H.
  unfold startOAuthFlow_resume in *. rewrite Hp in *. cbv zeta in *.
  destruct H as (Hs & Harmed & Hpr & _).
  match type of Hs with oauthState ?x = _ => generalize dependent x end.
  intros w5 Hs Harmed Hpr.
  destruct (settle_listening f (Rejected e) (cleanup w5)) as [Hl Ho].
  repeat split.
  - rewrite settle_outcome, cleanup_promises, Hpr.
    unfold pending in Hfresh. rewrite Hfresh, Nat.eqb_refl. reflexivity.
  - exact Ho.
  - unfold is_listening. rewrite Hl. apply cleanup_closes. now rewrite Hs.
  - unfold armed.
    replace (timers (settle f (Rejected e) (cleanup w5))) with (timers (cleanup w5))
      by (unfold settle; destruct (outcome f _); reflexivity).
    apply cleanup_disarms. now rewrite Hs.
Qed.

End Starting.

(** ** What a callback can and cannot do (oauth-server.ts)                *)

Section Handling.
Import OAuthUtils OAuthServer Session.

Variables (fetch : Fetch) (now : Z).

Lemma grown_list_differs {A : Type} (l : list A) (x : A) : (l ++ [x])%list <> l.
Proof.
  intros H. apply (f_equal (@List.length A)) in H.
  rewrite length_app in H. simpl in H. lia.
Qed.

Lemma handleCallback_resume_exchanges (r : result OAuthTokens) (w : World) :
  exchanges (handleCallback_resume r w) = exchanges w.
Proof.
  destruct r as [tokens|message]; unfold handleCallback_resume; cbv zeta.
  - rewrite call_resolveCallback_after_cleanup, cleanup_exchanges. reflexivity.
  - apply fail_callback_exchanges.
Qed.

Lemma handleCallback_resume_replies (r : result OAuthTokens) (w : World) :
  replies (handleCallback_resume r w)
  = (replies w ++ [html match r with
                        | Ok _ => SuccessHTML
                        | Throw message => ErrorHTML message
                        end])%list.
Proof.
  destruct r as [tokens|message]; unfold handleCallback_resume; cbv zeta.
  - rewrite call_resolveCallback_after_cleanup, cleanup_replies. reflexivity.
  - apply fail_callback_replies.
Qed.

(** The guard of [exchangeCodeForTokens] either throws, leaving everything
    as it was, or lets the call through with the session's port and
    verifier. *)
Lemma exchangeCodeForTokens_cases (c : string) (w : World) :
  exchangeCodeForTokens fetch now c w = (w, Throw "OAuth state not initialized")
  \/ exists k p,
       pkce (oauthState w) = Some k /\ port (oauthState w) = Some p /\ p <> 0
       /\ exchangeCodeForTokens fetch now c w
          = (set_exchanges
               (exchanges w ++ [{| code := c; redirectUri := redirect_uri p;
                                   codeVerifier := verifier k |}]) w,
             exchangeAuthorizationCode fetch now
               {| code := c; redirectUri := redirect_uri p; codeVerifier := verifier k |}).
Proof.
  unfold exchangeCodeForTokens.
  destruct (pkce (oauthState w)) as [k|]; [|now left].
  destruct (port (oauthState w)) as [p|]; [|now left].
  destruct (Z.eqb_spec p 0); [now left|].
  right. exists k, p. auto.
Qed.

Lemma authCode_cut (c : string) : cut_at "#"%char c (authCode_of c).
Proof.
  unfold authCode_of, cut_at.
  induction c as [|a r IH]; [split; [reflexivity | now left]|].
  cbn [includes split_head Pages.occurrences].
  destruct (Ascii.eqb a "#"%char) eqn:Ha; cbn [orb].
  - apply Ascii.eqb_eq in Ha. subst a.
    split; [reflexivity | right; now exists r].
  - destruct (includes "#"%char r).
    + destruct IH as [Hn [He | [rest He]]].
      * split; [cbn [Pages.occurrences]; now rewrite Ha, Hn|]. left. now f_equal.
      * split; [cbn [Pages.occurrences]; now rewrite Ha, Hn|].
        right. exists rest. cbn [append]. now f_equal.
    + destruct IH as [Hn _].
      split; [cbn [Pages.occurrences]; now rewrite Ha, Hn | now left].
Qed.

(** X8. The token endpoint is contacted only for a callback that carries
    no error, a code, and a state equal to the one the session holds; the
    call is then made once, with the code cut at its first [#] (what is
    sent has no [#], and the code is what is sent, alone or followed by a
    [#] and a rest), the session's redirect URI and the session's
    verifier. *)
Theorem exchange_only_for_session_state (q : Query) (w : World) :
  exchanges (handleCallback fetch now q w) <> exchanges w ->
  truthy (q_error q) = false
  /\ truthy (q_state q) = true
  /\ q_state q = state (oauthState w)
  /\ truthy (q_code q) = true
  /\ exists sent k p,
       cut_at "#"%char (text (q_code q)) sent
       /\ pkce (oauthState w) = Some k /\ port (oauthState w) = Some p
       /\ exchanges (handleCallback fetch now q w)
          = (exchanges w ++ [{| code := sent;
                                redirectUri := redirect_uri p;
                                codeVerifier := verifier k |}])%list.
Proof.
  unfold handleCallback.
  destruct (truthy (q_error q)); [rewrite fail_callback_exchanges; congruence|].
  destruct (truthy (q_state q)); cbn [negb orb];
    [|rewrite fail_callback_exchanges; congruence].
  destruct (differs (q_state q) (state (oauthState w))) eqn:Hd;
    [rewrite fail_callback_exchanges; congruence|].
  destruct (truthy (q_code q)); cbn [negb];
    [|rewrite fail_callback_exchanges; congruence].
  assert (q_state q = state (oauthState w)) as Hs.
  { destruct (q_state q) as [a|], (state (oauthState w)) as [b|]; simpl in Hd;
      try discriminate; trivial.
    apply negb_false_iff, String.eqb_eq in Hd. now subst. }
  fold (authCode_of (text (q_code q))).
  pose proof (authCode_cut (text (q_code q))) as Hcut.
  destruct (exchangeCodeForTokens_cases (authCode_of (text (q_code q))) w)
    as [-> | (k & p & Hk & Hp & _ & ->)].
  - rewrite handleCallback_resume_exchanges. congruence.
  - rewrite handleCallback_resume_exchanges. intros _.
    repeat split; trivial. exists (authCode_of (text (q_code q))), k, p. auto.
Qed.

(** X9. An [error] parameter decides the callback before anything else is
    looked at: whatever state and code come with it, the page shows
    [error_description] if there is one and [error] otherwise, the token
    endpoint is not contacted and the session is torn down. *)
Theorem provider_error_first (q : Query) (w : World) :
  truthy (q_error q) = true ->
  let w' := handleCallback fetch now q w in
  replies w'
  = (replies w ++ [html (ErrorHTML (or_else (q_error_description q) (text (q_error q))))])%list
  /\ exchanges w' = exchanges w
  /\ oauthState w' = idle.
Proof.
  intros H w'. subst w'. unfold handleCallback. rewrite H.
  repeat split.
  - apply fail_callback_replies.
  - apply fail_callback_exchanges.
Qed.

(** X10. Every callback is answered with exactly one page, always with
    status 200, and ends the session; the success page is written only when
    the token endpoint was contacted. *)
Theorem callback_answered_once (q : Query) (w : World) :
  let w' := handleCallback fetch now q w in
  exists pg,
    replies w' = (replies w ++ [html pg])%list
    /\ oauthState w' = idle
    /\ (pg = SuccessHTML -> exchanges w' <> exchanges w).
Proof.
  intros w'. subst w'. unfold handleCallback.
  destruct (truthy (q_error q));
    [eexists; rewrite fail_callback_replies; repeat split; discriminate|].
  destruct (negb (truthy (q_state q)) || differs (q_state q) (state (oauthState w)));
    [eexists; rewrite fail_callback_replies; repeat split; discriminate|].
  destruct (negb (truthy (q_code q)));
    [eexists; rewrite fail_callback_replies; repeat split; discriminate|].
  fold (authCode_of (text (q_code q))).
  destruct (exchangeCodeForTokens_cases (authCode_of (text (q_code q))) w)
    as [-> | (k & p & _ & _ & _ & ->)].
  - eexists. split; [rewrite handleCallback_resume_replies; reflexivity|].
    split; [apply handleCallback_resume_idle | discriminate].
  - eexists. split; [rewrite handleCallback_resume_replies; reflexivity|].
    split; [apply handleCallback_resume_idle|].
    intros _. rewrite handleCallback_resume_exchanges. apply grown_list_differs.
Qed.

(** While the exchange is awaited the session is as it was, its state
    included: the record is cleared only by the continuation. *)
Lemma exchangeCodeForTokens_keeps_session (c : string) (w : World) :
  oauthState (fst (exchangeCodeForTokens fetch now c w)) = oauthState w.
Proof.
  destruct (exchangeCodeForTokens_cases c w) as [-> | (k & p & _ & _ & _ & ->)];
    reflexivity.
Qed.

(** X11. Once a callback has been answered, the state is spent. Whether the
    callback was handled in one go or its continuation ran after the
    awaited exchange, in whatever state the process then was, a callback
    handled after that, without [error] and whatever state and code it
    carries, gets the CSRF failure page, the token endpoint is not
    contacted, and the record stays empty. (Until the continuation runs,
    the state is still set.) *)
Theorem state_spent_once_answered (q1 q2 : Query) (r : result OAuthTokens)
    (w w1 : World) :
  truthy (q_error q2) = false ->
  w1 = handleCallback fetch now q1 w \/ w1 = handleCallback_resume r w ->
  let w2 := handleCallback fetch now q2 w1 in
  replies w2 = (replies w1 ++ [csrf_page])%list
  /\ exchanges w2 = exchanges w1
  /\ oauthState w2 = idle.
Proof.
  intros Herr Hw1 w2. subst w2.
  assert (oauthState w1 = idle) as Hidle
    by (destruct Hw1 as [-> | ->];
        [apply handleCallback_idle | apply handleCallback_resume_idle]).
  clear Hw1. split; [|split; [|apply handleCallback_idle]];
    unfold handleCallback; rewrite Herr, Hidle;
    (assert (negb (truthy (q_state q2)) || differs (q_state q2) (state idle) = true) as ->
       by (destruct (q_state q2) as [s|]; [apply orb_true_r | reflexivity]));
    [apply fail_callback_replies | apply fail_callback_exchanges].
Qed.

(** X12. When the token endpoint answers with a status that is not OK, the
    page shows the status and the body of the answer, the call is recorded
    once and the session is torn down. *)
Theorem failed_exchange_page (q : Query) (w : World) (k : PKCEChallenge) (p : Z)
    (response : Response) :
  truthy (q_error q) = false ->
  truthy (q_state q) = true ->
  q_state q = state (oauthState w) ->
  truthy (q_code q) = true ->
  pkce (oauthState w) = Some k ->
  port (oauthState w) = Some p ->
  p <> 0 ->
  let params := {| code := authCode_of (text (q_code q));
                   redirectUri := redirect_uri p; codeVerifier := verifier k |} in
  fetch (exchange_request params) = Ok response ->
  resp_ok response = false ->
  let w' := handleCallback fetch now q w in
  replies w'
  = (replies w
     ++ [html (ErrorHTML ("Token exchange failed: " ++ show_Z (resp_status response)
                            ++ " - " ++ resp_text response))])%list
  /\ exchanges w' = (exchanges w ++ [params])%list
  /\ oauthState w' = idle.
Proof.
  intros Herr Hst Heq Hcode Hk Hp Hp0 params Hfetch Hok w'. subst w'.
  unfold handleCallback. rewrite Herr, Hst, Hcode. cbn [negb orb].
  assert (differs (q_state q) (state (oauthState w)) = false) as ->.
  { rewrite <- Heq. destruct (q_state q); simpl; [|reflexivity].
    now rewrite String.eqb_refl. }
  fold (authCode_of (text (q_code q))).
  unfold exchangeCodeForTokens. rewrite Hk, Hp.
  destruct (Z.eqb_spec p 0); [contradiction|].
  fold params.
  assert (exchangeAuthorizationCode fetch now params
          = Throw ("Token exchange failed: " ++ show_Z (resp_status response)
                     ++ " - " ++ resp_text response)) as ->
    by (unfold exchangeAuthorizationCode; rewrite Hfetch; simpl; now rewrite Hok).
  split; [rewrite handleCallback_resume_replies; reflexivity|].
  split; [rewrite handleCallback_resume_exchanges; reflexivity|].
  apply handleCallback_resume_idle.
Qed.

End Handling.

(** ** From the browser to the token endpoint (oauth-server.ts)           *)

Section WholeFlow.
Import OAuthUtils OAuthServer Session.

Lemma base64url_empty (bs : list Z) : Base64.base64url bs = EmptyString -> bs = [].
Proof. destruct bs as [|a [|b [|c r]]]; trivial; discriminate. Qed.

(** X13. What the token endpoint is sent matches what the browser was sent.
    For a flow that was started (port found, browser opened) and whose
    redirect comes back with the state of the flow and a code, the exchange
    carries the redirect URI of the authorization URL and a verifier whose
    SHA-256 digest, base64url-encoded, is the [code_challenge] of that URL;
    the URL announces the method S256, the configured client and the state
    the callback had to echo. *)
Theorem exchange_matches_authorization_url
    (fetch : Fetch) (now : Z) (f : nat) (net : Loopback)
    (randomVerifier randomState : list Z) (w : World) (p : Z) (c : string) :
  findAvailablePort net portRange_min portRange_max = Ok p ->
  randomState <> [] ->
  c <> EmptyString ->
  let w1 := startOAuthFlow f net randomVerifier randomState (Ok tt) w in
  let q := {| q_code := Some c; q_state := Some (Base64.base64url randomState);
              q_error := None; q_error_description := None |} in
  let w2 := handleCallback fetch now q w1 in
  exists url params,
    browser w1 = (browser w ++ [url])%list
    /\ exchanges w2 = (exchanges w ++ [params])%list
    /\ code params = authCode_of c
    /\ get_field "redirect_uri" (snd url) = Some (redirectUri params)
    /\ get_field "code_challenge" (snd url)
       = Some (Base64.base64url (Sha256.sha256 (ascii_bytes (codeVerifier params))))
    /\ get_field "code_challenge_method" (snd url) = Some "S256"
    /\ get_field "state" (snd url) = q_state q
    /\ get_field "client_id" (snd url) = Some OAUTH_CLIENT_ID.
Proof.
  intros Hp Hrs Hc w1 q w2. subst w2 q.
  destruct (startOAuthFlow_opened f net randomVerifier randomState w p Hp)
    as (Hs & _ & _ & Hex & Hbr).
  fold w1 in Hs, Hex, Hbr. generalize dependent w1. intros w1 Hs Hex Hbr.
  apply (findAvailablePort_returns_iff net) in Hp. destruct Hp as [Hrange _].
  exists (authorization_url p (Base64.base64url randomState) (generatePKCE randomVerifier)).
  exists {| code := authCode_of c; redirectUri := redirect_uri p;
            codeVerifier := verifier (generatePKCE randomVerifier) |}.
  split; [exact Hbr|]. split; [|repeat split].
  unfold handleCallback. cbn [q_error q_state q_code truthy].
  assert (String.eqb (Base64.base64url randomState) EmptyString = false) as ->.
  { destruct (String.eqb_spec (Base64.base64url randomState) EmptyString) as [E|]; trivial.
    apply base64url_empty in E. contradiction. }
  assert (String.eqb c EmptyString = false) as ->
    by (destruct (String.eqb_spec c EmptyString); [contradiction | reflexivity]).
  rewrite Hs. cbn [negb orb state waiting differs]. rewrite String.eqb_refl.
  cbn [negb text]. fold (authCode_of c).
  unfold exchangeCodeForTokens. rewrite Hs. cbn [pkce port waiting].
  destruct (Z.eqb_spec p 0) as [E|_]; [unfold portRange_min in Hrange; lia|].
  rewrite handleCallback_resume_exchanges. simpl. now rewrite Hex.
Qed.

Lemma startOAuthFlow_resume_state (f : nat) (net : Loopback) (rv rs : list Z)
    (opened : result unit) (w : World) :
  oauthState (startOAuthFlow_resume f net rv rs opened w) = idle
  \/ exists p, findAvailablePort net portRange_min portRange_max = Ok p
               /\ oauthState (startOAuthFlow_resume f net rv rs opened w)
                  = waiting f p (generatePKCE rv) (Base64.base64url rs).
Proof.
  unfold startOAuthFlow_resume.
  destruct (findAvailablePort net portRange_min portRange_max) as [p|e].
  - cbv zeta. destruct opened as [u|e].
    + right. exists p. split; [reflexivity|].
      unfold server_listen. destruct (port_bound p _); reflexivity.
    + left. now rewrite (proj2 (settle_listening _ _ _)).
  - left. now rewrite (proj2 (settle_listening _ _ _)).
Qed.

Lemma step_all_or_nothing (w : World) (e : Event) :
  all_or_nothing w -> all_or_nothing (step w e).
Proof.
  intros H. destruct e; cbn [step].
  - now left.
  - destruct (startOAuthFlow_resume_state f net randomVerifier randomState opened w)
      as [Hi | (p & Hp & Hw)]; [now left|].
    right. exists f, p, (generatePKCE randomVerifier), (Base64.base64url randomState).
    split; [exact Hw|]. now apply (findAvailablePort_returns_iff net) in Hp.
  - destruct (is_listening srv w); [|exact H]. unfold handleRequest.
    destruct url as [req|e]; [|exact H].
    destruct (String.eqb (pathname req) "/callback");
      [left; apply handleCallback_idle|].
    destruct (String.eqb (pathname req) "/health"); exact H.
  - left. unfold on_server_error. now rewrite (proj2 (settle_listening _ _ _)).
  - destruct (armed f w); [|exact H].
    left. unfold on_timeout. now rewrite (proj2 (settle_listening _ _ _)).
  - now left.
Qed.

(** X14. In every state the process can reach, the session record is all or
    nothing: either no field of [oauthState] is set, or the server, the
    port (one of 21300..21399), the PKCE pair, the state, both callbacks and
    the timer are all set, and they belong to one flow. *)
Theorem session_record_all_or_nothing (es : list Event) :
  all_or_nothing (run es initial).
Proof.
  assert (forall w, all_or_nothing w -> all_or_nothing (run es w)) as H.
  { induction es as [|e es IH]; intros w Hw; [exact Hw|].
    apply IH, step_all_or_nothing, Hw. }
  apply H. now left.
Qed.

End WholeFlow.

(** Witnesses of the properties above. *)

Lemma timeout_witness :
  let w2 := OAuthServer.run
              [OAuthServer.StartCalled;
               OAuthServer.PortSearchDone 0 Scenario.all_free Scenario.random_a
                 Scenario.random_b (Ok tt);
               OAuthServer.TimerFires 0] OAuthServer.initial in
  OAuthServer.outcome 0 (OAuthServer.promises w2)
  = Some (OAuthServer.Rejected "OAuth flow timed out after 5 minutes")
  /\ OAuthServer.oauthState w2 = OAuthServer.idle
  /\ OAuthServer.isOAuthFlowInProgress w2 = false
  /\ OAuthServer.is_listening 0 w2 = false
  /\ OAuthServer.armed 0 w2 = false.
Proof.
  exact (timeout_rejects_and_releases 0 Scenario.all_free Scenario.random_a
           Scenario.random_b OAuthServer.initial 21300 eq_refl eq_refl).
Defined.

Lemma start_without_port_witness :
  let w1 := OAuthServer.run
              [OAuthServer.StartCalled;
               OAuthServer.PortSearchDone 0 Fixtures.all_busy Scenario.random_a
                 Scenario.random_b (Ok tt)] OAuthServer.initial in
  OAuthServer.outcome 0 (OAuthServer.promises w1)
  = Some (OAuthServer.Rejected "No available ports in range 21300-21399")
  /\ OAuthServer.oauthState w1 = OAuthServer.idle
  /\ OAuthServer.listening w1 = OAuthServer.listening (OAuthServer.cleanup OAuthServer.initial)
  /\ OAuthServer.timers w1 = OAuthServer.timers (OAuthServer.cleanup OAuthServer.initial)
  /\ OAuthServer.browser w1 = OAuthServer.browser OAuthServer.initial.
Proof.
  assert (forall q, OAuthServer.portRange_min <= q <= OAuthServer.portRange_max ->
            OAuthServer.checkPortAvailable Fixtures.all_busy q = Ok false) as Hbusy.
  { intros q Hq. unfold OAuthServer.portRange_min, OAuthServer.portRange_max in Hq.
    unfold OAuthServer.checkPortAvailable, OAuthServer.valid_port.
    destruct (Z.leb_spec 0 q); [|lia]. destruct (Z.ltb_spec q 65536); [|lia].
    reflexivity. }
  exact (start_without_port_rejects 0 Fixtures.all_busy Scenario.random_a Scenario.random_b
           OAuthServer.initial (Ok tt) Hbusy eq_refl).
Defined.

Lemma start_without_browser_witness :
  let w1 := OAuthServer.run
              [OAuthServer.StartCalled;
               OAuthServer.PortSearchDone 0 Scenario.all_free Scenario.random_a
                 Scenario.random_b (Throw "no default browser")] OAuthServer.initial in
  OAuthServer.outcome 0 (OAuthServer.promises w1)
  = Some (OAuthServer.Rejected "no default browser")
  /\ OAuthServer.oauthState w1 = OAuthServer.idle
  /\ OAuthServer.is_listening 0 w1 = false
  /\ OAuthServer.armed 0 w1 = false.
Proof.
  exact (start_without_browser_rejects 0 Scenario.all_free Scenario.random_a
           Scenario.random_b OAuthServer.initial 21300 "no default browser"
           eq_refl eq_refl).
Defined.

Lemma exchange_only_witness :
  let q := Scenario.redirect (Some "code-1#x") (Some Scenario.session_state) None in
  let w := Scenario.awaiting in
  let w' := OAuthServer.handleCallback Scenario.token_endpoint_up 1700000000000 q w in
  OAuthServer.exchanges w'
  = [{| OAuthUtils.code := "code-1";
        OAuthUtils.redirectUri := "http://localhost:21300/callback";
        OAuthUtils.codeVerifier := "AAECAwQFBgcICQoLDA0ODxAREhMUFRYXGBkaGxwdHh8" |}]
  /\ truthy (OAuthServer.q_error q) = false
  /\ truthy (OAuthServer.q_state q) = true
  /\ OAuthServer.q_state q = OAuthServer.state (OAuthServer.oauthState w)
  /\ truthy (OAuthServer.q_code q) = true
  /\ exists sent k p,
       Session.cut_at "#"%char (OAuthServer.text (OAuthServer.q_code q)) sent
       /\ OAuthServer.pkce (OAuthServer.oauthState w) = Some k
       /\ OAuthServer.port (OAuthServer.oauthState w) = Some p
       /\ OAuthServer.exchanges w'
          = (OAuthServer.exchanges w
             ++ [{| OAuthUtils.code := sent;
                    OAuthUtils.redirectUri := OAuthServer.redirect_uri p;
                    OAuthUtils.codeVerifier := OAuthServer.verifier k |}])%list.
Proof.
  assert (OAuthServer.exchanges
            (OAuthServer.handleCallback Scenario.token_endpoint_up 1700000000000
               (Scenario.redirect (Some "code-1#x") (Some Scenario.session_state) None)
               Scenario.awaiting)
          <> OAuthServer.exchanges Scenario.awaiting) as H
    by (vm_compute; discriminate).
  split; [vm_compute; reflexivity|].
  exact (exchange_only_for_session_state Scenario.token_endpoint_up 1700000000000
           (Scenario.redirect (Some "code-1#x") (Some Scenario.session_state) None)
           Scenario.awaiting H).
Defined.

Lemma provider_error_witness :
  let q := {| OAuthServer.q_code := Some "code-1";
              OAuthServer.q_state := Some Scenario.session_state;
              OAuthServer.q_error := Some "access_denied";
              OAuthServer.q_error_description := Some "The user denied the request" |} in
  let w' := OAuthServer.handleCallback Scenario.token_endpoint_up 1700000000000 q
              Scenario.awaiting in
  OAuthServer.replies w'
  = (OAuthServer.replies Scenario.awaiting
     ++ [Session.html (OAuthServer.ErrorHTML "The user denied the request")])%list
  /\ OAuthServer.exchanges w' = OAuthServer.exchanges Scenario.awaiting
  /\ OAuthServer.oauthState w' = OAuthServer.idle.
Proof.
  exact (provider_error_first Scenario.token_endpoint_up 1700000000000
           {| OAuthServer.q_code := Some "code-1";
              OAuthServer.q_state := Some Scenario.session_state;
              OAuthServer.q_error := Some "access_denied";
              OAuthServer.q_error_description := Some "The user denied the request" |}
           Scenario.awaiting eq_refl).
Defined.

Lemma state_spent_witness :
  let q := Scenario.redirect (Some "code-1") (Some Scenario.session_state) None in
  let w1 := OAuthServer.handleCallback Scenario.token_endpoint_up 1700000000000 q
              Scenario.awaiting in
  let w2 := OAuthServer.handleCallback Scenario.token_endpoint_up 1700000000000 q w1 in
  OAuthServer.replies w2 = (OAuthServer.replies w1 ++ [OAuthServer.csrf_page])%list
  /\ OAuthServer.exchanges w2 = OAuthServer.exchanges w1
  /\ OAuthServer.oauthState w2 = OAuthServer.idle.
Proof.
  exact (state_spent_once_answered Scenario.token_endpoint_up 1700000000000
           (Scenario.redirect (Some "code-1") (Some Scenario.session_state) None)
           (Scenario.redirect (Some "code-1") (Some Scenario.session_state) None)
           (Throw "unused") Scenario.awaiting
           (OAuthServer.handleCallback Scenario.token_endpoint_up 1700000000000
              (Scenario.redirect (Some "code-1") (Some Scenario.session_state) None)
              Scenario.awaiting)
           eq_refl (or_introl eq_refl)).
Defined.

Lemma failed_exchange_witness :
  let q := Scenario.redirect (Some "code-1") (Some Scenario.session_state) None in
  let w' := OAuthServer.handleCallback Fixtures.token_endpoint_refuses 1700000000000 q
              Scenario.awaiting in
  OAuthServer.replies w'
  = [Session.html (OAuthServer.ErrorHTML "Token exchange failed: 400 - {error: invalid_grant}")]
  /\ List.length (OAuthServer.exchanges w') = 1%nat
  /\ OAuthServer.oauthState w' = OAuthServer.idle.
Proof.
  assert (OAuthServer.oauthState Scenario.awaiting
          = Session.waiting 0 21300
              {| OAuthServer.verifier := "AAECAwQFBgcICQoLDA0ODxAREhMUFRYXGBkaGxwdHh8";
                 OAuthServer.challenge := "6oZqdX5MOLq_qBJ8vppAnT4fk6AP8UiP9zX8-Rev_9A" |}
              Scenario.session_state) as Hs by (vm_compute; reflexivity).
  assert (21300 <> 0) as Hport by lia.
  pose proof
    (failed_exchange_page Fixtures.token_endpoint_refuses 1700000000000
       (Scenario.redirect (Some "code-1") (Some Scenario.session_state) None)
       Scenario.awaiting
       {| OAuthServer.verifier := "AAECAwQFBgcICQoLDA0ODxAREhMUFRYXGBkaGxwdHh8";
          OAuthServer.challenge := "6oZqdX5MOLq_qBJ8vppAnT4fk6AP8UiP9zX8-Rev_9A" |}
       21300
       {| OAuthUtils.resp_ok := false; OAuthUtils.resp_status := 400;
          OAuthUtils.resp_text := "{error: invalid_grant}";
          OAuthUtils.resp_json := Throw "not read" |}
       eq_refl eq_refl) as H.
  rewrite Hs in H. specialize (H eq_refl eq_refl eq_refl eq_refl Hport eq_refl eq_refl).
  destruct H as (Hr & He & Hi).
  split; [exact Hr|]. split; [|exact Hi].
  rewrite He. vm_compute. reflexivity.
Defined.

Lemma exchange_matches_witness :
  let w1 := OAuthServer.startOAuthFlow 0 Scenario.all_free Scenario.random_a
              Scenario.random_b (Ok tt) OAuthServer.initial in
  let q := {| OAuthServer.q_code := Some "code-1";
              OAuthServer.q_state := Some (Base64.base64url Scenario.random_b);
              OAuthServer.q_error := None; OAuthServer.q_error_description := None |} in
  let w2 := OAuthServer.handleCallback Scenario.token_endpoint_up 1700000000000 q w1 in
  exists url params,
    OAuthServer.browser w1 = (OAuthServer.browser OAuthServer.initial ++ [url])%list
    /\ OAuthServer.exchanges w2 = (OAuthServer.exchanges OAuthServer.initial ++ [params])%list
    /\ OAuthUtils.code params = Session.authCode_of "code-1"
    /\ get_field "redirect_uri" (snd url) = Some (OAuthUtils.redirectUri params)
    /\ get_field "code_challenge" (snd url)
       = Some (Base64.base64url
                 (Sha256.sha256 (ascii_bytes (OAuthUtils.codeVerifier params))))
    /\ get_field "code_challenge_method" (snd url) = Some "S256"
    /\ get_field "state" (snd url) = OAuthServer.q_state q
    /\ get_field "client_id" (snd url) = Some OAuthUtils.OAUTH_CLIENT_ID.
Proof.
  apply (exchange_matches_authorization_url Scenario.token_endpoint_up 1700000000000
           0 Scenario.all_free Scenario.random_a Scenario.random_b OAuthServer.initial
           21300 "code-1"); [reflexivity | discriminate | discriminate].
Defined.

(** ** Tokens and their lifetime (oauth-utils.ts)                         *)

Section TokenLifetime.
Import OAuthUtils.

Variables (fetch : Fetch) (now : Z).

Lemma round53_exact (z : Z) : Z.abs z <= 2 ^ 53 -> round53 z = z.
Proof.
  intros H. unfold round53. cbv zeta.
  destruct (Z.leb_spec (Z.abs z) (2 ^ 53)); [reflexivity | lia].
Qed.

(** Beyond 2^53 the sum is rounded: one hour short of 2^53 milliseconds,
    an odd [Date.now()] is lost in the last bit. *)
Lemma expiry_rounds :
  expiry 1700000000001 (Some 9007199254741) = Some 9008899254741000
  /\ expiry 1700000000000 (Some 3600) = Some 1700003600000.
Proof. split; reflexivity. Qed.

(** X15. A token set obtained from the token endpoint is reported as
    expired from five minutes before the lifetime the provider announced
    ends, and not before, as long as that end is a time the arithmetic
    keeps exact (at most 2^53 milliseconds); one obtained without
    [expires_in] (or with 0) is never reported as expired. *)
Theorem exchanged_token_lifetime (params : ExchangeParams) (response : Response)
    (data : TokenResponse) :
  fetch (exchange_request params) = Ok response ->
  resp_ok response = true ->
  resp_json response = Ok data ->
  0 < now ->
  exists tokens,
    exchangeAuthorizationCode fetch now params = Ok tokens
    /\ accessToken tokens = access_token data
    /\ refreshToken tokens = refresh_token data
    /\ (expires_in data = None \/ expires_in data = Some 0 ->
        forall later, isTokenExpired later (expiresAt tokens) = false)
    /\ (forall n, expires_in data = Some n -> 0 < n -> now + n * 1000 <= 2 ^ 53 ->
        forall later, isTokenExpired later (expiresAt tokens) = true
                      <-> now + n * 1000 - 5 * 60 * 1000 <= later).
Proof.
  intros Hfetch Hok Hjson Hnow. unfold exchangeAuthorizationCode.
  rewrite Hfetch. simpl. rewrite Hok, Hjson. simpl.
  eexists. split; [reflexivity|]. simpl.
  split; [reflexivity|]. split; [reflexivity|]. split.
  - intros [-> | ->] later; reflexivity.
  - intros n Hn Hpos Hsafe later. rewrite Hn. unfold expiry, isTokenExpired, bufferMs.
    destruct (Z.eqb_spec n 0); [lia|].
    rewrite (round53_exact (n * 1000)) by lia.
    rewrite (round53_exact (now + n * 1000)) by lia.
    destruct (Z.eqb_spec (now + n * 1000) 0); [lia|].
    rewrite Z.geb_le. lia.
Qed.

(** X16. A refresh that succeeds always hands back a refresh token: the one
    the provider sent if it sent a non-empty one, the one that was used
    otherwise. A non-empty refresh token is therefore never lost by
    refreshing. *)
Theorem refresh_keeps_refresh_token (refreshToken_ : string) (tokens : OAuthTokens) :
  refreshOAuthToken fetch now refreshToken_ = Ok tokens ->
  exists response data,
    fetch (refresh_request refreshToken_) = Ok response
    /\ resp_ok response = true
    /\ resp_json response = Ok data
    /\ accessToken tokens = access_token data
    /\ refreshToken tokens
       = Some (match refresh_token data with
               | Some r => if String.eqb r EmptyString then refreshToken_ else r
               | None => refreshToken_
               end)
    /\ (refreshToken_ <> EmptyString -> refreshToken tokens <> Some EmptyString).
Proof.
  unfold refreshOAuthToken. intros H.
  destruct (fetch (refresh_request refreshToken_)) as [response|e]; [|discriminate].
  simpl in H. destruct (resp_ok response) eqn:Hok; [|discriminate]. simpl in H.
  destruct (resp_json response) as [data|e] eqn:Hjson; [|discriminate]. simpl in H.
  injection H as <-. exists response, data. simpl. repeat split; trivial.
  intros Hne [= E]. unfold or_else in E.
  destruct (refresh_token data) as [r|]; [|contradiction].
  destruct (String.eqb_spec r EmptyString); [contradiction | congruence].
Qed.

End TokenLifetime.

(** ** Where the credential comes from (claude-token.ts)                  *)

Section LookupOrder.
Import ClaudeToken ClaudeCli.

Variable sys : System.

(** X17. [getExistingClaudeCredentials] returns what the first place that
    holds a credential holds, asking, in this order: on macOS the keychain
    entry and then the credentials file; on Linux [secret-tool], then
    [pass], then the credentials file; on Windows the credentials file,
    read a second time if the first reading gave nothing; on any other
    platform the credentials file alone. A place holds a credential when
    its text (trimmed, for a command's output) is JSON for an object with a
    truthy [claudeAiOauth]; a place that fails, is empty or holds anything
    else is passed over. The one failure that is not passed over is that of
    [homedir()] when the credentials file is the last resort: it is thrown
    on. *)
Theorem credentials_lookup_order :
  getExistingClaudeCredentials sys
  = match first_found (keychain_places sys) with
    | Some c => Ok (Some c)
    | None =>
        match homedir sys with
        | Ok home => Ok (file_entry sys (credentials_file sys home))
        | Throw e => Throw e
        end
    end.
Proof. exact (getExistingClaudeCredentials_lookup sys). Qed.

(** X18. [getExistingClaudeToken] gives the access token of the credential
    the look-up finds, and only a truthy one: it returns [v] exactly when
    the credential found has the access token [v] and [v] is truthy; it
    returns [null] exactly when no credential is found or the one found
    has no truthy access token; and it throws exactly when the look-up
    does. *)
Theorem getExistingClaudeToken_of_credential :
  (forall v, getExistingClaudeToken sys = Ok (Some v)
             <-> exists c, lookup sys = Ok (Some c)
                           /\ accessToken c = Some v
                           /\ json_truthy (Some v) = true)
  /\ (getExistingClaudeToken sys = Ok None
      <-> lookup sys = Ok None
          \/ exists c, lookup sys = Ok (Some c) /\ json_truthy (accessToken c) = false)
  /\ (forall e, getExistingClaudeToken sys = Throw e <-> lookup sys = Throw e).
Proof.
  unfold getExistingClaudeToken. rewrite getExistingClaudeCredentials_lookup.
  destruct (lookup sys) as [[c|]|e]; cbn [bind].
  - destruct (json_truthy (accessToken c)) eqn:E.
    + split; [|split].
      * intros v. split.
        -- intros [= H]. exists c. rewrite H in E. auto.
        -- intros (c' & [= <-] & H & _). now rewrite H.
      * split; [|intros [H | (c' & [= <-] & H)]; congruence].
        destruct (accessToken c); [discriminate | discriminate].
      * intros e. split; discriminate.
    + split; [|split].
      * intros v. split; [discriminate|].
        intros (c' & [= <-] & H & Hv). rewrite H, Hv in E. discriminate.
      * split; [|reflexivity]. intros _. right. now exists c.
      * intros e. split; discriminate.
  - split; [|split].
    + intros v. split; [discriminate | intros (c & H & _); discriminate].
    + split; auto.
    + intros e. split; discriminate.
  - split; [|split].
    + intros v. split; [discriminate | intros (c & H & _); discriminate].
    + split; [discriminate | intros [H | (c & H & _)]; discriminate].
    + intros e'. split; intros [= ->]; reflexivity.
Qed.

End LookupOrder.

(** ** The search path and the CLI set-up (claude-token.ts)               *)

Section SearchPath.
Import ClaudeCli.

Lemma split_not_empty (sep : ascii) (s : string) : split sep s <> [].
Proof.
  destruct s as [|c r]; simpl; [discriminate|].
  destruct (Ascii.eqb c sep); [discriminate|].
  destruct (split sep r); discriminate.
Qed.

(** Joining what a split yields gives the text back. *)
Lemma join_split (sep : ascii) (s : string) : join sep (split sep s) = s.
Proof.
  induction s as [|c r IH]; [reflexivity|]. simpl.
  destruct (Ascii.eqb_spec c sep) as [->|Hne].
  - pose proof (split_not_empty sep r) as Hr.
    destruct (split sep r) as [|h t]; [contradiction|].
    cbn [join]. cbn [join] in IH. simpl. now rewrite IH.
  - pose proof (split_not_empty sep r) as Hr.
    destruct (split sep r) as [|h t]; [contradiction|].
    destruct t as [|h' t]; simpl in *; now rewrite <- IH.
Qed.

Lemma join_cons (sep : ascii) (x : string) (l : list string) :
  l <> [] -> join sep (x :: l) = x ++ String sep (join sep l).
Proof. destruct l; [contradiction | reflexivity]. Qed.

Lemma append_associative (a b c : string) : (a ++ b) ++ c = a ++ (b ++ c).
Proof. induction a as [|x a IH]; simpl; [reflexivity | now rewrite IH]. Qed.

Lemma append_not_empty (a b : string) :
  b <> EmptyString -> String.eqb (a ++ b) EmptyString = false.
Proof.
  intros Hb. destruct (String.eqb_spec (a ++ b) EmptyString) as [E|]; trivial.
  destruct a; simpl in E; [contradiction | discriminate].
Qed.

(** X19. [getExtendedPath] puts seven places, the home-relative ones under
    the given home directory, in front of the current [PATH] and keeps that
    [PATH] as it is, entry for entry, at the end. When [PATH] is unset or
    empty the result ends with a colon. *)
Theorem getExtendedPath_keeps_PATH (home : string) (envPATH : option string) :
  getExtendedPath home envPATH
  = "/opt/homebrew/bin:/usr/local/bin:" ++ home ++ "/.local/bin:" ++ home
      ++ "/.bun/bin:" ++ home ++ "/.cargo/bin:/opt/local/bin:" ++ home
      ++ "/.nvm/versions/node/*/bin:" ++ or_else envPATH EmptyString.
Proof.
  unfold getExtendedPath. cbv zeta. cbn [filter String.eqb negb].
  rewrite !append_not_empty by discriminate. cbn [negb app].
  pose proof (split_not_empty ":"%char (or_else envPATH EmptyString)) as Hs.
  rewrite !join_cons by (first [exact Hs | discriminate]).
  rewrite join_split.
  rewrite !append_associative. reflexivity.
Qed.

End SearchPath.

Section SetupPolling.
Import ClaudeCli.

Lemma truthy_some (o : option string) : truthy o = true -> exists t, o = Some t.
Proof. destruct o as [t|]; [eauto | discriminate]. Qed.

Lemma stopped_stays (obs : list (option string)) (s : Setup) :
  polling s = false -> setup_run (ticks obs) s = s.
Proof.
  intros H. induction obs as [|o r IH]; [reflexivity|].
  simpl. unfold on_interval. rewrite H. exact IH.
Qed.

Lemma poll_from : forall (n : nat) (obs : list (option string)) (s : Setup),
  polling s = true -> resolved s = None ->
  (attempts s + S n = maxAttempts)%nat -> (S n <= List.length obs)%nat ->
  let s' := setup_run (ticks obs) s in
  resolved s' = Some (match first_token (S n) obs with
                      | Some t => succeeded t
                      | None => timed_out
                      end)
  /\ polling s' = false
  /\ (attempts s' <= maxAttempts)%nat.
Proof.
  induction n as [|n IH]; intros obs s Hpoll Hres Hatt Hlen;
    (destruct obs as [|o r]; [simpl in Hlen; lia|]);
    cbn [ticks map setup_run fold_left setup_step first_token];
    unfold on_interval; rewrite Hpoll; cbn [negb];
    destruct (truthy o) eqn:Ho.
  - destruct (truthy_some o Ho) as [t ->].
    fold (setup_run (ticks r)). rewrite stopped_stays by (unfold resolve; now rewrite Hres).
    unfold resolve. rewrite Hres. simpl. repeat split. unfold maxAttempts in *. lia.
  - assert (Nat.leb maxAttempts (S (attempts s)) = true) as ->
      by (apply Nat.leb_le; lia).
    fold (setup_run (ticks r)). rewrite stopped_stays by (unfold resolve; now rewrite Hres).
    unfold resolve. rewrite Hres. simpl. repeat split. lia.
  - destruct (truthy_some o Ho) as [t ->].
    fold (setup_run (ticks r)). rewrite stopped_stays by (unfold resolve; now rewrite Hres).
    unfold resolve. rewrite Hres. simpl. repeat split. unfold maxAttempts in *. lia.
  - assert (Nat.leb maxAttempts (S (attempts s)) = false) as ->
      by (apply Nat.leb_gt; lia).
    fold (setup_run (ticks r)).
    apply IH; simpl; trivial; simpl in Hlen; lia.
Qed.

(** X20. [runClaudeSetupToken], when the terminal does not fail, resolves
    with the first token that [getExistingClaudeToken] shows within the
    first 60 runs of the two-second interval, the 60th included, and with
    the time-out failure if none shows; by then the interval is cleared,
    after at most 60 runs. *)
Theorem polling_resolves (obs : list (option string)) :
  (60 <= List.length obs)%nat ->
  let s := setup_run (ticks obs) started in
  resolved s = Some (match first_token 60 obs with
                     | Some t => succeeded t
                     | None => timed_out
                     end)
  /\ polling s = false
  /\ (attempts s <= 60)%nat.
Proof.
  intros H. apply (poll_from 59 obs started); trivial.
Qed.

Lemma resolve_resolved (r : SetupResult) (s : Setup) : resolved (resolve r s) <> None.
Proof. unfold resolve. destruct (resolved s) eqn:E; simpl; congruence. Qed.




End SetupPolling.

(** ** The other procedures of the router (claude-code.ts)                *)

Section RouterFacts.
Import Utf8 ClaudeCode Router.

Lemma filter_default_deleted (db : Table) :
  filter is_default (db_delete "default" db) = [].
Proof.
  unfold db_delete, is_default. induction db as [|r db IH]; [reflexivity|]. simpl.
  destruct (String.eqb (id r) "default") eqn:E; simpl; [exact IH|]. now rewrite E.
Qed.

Lemma filter_others_deleted (db : Table) :
  filter (fun r => negb (is_default r)) (db_delete "default" db)
  = filter (fun r => negb (is_default r)) db.
Proof.
  unfold db_delete, is_default. induction db as [|r db IH]; [reflexivity|]. simpl.
  destruct (String.eqb (id r) "default") eqn:E; simpl; [exact IH|].
  rewrite E. simpl. now rewrite IH.
Qed.

(** X22. Storing a token replaces the record: whatever the table held, it
    afterwards holds exactly one row with the fixed identity, carrying the
    encrypted token and the time of the call, and every row with another
    identity is kept, in order. When encryption throws, nothing is
    written. *)
Theorem store_replaces_the_record (ss : SafeStorage) (now : Z) (token_ : jsstring)
    (db : Table) :
  match storeOAuthToken ss now token_ db with
  | Ok db' =>
      exists encrypted,
        encryptToken ss token_ = Ok encrypted
        /\ filter is_default db'
           = [{| id := "default"; oauthToken := encrypted; connectedAt := now;
                 userId := None |}]
        /\ filter (fun r => negb (is_default r)) db'
           = filter (fun r => negb (is_default r)) db
  | Throw e => encryptToken ss token_ = Throw e
  end.
Proof.
  unfold storeOAuthToken.
  destruct (encryptToken ss token_) as [encrypted|e]; simpl; [|reflexivity].
  exists encrypted. split; [reflexivity|]. unfold db_insert.
  rewrite !filter_app, filter_default_deleted, filter_others_deleted. simpl.
  split; [reflexivity | apply app_nil_r].
Qed.

(** X23. [disconnect] may be repeated: a second call changes nothing.
    After it [getToken] answers "Not connected" and [getIntegration] reports
    no connection, whatever was stored, and rows with another identity are
    kept. *)
Theorem disconnect_clears (ss : SafeStorage) (db : Table) :
  disconnect (disconnect db) = disconnect db
  /\ getToken ss (disconnect db) = not_connected
  /\ getIntegration (disconnect db) = {| isConnected := false; connectedSince := None |}
  /\ filter (fun r => negb (is_default r)) (disconnect db)
     = filter (fun r => negb (is_default r)) db.
Proof.
  assert (db_get "default" (disconnect db) = None) as Hget.
  { unfold db_get, disconnect, db_delete. induction db as [|r db IH]; [reflexivity|].
    simpl. destruct (String.eqb (id r) "default") eqn:E; simpl; [exact IH|].
    now rewrite E. }
  repeat split.
  - clear Hget. unfold disconnect, db_delete.
    induction db as [|r db IH]; [reflexivity|]. simpl.
    destruct (String.eqb (id r) "default") eqn:E; simpl; [exact IH|].
    rewrite E. simpl. now f_equal.
  - apply getToken_after_disconnect.
  - unfold getIntegration. now rewrite Hget.
  - apply filter_others_deleted.
Qed.

(** X24. [getIntegration] and [getToken] agree on what "connected" means:
    for every table and either storage mode, [getIntegration] reports no
    connection exactly when [getToken] answers "Not connected"; and
    [getToken] never throws: its answer holds a token or an error, never
    both and never neither. *)
Theorem connected_means_the_same (ss : SafeStorage) (db : Table) :
  (isConnected (getIntegration db) = false
   <-> error (getToken ss db) = Some "Not connected")
  /\ (token (getToken ss db) = None <-> error (getToken ss db) <> None).
Proof.
  unfold getIntegration, getToken.
  destruct (db_get "default" db) as [cred|]; simpl.
  - destruct (String.eqb (oauthToken cred) EmptyString); simpl.
    + repeat split; auto; discriminate.
    + destruct (decryptToken ss (oauthToken cred)); simpl;
        repeat split; intros; try discriminate; try congruence.
  - repeat split; auto; discriminate.
Qed.

(** X25. A token that was stored while encryption was available and is read
    after encryption has become unavailable is not reported as undecryptable:
    [getToken] answers without an error, and what it gives as the token is
    the cipher text read as UTF-8. *)
Theorem read_without_encryption_gives_cipher_text
    (stored reading : SafeStorage) (now : Z) (token_ : jsstring) (db : Table)
    (buffer : list Z) :
  isEncryptionAvailable stored = true ->
  encryptString stored token_ = Ok buffer ->
  bytes_ok buffer ->
  buffer <> [] ->
  isEncryptionAvailable reading = false ->
  exists db',
    storeOAuthToken stored now token_ db = Ok db'
    /\ getToken reading db' = {| token := Some (Utf8.decode buffer); error := None |}.
Proof.
  intros Hav Henc Hbytes Hne Hno.
  unfold storeOAuthToken, encryptToken. rewrite Hav, Henc. simpl.
  eexists. split; [reflexivity|].
  rewrite getToken_after_store, nonempty_base64 by exact Hne.
  unfold decryptToken. rewrite Hno. simpl.
  now rewrite decode_base64 by exact Hbytes.
Qed.

Lemma js_trim_start_well_formed (s : jsstring) :
  well_formed s -> well_formed (js_trim_start s).
Proof.
  unfold well_formed. induction 1 as [|c s Hc Hs IH]; simpl; [constructor|].
  destruct (js_space c); [exact IH | now constructor].
Qed.

Lemma js_trim_well_formed (s : jsstring) : well_formed s -> well_formed (js_trim s).
Proof.
  intros H. unfold js_trim, well_formed.
  apply Forall_rev, js_trim_start_well_formed, Forall_rev, js_trim_start_well_formed, H.
Qed.

(** X26. [importToken] refuses the empty input; any other input is trimmed
    and stored. Without secure storage and for well-formed text, [getToken]
    afterwards gives the trimmed input back, unless the input was white
    space only: that import succeeds too, and leaves the account "Not
    connected". *)
Theorem importToken_stores_trimmed (ss : SafeStorage) (now : Z) (input : jsstring)
    (db : Table) :
  isEncryptionAvailable ss = false ->
  well_formed input ->
  match input with
  | [] => exists e, importToken ss now input db = Throw e
  | _ :: _ =>
      exists db',
        importToken ss now input db = Ok db'
        /\ getToken ss db'
           = match js_trim input with
             | [] => not_connected
             | _ :: _ => {| token := Some (js_trim input); error := None |}
             end
  end.
Proof.
  intros Hno Hwf. destruct input as [|c r]; [eexists; reflexivity|].
  unfold importToken. cbv zeta. unfold storeOAuthToken, encryptToken.
  rewrite Hno. simpl bind. simpl negb. cbv iota. eexists. split; [reflexivity|].
  rewrite getToken_after_store.
  pose proof (js_trim_well_formed (c :: r) Hwf) as Ht.
  destruct (js_trim (c :: r)) as [|c' r'] eqn:E; [reflexivity|].
  rewrite nonempty_base64 by (intros H; apply encode_empty in H; discriminate).
  unfold decryptToken. rewrite Hno. simpl negb. cbv iota.
  rewrite decode_base64 by now apply encode_bytes.
  now rewrite decode_encode.
Qed.

End RouterFacts.

(** ** The request listener (oauth-server.ts)                            *)

Section Routing.
Import OAuthUtils OAuthServer Session.

Lemma set_replies_same (w : World) : set_replies (replies w ++ []) w = w.
Proof. destruct w; unfold set_replies; simpl. now rewrite app_nil_r. Qed.

Lemma answers_set_replies (rs : list Reply) (w : World) (es : list Event) :
  answers (set_replies rs w) es = answers w es.
Proof. reflexivity. Qed.

Lemma answer_written (fetch : Fetch) (now : Z) (url : result HttpRequest) (w : World) :
  elsewhere (RequestArrives 0 fetch now url) = true ->
  handleRequest fetch now url w = set_replies (replies w ++ answer url) w.
Proof.
  intros H. unfold handleRequest, answer. destruct url as [req|e].
  - cbn [elsewhere] in H. apply negb_true_iff in H. rewrite H.
    destruct (String.eqb (pathname req) "/health"); reflexivity.
  - symmetry. apply set_replies_same.
Qed.

(** X27. Only a request for [/callback] can touch a session. Whatever
    requests for other paths arrive, in any number and at any moment, the
    session record, the listeners, the timer, the promises, the exchanges
    and the browser stay as they are, and what is written is, request by
    request and in order: the health JSON with status 200 for [/health],
    "Not Found" with status 404 for any other path, and nothing for a
    target that is no URL or a server that is not bound. *)
Theorem only_callback_touches_session (es : list Event) (w : World) :
  forallb elsewhere es = true ->
  run es w = set_replies (replies w ++ answers w es) w.
Proof.
  revert w. induction es as [|e es IH]; intros w H.
  - symmetry. apply set_replies_same.
  - simpl in H. apply andb_prop in H as [He Hes].
    destruct e as [|f net rv rs0 opened|srv fetch now url|f message|f|];
      try discriminate He.
    unfold run. cbn [fold_left step]. fold (run es (if is_listening srv w
                                                    then handleRequest fetch now url w
                                                    else w)).
    unfold answers. cbn [flat_map]. fold (answers w es).
    destruct (is_listening srv w).
    + rewrite (answer_written fetch now url w He), IH by exact Hes.
      rewrite answers_set_replies. unfold set_replies. cbn [replies oauthState listening
        timers promises exchanges browser]. now rewrite app_assoc.
    + rewrite IH by exact Hes. reflexivity.
Qed.

End Routing.

(** ** Sample instances of the properties above                           *)

Lemma exchanged_token_lifetime_witness :
  exists tokens,
    OAuthUtils.exchangeAuthorizationCode Scenario.token_endpoint_up 1700000000000
      {| OAuthUtils.code := "code-1";
         OAuthUtils.redirectUri := "http://localhost:21300/callback";
         OAuthUtils.codeVerifier := "v" |} = Ok tokens
    /\ OAuthUtils.isTokenExpired 1700003299999 (OAuthUtils.expiresAt tokens) = false
    /\ OAuthUtils.isTokenExpired 1700003300000 (OAuthUtils.expiresAt tokens) = true.
Proof.
  destruct (exchanged_token_lifetime Scenario.token_endpoint_up 1700000000000
              {| OAuthUtils.code := "code-1";
                 OAuthUtils.redirectUri := "http://localhost:21300/callback";
                 OAuthUtils.codeVerifier := "v" |}
              {| OAuthUtils.resp_ok := true; OAuthUtils.resp_status := 200;
                 OAuthUtils.resp_text := "{..}";
                 OAuthUtils.resp_json :=
                   Ok {| OAuthUtils.access_token := "sk-ant-oat01";
                         OAuthUtils.refresh_token := Some "rt";
                         OAuthUtils.expires_in := Some 3600;
                         OAuthUtils.token_type := Some "Bearer" |} |}
              {| OAuthUtils.access_token := "sk-ant-oat01";
                 OAuthUtils.refresh_token := Some "rt";
                 OAuthUtils.expires_in := Some 3600;
                 OAuthUtils.token_type := Some "Bearer" |}
              eq_refl eq_refl eq_refl eq_refl)
    as (tokens & Hex & _ & _ & _ & Hlater).
  exists tokens. split; [exact Hex|].
  assert (1700000000000 + 3600 * 1000 <= 2 ^ 53) as Hsafe by (vm_compute; discriminate).
  specialize (Hlater 3600 eq_refl eq_refl Hsafe). split.
  - destruct (OAuthUtils.isTokenExpired 1700003299999 (OAuthUtils.expiresAt tokens)) eqn:E;
      [|reflexivity].
    apply Hlater in E. lia.
  - apply Hlater. lia.
Defined.

Lemma refresh_keeps_refresh_token_witness :
  exists response data,
    Scenario.token_endpoint_up (OAuthUtils.refresh_request "old-rt") = Ok response
    /\ OAuthUtils.resp_ok response = true
    /\ OAuthUtils.resp_json response = Ok data
    /\ Some "sk-ant-oat01" = Some (OAuthUtils.access_token data)
    /\ Some "rt"
       = Some (match OAuthUtils.refresh_token data with
               | Some r => if String.eqb r EmptyString then "old-rt" else r
               | None => "old-rt"
               end).
Proof.
  destruct (refresh_keeps_refresh_token Scenario.token_endpoint_up 1700000000000 "old-rt"
              {| OAuthUtils.accessToken := "sk-ant-oat01";
                 OAuthUtils.refreshToken := Some "rt";
                 OAuthUtils.expiresAt := Some 1700003600000 |} eq_refl)
    as (response & data & H1 & H2 & H3 & H4 & H5 & _).
  exists response, data. simpl in H4, H5.
  split; [exact H1|]. split; [exact H2|]. split; [exact H3|].
  split; [now rewrite H4 | now rewrite <- H5].
Defined.

Lemma polling_resolves_witness :
  let obs := (repeat None 3 ++ [Some "sk-ant-oat01"] ++ repeat None 56)%list in
  let s := ClaudeCli.setup_run (ClaudeCli.ticks obs) ClaudeCli.started in
  ClaudeCli.resolved s = Some (ClaudeCli.succeeded "sk-ant-oat01")
  /\ ClaudeCli.polling s = false
  /\ (ClaudeCli.attempts s <= 60)%nat.
Proof.
  assert (60 <= List.length (repeat None 3 ++ [Some "sk-ant-oat01"] ++ repeat None 56)%list)%nat
    as H by (simpl; lia).
  exact (polling_resolves
           (repeat None 3 ++ [Some "sk-ant-oat01"] ++ repeat None 56)%list H).
Defined.

Lemma read_without_encryption_witness :
  exists db',
    ClaudeCode.storeOAuthToken StoreScenario.masked_safeStorage 7 StoreScenario.sample_token
      [StoreScenario.old_row] = Ok db'
    /\ ClaudeCode.getToken StoreScenario.no_safeStorage db'
       = {| ClaudeCode.token :=
              Some (Utf8.decode
                      (StoreScenario.tag
                       ++ map (Z.lxor 90) (Utf8.encode StoreScenario.sample_token))%list);
            ClaudeCode.error := None |}.
Proof.
  apply (read_without_encryption_gives_cipher_text StoreScenario.masked_safeStorage
           StoreScenario.no_safeStorage 7 StoreScenario.sample_token [StoreScenario.old_row]
           (StoreScenario.tag ++ map (Z.lxor 90) (Utf8.encode StoreScenario.sample_token))%list).
  - reflexivity.
  - reflexivity.
  - apply bytes_ok_check. reflexivity.
  - discriminate.
  - reflexivity.
Defined.

Lemma importToken_witness :
  (exists db',
     Router.importToken StoreScenario.no_safeStorage 7
       ([32; 10] ++ StoreScenario.sample_token ++ [9; 32])%list [StoreScenario.old_row] = Ok db'
     /\ ClaudeCode.getToken StoreScenario.no_safeStorage db'
        = {| ClaudeCode.token := Some StoreScenario.sample_token;
             ClaudeCode.error := None |})
  /\ (exists db',
     Router.importToken StoreScenario.no_safeStorage 7 [32; 32] [StoreScenario.old_row] = Ok db'
     /\ ClaudeCode.getToken StoreScenario.no_safeStorage db' = Router.not_connected).
Proof.
  split.
  - apply (importToken_stores_trimmed StoreScenario.no_safeStorage 7
             ([32; 10] ++ StoreScenario.sample_token ++ [9; 32])%list [StoreScenario.old_row]).
    + reflexivity.
    + repeat constructor.
  - apply (importToken_stores_trimmed StoreScenario.no_safeStorage 7 [32; 32]
             [StoreScenario.old_row]).
    + reflexivity.
    + repeat constructor.
Defined.

Lemma only_callback_witness :
  OAuthServer.replies
    (OAuthServer.run
       [ OAuthServer.RequestArrives 0 Scenario.token_endpoint_up 1700000000000
           (Ok {| OAuthServer.pathname := "/favicon.ico";
                  OAuthServer.query := Scenario.redirect None None None |});
         OAuthServer.RequestArrives 0 Scenario.token_endpoint_up 1700000000000
           (Throw "Invalid URL");
         OAuthServer.RequestArrives 0 Scenario.token_endpoint_up 1700000000000
           (Ok {| OAuthServer.pathname := "/health";
                  OAuthServer.query := Scenario.redirect (Some "code-1") None None |}) ]
       Scenario.awaiting)
  = [ {| OAuthServer.status := 404; OAuthServer.contentType := "text/plain";
         OAuthServer.page := OAuthServer.NotFoundText |};
      {| OAuthServer.status := 200; OAuthServer.contentType := "application/json";
         OAuthServer.page := OAuthServer.HealthJSON |} ].
Proof.
  rewrite (only_callback_touches_session
             [ OAuthServer.RequestArrives 0 Scenario.token_endpoint_up 1700000000000
                 (Ok {| OAuthServer.pathname := "/favicon.ico";
                        OAuthServer.query := Scenario.redirect None None None |});
               OAuthServer.RequestArrives 0 Scenario.token_endpoint_up 1700000000000
                 (Throw "Invalid URL");
               OAuthServer.RequestArrives 0 Scenario.token_endpoint_up 1700000000000
                 (Ok {| OAuthServer.pathname := "/health";
                        OAuthServer.query := Scenario.redirect (Some "code-1") None None |}) ]
             Scenario.awaiting eq_refl).
  vm_compute. reflexivity.
Defined.
